(** * mumble-streams: a shallow embedding of the wire codecs

    The development follows the three source files of the library:

    - [lib/voice.js]      the varint functions and the voice packet
                          [Encoder] / [Decoder]            (modules [Varint], [Voice]);
    - [lib/data.js]       the control-channel [Decoder]    (module [Control]);
    - [lib/udp-crypto.js] [UdpCrypt] and the OCB2 routines (module [Crypt]).

    JavaScript numbers that the code uses as integers are modelled by [Z],
    with the coercions of the bitwise operators written out (module [JS]).
    A [Buffer] is a [list Z] whose elements are bytes; a store into a
    [Buffer] reduces the stored number modulo 256. *)

From Stdlib Require Import ZArith List Lia Bool.
From stdpp Require Import base gmap list strings pretty.

Local Open Scope Z_scope.

(** ** JavaScript integer operators *)

Module JS.

(** [ToInt32]: the coercion every bitwise operator applies to its operands. *)
Definition toInt32 (z : Z) : Z := (z + 2 ^ 31) mod 2 ^ 32 - 2 ^ 31.

(** [a & b], [a | b], [a ^ b], [~a], [a << n], [a >> n]. *)
Definition band (a b : Z) : Z := Z.land (toInt32 a) (toInt32 b).
Definition bor (a b : Z) : Z := Z.lor (toInt32 a) (toInt32 b).
Definition bxor (a b : Z) : Z := Z.lxor (toInt32 a) (toInt32 b).
Definition bnot (a : Z) : Z := Z.lnot (toInt32 a).
Definition shl (a n : Z) : Z := toInt32 (Z.shiftl (toInt32 a) (n mod 32)).
Definition sar (a n : Z) : Z := Z.shiftr (toInt32 a) (n mod 32).

(** The value kept by a [Buffer] (a [Uint8Array]) when a number is stored. *)
Definition u8 (z : Z) : Z := z mod 256.

Definition is_byte (z : Z) : Prop := 0 <= z < 256.
Definition is_byteb (z : Z) : bool := (0 <=? z) && (z <? 256).

(** [b[i]] read where the result is coerced by a bitwise operator: an
    index past the end gives [undefined], which [ToInt32] maps to 0. *)
Definition at0 (b : list Z) (i : nat) : Z := default 0 (b !! i).

(** [new Buffer(arr)] and [Buffer.from(arr)] on an array of numbers. *)
Definition mkBuffer (arr : list Z) : list Z := map u8 arr.

(** [b.slice(from)] and [b.slice(from, to)] on a [Buffer], for
    [0 <= from <= to]. *)
Definition slice_from (b : list Z) (from : nat) : list Z := drop from b.
Definition slice (b : list Z) (from to : nat) : list Z :=
  take (to - from)%nat (drop from b).

(** [source.copy(target, targetStart, sourceStart, sourceEnd)]: the new
    target and the number of bytes copied. *)
Definition copy (source target : list Z) (targetStart sourceStart sourceEnd : nat)
    : list Z * nat :=
  let n := Nat.min (Nat.min sourceEnd (length source) - sourceStart)
                   (length target - targetStart) in
  (take targetStart target ++ take n (drop sourceStart source)
     ++ drop (targetStart + n)%nat target, n).

(** [new Buffer(size)] leaves the content of the buffer unspecified; the
    models take the allocation as a parameter.  For examples: zero-filled
    buffers. *)
Definition zeroed (n : nat) : list Z := replicate n 0.

End JS.

Declare Scope js_scope.
Delimit Scope js_scope with js.
(* JavaScript's precedences: shifts bind tighter than [&], [&] tighter than
   [^], [^] tighter than [|]. *)
Infix "<<" := JS.shl (at level 32, left associativity) : js_scope.
Infix ">>" := JS.sar (at level 32, left associativity) : js_scope.
Infix ".&" := JS.band (at level 36, left associativity) : js_scope.
Infix ".^" := JS.bxor (at level 37, left associativity) : js_scope.
Infix ".|" := JS.bor (at level 38, left associativity) : js_scope.
Notation ".~ a" := (JS.bnot a) (at level 31, right associativity) : js_scope.
Local Open Scope js_scope.

(** ** Varint ([lib/voice.js], [toVarint] and [fromVarint]) *)

Module Varint.
Import JS.

(** What [toVarint] hands back: the bare [Buffer] of the one-byte negative
    form, the object [{value, length}] of every other form, or the
    [TypeError] thrown once [i] is [0x100000000] or more. *)
Inductive encoded :=
| Bare (buf : list Z)
| Obj (value : list Z) (length : Z)
| Thrown.

Definition toVarint (i : Z) : encoded :=
  let neg := i <? 0 in
  let i := if neg then .~ i else i in
  if neg && (i <=? 0x3) then Bare (mkBuffer [0xFC .| i])
  else
    let arr := if neg then [0xF8] else [] in
    if i <? 0x80 then
      let arr := arr ++ [i] in
      Obj (mkBuffer arr) (Z.of_nat (length arr))
    else if i <? 0x4000 then
      let arr := arr ++ [(i >> 8) .| 0x80; i .& 0xFF] in
      Obj (mkBuffer arr) (Z.of_nat (length arr))
    else if i <? 0x200000 then
      let arr := arr ++ [(i >> 16) .| 0xC0; (i >> 8) .& 0xFF; i .& 0xFF] in
      Obj (mkBuffer arr) (Z.of_nat (length arr))
    else if i <? 0x10000000 then
      let arr := arr ++ [(i >> 24) .| 0xE0; (i >> 16) .& 0xFF;
                         (i >> 8) .& 0xFF; i .& 0xFF] in
      Obj (mkBuffer arr) (Z.of_nat (length arr))
    else if i <? 0x100000000 then
      let arr := arr ++ [0xF0; (i >> 24) .& 0xFF; (i >> 16) .& 0xFF;
                         (i >> 8) .& 0xFF; i .& 0xFF] in
      Obj (mkBuffer arr) (Z.of_nat (length arr))
    else Thrown.

(** The bytes of an encoding, whichever of the two shapes it has. *)
Definition bytes_of (e : encoded) : option (list Z) :=
  match e with
  | Bare buf => Some buf
  | Obj value _ => Some value
  | Thrown => None
  end.

(** [toVarint(i).value], as the voice encoder reads it: [undefined] on
    the bare [Buffer]. *)
Definition value_of (e : encoded) : option (list Z) :=
  match e with
  | Obj value _ => Some value
  | _ => None
  end.

(** [fromVarint] returns [null] ([None]) or [{value, length}].  The five
    prefix tests cover every byte (lemma [prefix_tests_cover]), so the
    fall-through that would leave [i] undefined is never taken on a
    [Buffer]; the model answers 0 there. *)
Fixpoint fromVarint (b : list Z) : option (Z * Z) :=
  match b with
  | [] => None
  | v :: rest =>
    if (v .& 0x80) =? 0x00 then Some (v .& 0x7F, 1)
    else if (v .& 0xC0) =? 0x80 then
      Some (((v .& 0x3F) << 8) .| at0 b 1, 2)
    else if (v .& 0xF0) =? 0xF0 then
      let sw := v .& 0xFC in
      if sw =? 0xF0 then
        Some ((at0 b 1 << 24) .| (at0 b 2 << 16) .| (at0 b 3 << 8) .| at0 b 4, 5)
      else if sw =? 0xF8 then
        match fromVarint rest with
        | None => None
        | Some (value, len) => Some (.~ value, 1 + len)
        end
      else if sw =? 0xFC then Some (.~ (v .& 0x03), 1)
      else None
    else if (v .& 0xF0) =? 0xE0 then
      Some (((v .& 0x0F) << 24) .| (at0 b 1 << 16) .| (at0 b 2 << 8) .| at0 b 3, 4)
    else if (v .& 0xE0) =? 0xC0 then
      Some (((v .& 0x1F) << 16) .| (at0 b 1 << 8) .| at0 b 2, 3)
    else Some (0, 1)
  end.

(** The numbers pushed by the chain of size tests of [toVarint], which is
    shared by both signs; [None] where the chain ends in the [throw]. *)
Definition pushes (i : Z) : option (list Z) :=
  if i <? 0x80 then Some [i]
  else if i <? 0x4000 then Some [(i >> 8) .| 0x80; i .& 0xFF]
  else if i <? 0x200000 then Some [(i >> 16) .| 0xC0; (i >> 8) .& 0xFF; i .& 0xFF]
  else if i <? 0x10000000 then
    Some [(i >> 24) .| 0xE0; (i >> 16) .& 0xFF; (i >> 8) .& 0xFF; i .& 0xFF]
  else if i <? 0x100000000 then
    Some [0xF0; (i >> 24) .& 0xFF; (i >> 16) .& 0xFF; (i >> 8) .& 0xFF; i .& 0xFF]
  else None.

(** The three ways a varint can fail to decode that the protocol
    description tells apart. *)
Inductive failure := Truncated | Malformed | Unsupported64Bit.

End Varint.

(** ** Voice packets ([lib/voice.js], [Encoder] and [Decoder]) *)

Module Voice.
Import JS Varint.

(** The constructor argument of both streams: ['server'] or ['client']
    (any other string makes the constructor throw). *)
Inductive side := server | client.

Inductive Codec := Opus | CELT_Alpha | CELT_Beta | Speex.

(** A position is kept as the three IEEE-754 single-precision bit
    patterns that [writeFloatBE] stores and [readFloatBE] loads. *)
Record Position := { px : Z; py : Z; pz : Z }.

(** [VoiceData] as the encoder reads it; [source] absent is [None]. *)
Record VoiceData := {
  source : option Z;
  mode : Z;
  codec : Codec;
  seqNum : Z;
  end_ : bool;
  frames : list (list Z);
  position : option Position
}.

(** An input of the encoder: an object with a [timestamp], or voice data. *)
Inductive chunk_in :=
| PingData (timestamp : Z)
| Voice (v : VoiceData).

(** How [Encoder.prototype._transform] ends: [callback(null, buffer)],
    [callback(new Error(msg))], or an exception that escapes it. *)
Inductive enc_result :=
| Pushed (buffer : list Z)
| CallbackError (msg : string)
| Escaped.

(** The four bytes of a float, given by its bit pattern, high byte first. *)
Definition float_bytes (bits : Z) : list Z :=
  [ (bits / 2 ^ 24) mod 256; (bits / 2 ^ 16) mod 256;
    (bits / 2 ^ 8) mod 256; bits mod 256 ].

(** [chunk.readFloatBE(offset)], as a bit pattern. *)
Definition readFloatBE (chunk : list Z) (offset : Z) : Z :=
  let o := Z.to_nat offset in
  at0 chunk o * 2 ^ 24 + at0 chunk (o + 1)%nat * 2 ^ 16 +
  at0 chunk (o + 2)%nat * 2 ^ 8 + at0 chunk (o + 3)%nat.

(** [toVarint(x).value] for a field that may be absent; [toVarint] throws
    on [undefined], and [.copy] throws on the bare [Buffer]. *)
Definition varint_value (x : option Z) : option (list Z) :=
  match x with
  | None => None
  | Some i => value_of (toVarint i)
  end.

(** The CELT/Speex frame section: every frame is pushed as a length byte
    with the continuation bit and the frame itself, the end marker as the
    byte 0 and an empty buffer; the buffer two places from the end then
    has the continuation bit of its first byte cleared. *)
Definition clear_continuation (header : list Z) : list Z :=
  match header with
  | b0 :: r => u8 (b0 .& 0x7F) :: r
  | [] => []
  end.

Definition celt_voiceData (fs : list (list Z)) (e : bool) : list Z :=
  let voiceData :=
    flat_map (fun frame => [mkBuffer [Z.of_nat (length frame) .| 0x80]; frame]) fs in
  let voiceData := if e then voiceData ++ [mkBuffer [0]; mkBuffer []] else voiceData in
  let voiceData := alter clear_continuation (length voiceData - 2)%nat voiceData in
  concat voiceData.

Definition codecId_of (c : Codec) : Z :=
  match c with
  | Opus => 4
  | CELT_Alpha => 0
  | Speex => 2
  | CELT_Beta => 3
  end.

(** The codec-dependent part of the encoder: the voice section, or the
    way the call ends early. *)
Definition encode_voiceData (v : VoiceData) : enc_result :=
  match codec v with
  | Opus =>
    if (1 <? Z.of_nat (length (frames v))) then
      CallbackError "Opus only supports a single frame per packet"
    else
      let endBit := if end_ v then 0x2000 else 0 in
      match frames v with
      | [] =>
        match value_of (toVarint endBit) with
        | Some value => Pushed value
        | None => Escaped
        end
      | frame0 :: _ =>
        match toVarint (Z.of_nat (length frame0) .| endBit) with
        | Obj value _ => Pushed (value ++ frame0)
        | _ => Escaped
        end
      end
  | _ =>
    if (Z.of_nat (length (frames v)) =? 0) && negb (end_ v) then
      CallbackError "No frames given but end bit is not set"
    else if existsb (fun frame => 127 <? Z.of_nat (length frame)) (frames v) then
      CallbackError "Frame size is greater than 127 bytes"
    else Pushed (celt_voiceData (frames v) (end_ v))
  end.

(** What [buffer.writeUInt8] and [buffer.writeFloatBE] return.  Node, and
    the [buffer] package that stands for it in a browser, document the
    result as the offset plus the number of bytes written ([EndOffset]);
    the encoder adds the result to [offset], which advances it by the
    bytes written only if the result is their number ([BytesWritten]), or
    if [offset] is 0.  The library is not part of the sources, so the
    convention is a parameter of the encoder. *)
Inductive write_return := EndOffset | BytesWritten.

Section Encoder.

Variable conv : write_return.

(** [new Buffer(size)]: [size] bytes of unspecified content. *)
Variable alloc : nat -> list Z.

Definition returned (offset bytes : Z) : Z :=
  match conv with
  | EndOffset => offset + bytes
  | BytesWritten => bytes
  end.

(** The locals [buffer] and [offset] of [_transform]. *)
Record cursor := { buffer : list Z; offset : Z }.

(** [offset += buffer.writeUInt8(value, offset)]; [None] stands for the
    error thrown on a value outside [0, 255] or a place outside the buffer. *)
Definition writeUInt8 (value : Z) (c : cursor) : option cursor :=
  if (0 <=? value) && (value <=? 255) &&
     (offset c + 1 <=? Z.of_nat (length (buffer c))) then
    Some {| buffer := <[Z.to_nat (offset c) := value]> (buffer c);
            offset := offset c + returned (offset c) 1 |}
  else None.

(** [offset += source.copy(buffer, offset)]: [copy] returns the number of
    bytes copied. *)
Definition copy_at (source : list Z) (c : cursor) : cursor :=
  let '(buffer, n) := copy source (buffer c) (Z.to_nat (offset c)) 0 (length source) in
  {| buffer := buffer; offset := offset c + Z.of_nat n |}.

(** [offset += buffer.writeFloatBE(value, offset)]; [None] stands for the
    [RangeError] thrown when the four bytes do not fit. *)
Definition writeFloatBE (bits : Z) (c : cursor) : option cursor :=
  if offset c + 4 <=? Z.of_nat (length (buffer c)) then
    Some {| buffer := (copy (float_bytes bits) (buffer c) (Z.to_nat (offset c)) 0 4).1;
            offset := offset c + returned (offset c) 4 |}
  else None.

(** [buffer.slice(0, offset)], the end clamped to the length. *)
Definition trimmed (c : cursor) : list Z := slice (buffer c) 0 (Z.to_nat (offset c)).

Definition write_position (p : option Position) (c : cursor) : option cursor :=
  match p with
  | Some p =>
    c ← writeFloatBE (px p) c;
    c ← writeFloatBE (py p) c;
    writeFloatBE (pz p) c
  | None => Some c
  end.

(** The statements of [_transform] that fill the buffer, from the header
    byte on; [None] when one of them throws. *)
Definition fill_voice (dest : side) (v : VoiceData) (voiceData : list Z) : option cursor :=
  let c := {| buffer := alloc (1 + 9 + 9 + length voiceData + 3 * 4); offset := 0 |} in
  c ← writeUInt8 ((codecId_of (codec v) << 5) .| mode v) c;
  c ← match dest with
      | client => value ← varint_value (source v); Some (copy_at value c)
      | server => Some c
      end;
  value ← varint_value (Some (seqNum v));
  let c := copy_at value c in
  let c := copy_at voiceData c in
  write_position (position v) c.

Definition fill_ping (timestamp : Z) : option cursor :=
  let c := {| buffer := alloc (1 + 9); offset := 0 |} in
  c ← writeUInt8 0x20 c;
  value ← value_of (toVarint timestamp);
  Some (copy_at value c).

(** [Encoder.prototype._transform], for an encoder built with [dest]. *)
Definition Encoder_transform (dest : side) (chunk : chunk_in) : enc_result :=
  match chunk with
  | PingData timestamp =>
    match fill_ping timestamp with
    | Some c => Pushed (trimmed c)
    | None => Escaped
    end
  | Voice v =>
    match encode_voiceData v with
    | Pushed voiceData =>
      match fill_voice dest v voiceData with
      | Some c => Pushed (trimmed c)
      | None => Escaped
      end
    | r => r
    end
  end.

End Encoder.

(** *** The decoder *)

(** A decoded packet: a ping, or a voice packet with its [target]. *)
Record VoicePacket := {
  target : string;
  psource : option Z;
  pseqNum : Z;
  pend : bool;
  pframes : list (list Z);
  pcodec : string;
  pposition : option Position
}.

Inductive packet :=
| Ping (timestamp : Z)
| VoiceP (p : VoicePacket).

(** Events the decoder emits on itself. *)
Inductive event :=
| Debug (msg reason : string) (chunk : list Z)
| Unknown_codec (codecId : Z).

(** Errors caught by the [try] block and passed to the callback. *)
Inductive exn :=
| ReferenceError (name : string).

(** The argument of the callback: nothing, a packet, or an error. *)
Inductive callback :=
| CbNone
| CbData (p : packet)
| CbError (e : exn).

Record dec_result := { events : list event; cb : callback }.

Definition reject (chunk : list Z) (reason : string) : dec_result :=
  {| events := [Debug "Failed to parse voice packet" reason chunk]; cb := CbNone |}.

Definition target_of (t : Z) : string :=
  if t =? 0 then "normal"
  else if t =? 1 then "shout"
  else if t =? 2 then "whisper"
  else "loopback".

(** Outcome of the frame loop: the frames, the end flag and the offset
    after them, or the reason of the rejection. *)
Inductive frames_result :=
| Frames (fs : list (list Z)) (e : bool) (offset : Z)
| NoFrames (reason : string).

(** The [while (true)] loop of the CELT/Speex branch.  Every turn reads
    one header byte, so [fuel] bounds the turns by the bytes left; the
    loop cannot use more (lemma [celt_loop_fuel]). *)
Fixpoint celt_loop (fuel : nat) (chunk : list Z) (offset : Z)
    (fs : list (list Z)) : option frames_result :=
  match fuel with
  | O => None
  | S fuel =>
    if Z.of_nat (length chunk) <? offset + 1 then
      Some (NoFrames "missing frame header")
    else
      let header := at0 chunk (Z.to_nat offset) in
      let offset := offset + 1 in
      if header =? 0 then Some (Frames fs true offset)
      else
        let more := 0 <? (header .& 0x80) in
        let frameLength := header .& 0x7F in
        if Z.of_nat (length chunk) <? offset + frameLength then
          Some (NoFrames "not enough voice data")
        else
          let fs := fs ++ [slice chunk (Z.to_nat offset) (Z.to_nat (offset + frameLength))] in
          let offset := offset + frameLength in
          if negb more then Some (Frames fs false offset)
          else celt_loop fuel chunk offset fs
  end.

(** [codecId == 0 || codecIf == 2 || codecId == 3]: the identifier
    [codecIf] is declared nowhere, so evaluating the second operand
    throws a [ReferenceError]; the first operand short-circuits it
    exactly when [codecId] is 0. *)
Definition celt_test (codecId : Z) : exn + bool :=
  if codecId =? 0 then inr true else inl (ReferenceError "codecIf").

Definition codec_name (codecId : Z) : string :=
  if codecId =? 0 then "CELT_Alpha"
  else if codecId =? 2 then "Speex"
  else if codecId =? 3 then "CELT_Beta"
  else "".

Definition decode_position (chunk : list Z) (offset : Z) : option Position :=
  if offset + 12 <? Z.of_nat (length chunk) then
    Some {| px := readFloatBE chunk offset;
            py := readFloatBE chunk (offset + 4);
            pz := readFloatBE chunk (offset + 8) |}
  else None.

(** The part of the voice branch after the sequence number. *)
Definition decode_frames (chunk : list Z) (codecId offset : Z)
    (tgt : string) (src : option Z) (seq : Z) : dec_result :=
  let finish c fs e offset :=
    {| events := [];
       cb := CbData (VoiceP {| target := tgt; psource := src; pseqNum := seq;
                               pend := e; pframes := fs; pcodec := c;
                               pposition := decode_position chunk offset |}) |} in
  if codecId =? 4 then
    match fromVarint (slice_from chunk (Z.to_nat offset)) with
    | None => reject chunk "invalid voice length"
    | Some (value, len) =>
      let e := 0 <? (value .& 0x2000) in
      let value := value .& 0x1fff in
      let offset := offset + len in
      if Z.of_nat (length chunk) <? offset + value then
        reject chunk "not enough voice data"
      else
        let voice := slice chunk (Z.to_nat offset) (Z.to_nat (offset + value)) in
        let offset := offset + value in
        finish "Opus" (if (length voice =? 0)%nat then [] else [voice]) e offset
    end
  else
    match celt_test codecId with
    | inl e => {| events := []; cb := CbError e |}
    | inr true =>
      match celt_loop (S (length chunk)) chunk offset [] with
      | Some (Frames fs e offset) => finish (codec_name codecId) fs e offset
      | Some (NoFrames reason) => reject chunk reason
      | None => reject chunk "missing frame header"
      end
    | inr false =>
      let r := reject chunk ("unknown codec " +:+ pretty codecId) in
      {| events := Unknown_codec codecId :: events r; cb := cb r |}
    end.

(** [Decoder.prototype._transform], for a decoder built with [orig]. *)
Definition Decoder_transform (orig : side) (chunk : list Z) : dec_result :=
  if (length chunk =? 0)%nat then reject chunk "empty"
  else
    let codecId := at0 chunk 0 >> 5 in
    if codecId =? 1 then
      match fromVarint (slice_from chunk 1) with
      | None => reject chunk "invalid timestamp"
      | Some (value, _) => {| events := []; cb := CbData (Ping value) |}
      end
    else
      let tgt := target_of (at0 chunk 0 .& 0x1f) in
      let offset := 1 in
      let parsed_source :=
        match orig with
        | server =>
          match fromVarint (slice_from chunk (Z.to_nat offset)) with
          | None => None
          | Some (value, len) => Some (Some value, offset + len)
          end
        | client => Some (None, offset)
        end in
      match parsed_source with
      | None => reject chunk "invalid source"
      | Some (src, offset) =>
        match fromVarint (slice_from chunk (Z.to_nat offset)) with
        | None => reject chunk "invalid sequence number"
        | Some (seq, len) =>
          decode_frames chunk codecId (offset + len) tgt src seq
        end
      end.

(** *** The continuation-bit loop as the protocol describes it

    On the bytes that follow the sequence number: read a header byte [h];
    if [h] is 0 the packet ends the transmission, stop; otherwise the next
    [h & 0x7F] bytes are a frame; if [h & 0x80] is 0 stop, the transmission
    goes on; otherwise continue.  The result is the frames, the end flag and
    the bytes left over, or [Malformed] when the bytes run out. *)
Inductive framing :=
| Framed (fs : list (list Z)) (e : bool) (rest : list Z)
| Malformed.

Fixpoint continuation_loop (fuel : nat) (bytes : list Z) (fs : list (list Z))
    : option framing :=
  match fuel with
  | O => None
  | S fuel =>
    match bytes with
    | [] => Some Malformed
    | h :: bytes =>
      if h =? 0 then Some (Framed fs true bytes)
      else
        let n := Z.to_nat (h .& 0x7F) in
        if (length bytes <? n)%nat then Some Malformed
        else
          let fs := fs ++ [take n bytes] in
          if (h .& 0x80) =? 0 then Some (Framed fs false (drop n bytes))
          else continuation_loop fuel (drop n bytes) fs
    end
  end.

(** *** What the round trip is measured against *)

(** A direction of travel fixes both constructor arguments: packets for
    the server come from a client, and the other way round. *)
Inductive direction := to_server | to_client.

Definition dest_of (d : direction) : side :=
  match d with to_server => server | to_client => client end.

Definition orig_of (d : direction) : side :=
  match d with to_server => client | to_client => server end.

Definition codec_string (c : Codec) : string :=
  match c with
  | Opus => "Opus"
  | CELT_Alpha => "CELT_Alpha"
  | CELT_Beta => "CELT_Beta"
  | Speex => "Speex"
  end.

(** The packet [v] read back: the mode becomes its target string, the
    source is present exactly on packets sent to a client. *)
Definition normalised (d : direction) (v : VoiceData) : VoicePacket :=
  {| target := target_of (mode v);
     psource := match d with to_client => source v | to_server => None end;
     pseqNum := seqNum v;
     pend := end_ v;
     pframes := frames v;
     pcodec := codec_string (codec v);
     pposition := position v |}.

(** Encoding for direction [d], then decoding what was pushed; [None] when
    the encoder pushes nothing. *)
Definition round_trip (conv : write_return) (d : direction) (v : VoiceData)
    : option dec_result :=
  match Encoder_transform conv zeroed (dest_of d) (Voice v) with
  | Pushed buffer => Some (Decoder_transform (orig_of d) buffer)
  | _ => None
  end.

Definition delivered (p : VoicePacket) : dec_result :=
  {| events := []; cb := CbData (VoiceP p) |}.

End Voice.

(** ** Control channel ([lib/data.js], [Decoder]) *)

Module Control.
Import JS.

Definition nameById : gmap Z string :=
  list_to_map
    [ (0, "Version"); (1, "UDPTunnel"); (2, "Authenticate"); (3, "Ping");
      (4, "Reject"); (5, "ServerSync"); (6, "ChannelRemove");
      (7, "ChannelState"); (8, "UserRemove"); (9, "UserState");
      (10, "BanList"); (11, "TextMessage"); (12, "PermissionDenied");
      (13, "ACL"); (14, "QueryUsers"); (15, "CryptSetup");
      (16, "ContextActionModify"); (17, "ContextAction"); (18, "UserList");
      (19, "VoiceTarget"); (20, "PermissionQuery"); (21, "CodecVersion");
      (22, "UserStats"); (23, "RequestBlob"); (24, "ServerConfig");
      (25, "SuggestConfig") ]%string.

(** [for (var id in nameById) idByName[nameById[id]] = id].  The loop
    variable is a property key, a string of digits; the header write of
    the encoder converts it to the number it spells, and that number is
    what the map holds here. *)
Definition idByName : gmap string Z :=
  map_fold (fun id name idByName => <[name := id]> idByName) ∅ nameById.

Definition readUInt16BE (b : list Z) (offset : nat) : Z :=
  at0 b offset * 2 ^ 8 + at0 b (offset + 1)%nat.

Definition readUInt32BE (b : list Z) (offset : nat) : Z :=
  at0 b offset * 2 ^ 24 + at0 b (offset + 1)%nat * 2 ^ 16 +
  at0 b (offset + 2)%nat * 2 ^ 8 + at0 b (offset + 3)%nat.

Section Decoder.

(** The records built by the protocol-buffer classes of [Mumble.proto],
    and their [decode]; [None] stands for a thrown exception.  Both come
    from [protobufjs] and the schema file, outside the library. *)
Variable Msg : Type.
Variable protoDecode : string -> list Z -> option Msg.

(** [new Buffer(size)]: a buffer of [size] bytes of unspecified content. *)
Variable alloc : nat -> list Z.

(** The payload of a pushed message: the copied bytes of a [UDPTunnel]
    frame, or a decoded record. *)
Inductive payload :=
| Tunnel (data : list Z)
| Decoded (m : Msg).

Record message := { name : string; mpayload : payload }.

(** [decode(id, payload)]: an id without a name makes it throw. *)
Definition decode (id : Z) (data : list Z) : option Msg :=
  match nameById !! id with
  | Some name => protoDecode name data
  | None => None
  end.

Record Decoder := { _buffer : list Z; _bufferSize : nat }.

(** The state set up by the constructor. *)
Definition new_Decoder : Decoder :=
  {| _buffer := alloc 1024; _bufferSize := 0 |}.

(** The first statements of [_transform]: make room, append the chunk. *)
Definition append (d : Decoder) (chunk : list Z) : Decoder :=
  let buffer :=
    if (length (_buffer d) - _bufferSize d <? length chunk)%nat then
      let oldBuffer := _buffer d in
      fst (copy oldBuffer (alloc (_bufferSize d + length chunk)%nat) 0 0 (_bufferSize d))
    else _buffer d in
  let '(buffer, n) := copy chunk buffer (_bufferSize d) 0 (length chunk) in
  {| _buffer := buffer; _bufferSize := (_bufferSize d + n)%nat |}.

(** How a call of [_transform] ends: the new state, the messages
    pushed, and the error given to the callback, if any. *)
Record outcome := { state : Decoder; pushed : list message; error : bool }.

(** The [while (this._bufferSize >= 6)] loop.  A turn that does not
    leave the loop removes at least 6 buffered bytes, so [fuel] turns
    are enough when [fuel] exceeds [_bufferSize] (lemma [drain_fuel]). *)
Fixpoint drain (fuel : nat) (d : Decoder) (acc : list message) : option outcome :=
  match fuel with
  | O => None
  | S fuel =>
    if (6 <=? _bufferSize d)%nat then
      let type := readUInt16BE (_buffer d) 0 in
      let size := readUInt32BE (_buffer d) 2 in
      if Z.of_nat (_bufferSize d) <? 6 + size then
        Some {| state := d; pushed := acc; error := false |}
      else
        let typeName := nameById !! type in
        let data := slice (_buffer d) 6 (Z.to_nat (6 + size)) in
        let message :=
          if decide (typeName = Some "UDPTunnel"%string) then Some (Tunnel data)
          else Decoded <$> decode type data in
        match message, typeName with
        | Some message, Some typeName =>
          let d :=
            {| _buffer := fst (copy (_buffer d) (_buffer d) 0
                                 (Z.to_nat (6 + size)) (_bufferSize d));
               _bufferSize := (_bufferSize d - Z.to_nat (6 + size))%nat |} in
          drain fuel d (acc ++ [ {| name := typeName; mpayload := message |} ])
        | _, _ => Some {| state := d; pushed := acc; error := true |}
        end
    else Some {| state := d; pushed := acc; error := false |}
  end.

(** [Decoder.prototype._transform]. *)
Definition transform (d : Decoder) (chunk : list Z) : option outcome :=
  let d := append d chunk in
  drain (S (_bufferSize d)) d [].

(** A decoder fed a sequence of chunks: the messages pushed for each
    chunk, up to the first error. *)
Fixpoint feed (d : Decoder) (chunks : list (list Z))
    : option (Decoder * list (list message) * bool) :=
  match chunks with
  | [] => Some (d, [], false)
  | chunk :: chunks =>
    match transform d chunk with
    | None => None
    | Some o =>
      if error o then Some (state o, [pushed o], true)
      else
        match feed (state o) chunks with
        | None => None
        | Some (d', outs, e) => Some (d', pushed o :: outs, e)
        end
    end
  end.

(** *** Frames on the wire *)

Record frame := { ftype : Z; fdata : list Z }.

(** The 6-byte header and the payload, as the encoder lays them out. *)
Definition wire (f : frame) : list Z :=
  let n := Z.of_nat (length (fdata f)) in
  [ ftype f / 2 ^ 8; ftype f mod 2 ^ 8;
    n / 2 ^ 24; (n / 2 ^ 16) mod 2 ^ 8; (n / 2 ^ 8) mod 2 ^ 8; n mod 2 ^ 8 ]
  ++ fdata f.

(** The message a frame stands for, when its type has a name and its
    payload decodes. *)
Definition message_of (f : frame) : option message :=
  match nameById !! ftype f with
  | None => None
  | Some typeName =>
    let payload :=
      if decide (typeName = "UDPTunnel"%string) then Some (Tunnel (fdata f))
      else Decoded <$> protoDecode typeName (fdata f) in
    match payload with
    | Some payload => Some {| name := typeName; mpayload := payload |}
    | None => None
    end
  end.

Definition well_formed (f : frame) : Prop :=
  Z.of_nat (length (fdata f)) < 2 ^ 32 /\ is_Some (message_of f).

(** The number of leading frames of [fs] that lie entirely within the
    first [n] bytes of their concatenation. *)
Fixpoint complete (fs : list frame) (n : nat) : nat :=
  match fs with
  | [] => O
  | f :: fs =>
    if (length (wire f) <=? n)%nat
    then S (complete fs (n - length (wire f)))
    else O
  end.

(** The bytes a decoder holds: the first [_bufferSize] bytes of its
    buffer; and the relation between the two fields that makes them so. *)
Definition buffered (d : Decoder) : list Z := take (_bufferSize d) (_buffer d).

Definition sound (d : Decoder) : Prop := (_bufferSize d <= length (_buffer d))%nat.

(** Bytes on which the loop stops: no whole header, or a header that
    announces more than there is. *)
Definition incomplete (bytes : list Z) : Prop :=
  (length bytes < 6)%nat \/ Z.of_nat (length bytes) < 6 + readUInt32BE bytes 2.

End Decoder.

(** *** The encoder *)

(** [b.writeUInt16BE(value, offset)] and [b.writeUInt32BE(value, offset)]
    for a value in range and a place inside the buffer. *)
Definition writeUInt16BE (b : list Z) (value : Z) (offset : nat) : list Z :=
  <[(offset + 1)%nat := value mod 2 ^ 8]> (<[offset := value / 2 ^ 8]> b).

Definition writeUInt32BE (b : list Z) (value : Z) (offset : nat) : list Z :=
  <[(offset + 3)%nat := value mod 2 ^ 8]>
    (<[(offset + 2)%nat := (value / 2 ^ 8) mod 2 ^ 8]>
       (<[(offset + 1)%nat := (value / 2 ^ 16) mod 2 ^ 8]>
          (<[offset := value / 2 ^ 24]> b))).

Section Encoder.

(** The objects of fields that the schema classes are built from, with
    the empty one, [{}]. *)
Variable Fields : Type.
Variable no_fields : Fields.

(** [chunk.payload]: a [Buffer] or an object of fields. *)
Inductive payload_in :=
| Buf (data : list Z)
| Object (o : Fields).

(** [encode(name, payload)], which builds [new messages[name](payload)]
    and serialises it; [None] stands for a thrown exception: no class of
    that name, or a payload that the class refuses. *)
Variable protoEncode : string -> payload_in -> option (list Z).

(** What [writeUInt16BE] stores when it is handed [undefined], the value
    of [idByName[chunk.name]] for a name the map does not hold; [None] if
    it throws.  The buffer library decides. *)
Variable id_of_undefined : option Z.

(** [new Buffer(size)]: [size] bytes of unspecified content. *)
Variable alloc : nat -> list Z.

(** A chunk written to the encoder: [cname] is [None] when [chunk.name]
    is not a string, [cpayload] is [None] when [chunk.payload] is missing. *)
Record chunk := { cname : option string; cpayload : option payload_in }.

Inductive enc_error := NameNotString | EncodeThrew.

(** How [Encoder.prototype._transform] ends: [callback(null, buffer)],
    [callback(error)], or an exception that escapes it. *)
Inductive enc_outcome :=
| Encoded (bytes : list Z)
| Refused (e : enc_error)
| Uncaught.

(** [Encoder.prototype._transform].  A [UDPTunnel] payload that is not a
    [Buffer] has no [length] and makes [Buffer.concat] throw; a length of
    [2^32] or more makes [writeUInt32BE] throw. *)
Definition Encoder_transform (c : chunk) : enc_outcome :=
  match cname c with
  | None => Refused NameNotString
  | Some name =>
    let payload := default (Object no_fields) (cpayload c) in
    let data :=
      if decide (name = "UDPTunnel"%string) then Some payload
      else Buf <$> protoEncode name payload in
    match data with
    | None => Refused EncodeThrew
    | Some (Object _) => Uncaught
    | Some (Buf data) =>
      let id :=
        match idByName !! name with
        | Some id => Some id
        | None => id_of_undefined
        end in
      match id with
      | None => Uncaught
      | Some id =>
        if 2 ^ 32 <=? Z.of_nat (length data) then Uncaught
        else
          let header := alloc 6 in
          let header := writeUInt16BE header id 0 in
          let header := writeUInt32BE header (Z.of_nat (length data)) 2 in
          Encoded (header ++ data)
      end
    end
  end.

(** The bytes an encoder puts on the stream for a sequence of chunks;
    [None] as soon as one of them is not encoded. *)
Fixpoint encode_all (cs : list chunk) : option (list (list Z)) :=
  match cs with
  | [] => Some []
  | c :: cs =>
    match Encoder_transform c with
    | Encoded bytes => (bytes ::.) <$> encode_all cs
    | _ => None
    end
  end.

End Encoder.

(** *** What the round trip is measured against *)

Section Arrival.

Variable Fields Msg : Type.
Variable no_fields : Fields.

(** The record that a schema class decodes from the bytes it encoded for
    a payload. *)
Variable decoded_of : string -> payload_in Fields -> Msg.

(** The message that a chunk written to the encoder should arrive as:
    the bytes of a [UDPTunnel] payload as they are, any other payload as
    the record of its class. *)
Definition arrives (c : chunk Fields) : option (message Msg) :=
  match cname Fields c with
  | None => None
  | Some name =>
    let payload := default (Object Fields no_fields) (cpayload Fields c) in
    if decide (name = "UDPTunnel"%string) then
      match payload with
      | Buf _ data => Some {| name := name; mpayload := Tunnel Msg data |}
      | Object _ _ => None
      end
    else Some {| name := name; mpayload := Decoded Msg (decoded_of name payload) |}
  end.

End Arrival.

(** A stand-in for the schema classes: a record is its own bytes. *)
Definition raw_decode (typeName : string) (data : list Z) : option (list Z) :=
  Some data.

(** Its counterpart on the way out: a payload is encoded as its own
    bytes, and an object of fields as no bytes. *)
Definition raw_encode (typeName : string) (payload : payload_in (list Z))
    : option (list Z) :=
  match payload with
  | Buf _ data => Some data
  | Object _ _ => Some []
  end.

Definition raw_decoded_of (typeName : string) (payload : payload_in (list Z)) : list Z :=
  default [] (raw_encode typeName payload).

End Control.

(** ** UDP crypto ([lib/udp-crypto.js], [UdpCrypt] and OCB2) *)

Module Crypt.
Import JS.

Definition BLOCK_SIZE : nat := 16.

(** [for (var i = 0; i < BLOCK_SIZE; i++) dst[i] = a[i] ^ b[i]]. *)
Definition XOR (dst a b : list Z) : list Z :=
  foldl (fun dst i => <[i := u8 (at0 a i .^ at0 b i)]> dst) dst (seq 0 BLOCK_SIZE).

Definition S2 (block : list Z) : list Z :=
  let carry := at0 block 0 >> 7 in
  let block :=
    foldl (fun block i =>
             <[i := u8 (at0 block i << 1 .| at0 block (i + 1) >> 7)]> block)
          block (seq 0 (BLOCK_SIZE - 1)) in
  <[(BLOCK_SIZE - 1)%nat :=
      u8 (at0 block (BLOCK_SIZE - 1) << 1 .^ (carry * 0x87))]> block.

Definition S3 (block : list Z) : list Z :=
  let carry := at0 block 0 >> 7 in
  let block :=
    foldl (fun block i =>
             <[i := u8 (at0 block i .^ (at0 block i << 1 .| at0 block (i + 1) >> 7))]> block)
          block (seq 0 (BLOCK_SIZE - 1)) in
  <[(BLOCK_SIZE - 1)%nat :=
      u8 (at0 block (BLOCK_SIZE - 1) .^
            (at0 block (BLOCK_SIZE - 1) << 1 .^ (carry * 0x87)))]> block.

(** [block.fill(0, 0, BLOCK_SIZE)]. *)
Definition ZERO (block : list Z) : list Z :=
  replicate (Nat.min BLOCK_SIZE (length block)) 0 ++ drop BLOCK_SIZE block.

Section Ocb.

(** [cipher.update] of an ['AES-128-ECB'] cipher without padding, and
    of the matching decipher: the block functions of AES under one key. *)
Variable aesEncrypt aesDecrypt : list Z -> list Z.

(** [new Buffer(size)]: [size] bytes of unspecified content. *)
Variable alloc : nat -> list Z.

(** The [while (len > BLOCK_SIZE)] loop of [ocbEncrypt].  [plainText] and
    [cipherText] are the views that the loop advances; the bytes written
    through the successive views of [cipherText] are returned in order,
    followed by the view the loop ends with.  A turn takes 16 from [len],
    so [len] turns are enough. *)
Fixpoint encrypt_blocks (fuel len : nat) (delta checksum tmp plainText cipherText : list Z)
    : list Z * (nat * list Z * list Z * list Z * list Z * list Z) :=
  match fuel with
  | O => ([], (len, delta, checksum, tmp, plainText, cipherText))
  | S fuel =>
    if (BLOCK_SIZE <? len)%nat then
      let delta := S2 delta in
      let tmp := XOR tmp delta plainText in
      let tmp := aesEncrypt tmp in
      let cipherText := XOR cipherText delta tmp in
      let checksum := XOR checksum checksum plainText in
      let len := (len - BLOCK_SIZE)%nat in
      let '(written, st) :=
        encrypt_blocks fuel len delta checksum tmp
          (slice_from plainText BLOCK_SIZE) (slice_from cipherText BLOCK_SIZE) in
      (take BLOCK_SIZE cipherText ++ written, st)
    else ([], (len, delta, checksum, tmp, plainText, cipherText))
  end.

(** [ocbEncrypt(plainText, cipherText, nonce, aesEncrypt)]: the content
    of [cipherText] after the call, and the tag returned. *)
Definition ocbEncrypt (plainText cipherText nonce : list Z) : list Z * list Z :=
  let checksum := alloc BLOCK_SIZE in
  let tmp := alloc BLOCK_SIZE in
  let delta := aesEncrypt nonce in
  let checksum := ZERO checksum in
  let len := length plainText in
  let '(written, (len, delta, checksum, tmp, plainText, cipherText)) :=
    encrypt_blocks len len delta checksum tmp plainText cipherText in
  let delta := S2 delta in
  let tmp := ZERO tmp in
  let tmp := <[(BLOCK_SIZE - 1)%nat := u8 (Z.of_nat len * 8)]> tmp in
  let tmp := XOR tmp tmp delta in
  let pad := aesEncrypt tmp in
  let tmp := fst (copy plainText tmp 0 0 len) in
  let tmp := fst (copy pad tmp len len BLOCK_SIZE) in
  let checksum := XOR checksum checksum tmp in
  let tmp := XOR tmp pad tmp in
  let cipherText := fst (copy tmp cipherText 0 0 len) in
  let delta := S3 delta in
  let tmp := XOR tmp delta checksum in
  let tag := aesEncrypt tmp in
  (written ++ cipherText, tag).

(** The loop of [ocbDecrypt]; here the views of [plainText] are written. *)
Fixpoint decrypt_blocks (fuel len : nat) (delta checksum tmp cipherText plainText : list Z)
    : list Z * (nat * list Z * list Z * list Z * list Z * list Z) :=
  match fuel with
  | O => ([], (len, delta, checksum, tmp, cipherText, plainText))
  | S fuel =>
    if (BLOCK_SIZE <? len)%nat then
      let delta := S2 delta in
      let tmp := XOR tmp delta cipherText in
      let tmp := aesDecrypt tmp in
      let plainText := XOR plainText delta tmp in
      let checksum := XOR checksum checksum plainText in
      let len := (len - BLOCK_SIZE)%nat in
      let '(written, st) :=
        decrypt_blocks fuel len delta checksum tmp
          (slice_from cipherText BLOCK_SIZE) (slice_from plainText BLOCK_SIZE) in
      (take BLOCK_SIZE plainText ++ written, st)
    else ([], (len, delta, checksum, tmp, cipherText, plainText))
  end.

(** [ocbDecrypt(cipherText, plainText, nonce, aesEncrypt, aesDecrypt)]:
    the content of [plainText] after the call, and the tag returned. *)
Definition ocbDecrypt (cipherText plainText nonce : list Z) : list Z * list Z :=
  let checksum := alloc BLOCK_SIZE in
  let tmp := alloc BLOCK_SIZE in
  let delta := aesEncrypt nonce in
  let checksum := ZERO checksum in
  let len := length plainText in
  let '(written, (len, delta, checksum, tmp, cipherText, plainText)) :=
    decrypt_blocks len len delta checksum tmp cipherText plainText in
  let delta := S2 delta in
  let tmp := ZERO tmp in
  let tmp := <[(BLOCK_SIZE - 1)%nat := u8 (Z.of_nat len * 8)]> tmp in
  let tmp := XOR tmp tmp delta in
  let pad := aesEncrypt tmp in
  let tmp := ZERO tmp in
  let tmp := fst (copy cipherText tmp 0 0 len) in
  let tmp := XOR tmp tmp pad in
  let checksum := XOR checksum checksum tmp in
  let plainText := fst (copy tmp plainText 0 0 len) in
  let delta := S3 delta in
  let tmp := XOR tmp delta checksum in
  let tag := aesEncrypt tmp in
  (written ++ plainText, tag).

End Ocb.

(** The counters of the [stats] object handed to the constructor. *)
Record Stats := { good : Z; late : Z; lost : Z }.

(** A [UdpCrypt] on which the key and both IVs have been set. The
    history is the sparse array [_decryptHistory]: a slot never written
    reads as [undefined]. *)
Record UdpCrypt := {
  _key : list Z;
  _decryptIV : list Z;
  _encryptIV : list Z;
  _decryptHistory : gmap Z Z;
  _stats : Stats
}.

(** What the three setters check, and what a [Buffer] holds. *)
Definition is_block (b : list Z) : Prop :=
  length b = BLOCK_SIZE /\ Forall is_byte b.

Definition ready (c : UdpCrypt) : Prop :=
  is_block (_key c) /\ is_block (_decryptIV c) /\ is_block (_encryptIV c).

(** [for (; i < BLOCK_SIZE; i++) if (++iv[i] == 256) iv[i] = 0; else break;]
    of [encrypt], run for the [n] indices from [i] on. *)
Fixpoint increment (n i : nat) (iv : list Z) : list Z :=
  match n with
  | O => iv
  | S n =>
    let v := at0 iv i + 1 in
    let iv := <[i := u8 v]> iv in
    if v =? 256 then increment n (S i) (<[i := u8 0]> iv) else iv
  end.

(** The same loop as [decrypt] has it, twice: the byte reset after a
    carry is written to [_encryptIV]. *)
Fixpoint carry (n i : nat) (decryptIV encryptIV : list Z) : list Z * list Z :=
  match n with
  | O => (decryptIV, encryptIV)
  | S n =>
    let v := at0 decryptIV i + 1 in
    let decryptIV := <[i := u8 v]> decryptIV in
    if v =? 256 then carry n (S i) decryptIV (<[i := u8 0]> encryptIV)
    else (decryptIV, encryptIV)
  end.

(** [for (i = 0; i < BLOCK_SIZE; i++)
      if (this._decryptIV[i]-- == -1) this._decryptIV[i] = 255; else break;]
    The postfix decrement yields the byte read and stores it less one. *)
Fixpoint borrow (n i : nat) (decryptIV : list Z) : list Z :=
  match n with
  | O => decryptIV
  | S n =>
    let old := at0 decryptIV i in
    let decryptIV := <[i := u8 (old - 1)]> decryptIV in
    if old =? -1 then borrow n (S i) (<[i := u8 255]> decryptIV)
    else decryptIV
  end.

(** The nonce synchronisation at the head of [decrypt]: either the call
    returns [null] there, or it goes on to OCB2 with the fields below. *)
Record synced := {
  s_decryptIV : list Z;
  s_encryptIV : list Z;
  restore : bool;
  s_late : Z;
  s_lost : Z
}.

Inductive sync_result :=
| Null (decryptIV encryptIV : list Z)
| Synced (s : synced).

Definition synchronise (c : UdpCrypt) (ivbyte : Z) : sync_result :=
  let saveiv := _decryptIV c in
  let d := _decryptIV c in
  let e := _encryptIV c in
  let d0 := at0 d 0 in
  if ((d0 + 1) .& 0xFF) =? ivbyte then
    if d0 <? ivbyte then
      Synced {| s_decryptIV := <[0%nat := u8 ivbyte]> d; s_encryptIV := e;
                restore := false; s_late := 0; s_lost := 0 |}
    else if ivbyte <? d0 then
      let d := <[0%nat := u8 ivbyte]> d in
      let '(d, e) := carry (BLOCK_SIZE - 1) 1 d e in
      Synced {| s_decryptIV := d; s_encryptIV := e;
                restore := false; s_late := 0; s_lost := 0 |}
    else Null d e
  else
    let diff := ivbyte - d0 in
    let diff := if 128 <? diff then diff - 256
                else if diff <? -128 then diff + 256 else diff in
    let branch :=
      if (ivbyte <? d0) && (-30 <? diff) && (diff <? 0) then
        Some {| s_decryptIV := <[0%nat := u8 ivbyte]> d; s_encryptIV := e;
                restore := true; s_late := 1; s_lost := -1 |}
      else if (d0 <? ivbyte) && (-30 <? diff) && (diff <? 0) then
        let d := <[0%nat := u8 ivbyte]> d in
        Some {| s_decryptIV := borrow BLOCK_SIZE 0 d; s_encryptIV := e;
                restore := true; s_late := 1; s_lost := -1 |}
      else if (d0 <? ivbyte) && (0 <? diff) then
        Some {| s_decryptIV := <[0%nat := u8 ivbyte]> d; s_encryptIV := e;
                restore := false; s_late := 0; s_lost := ivbyte - d0 - 1 |}
      else if (ivbyte <? d0) && (0 <? diff) then
        let lost := 256 - d0 + ivbyte - 1 in
        let d := <[0%nat := u8 ivbyte]> d in
        let '(d, e) := carry BLOCK_SIZE 0 d e in
        Some {| s_decryptIV := d; s_encryptIV := e;
                restore := false; s_late := 0; s_lost := lost |}
      else None in
    match branch with
    | None => Null d e
    | Some s =>
      if decide (_decryptHistory c !! at0 (s_decryptIV s) 0 = Some (at0 (s_decryptIV s) 1))
      then Null saveiv (s_encryptIV s)
      else Synced s
    end.

Section UdpCrypt.

(** AES-128 in ECB mode from the [crypto] module, by key. *)
Variable aes aes_inv : list Z -> list Z -> list Z.
Variable alloc : nat -> list Z.

(** [UdpCrypt.prototype.encrypt]: the state after the call and the
    packet returned. *)
Definition encrypt (c : UdpCrypt) (plainText : list Z) : UdpCrypt * list Z :=
  let encryptIV := increment BLOCK_SIZE 0 (_encryptIV c) in
  let cipherText := alloc (length plainText + 4) in
  let '(body, tag) :=
    ocbEncrypt (aes (_key c)) alloc plainText (slice_from cipherText 4) encryptIV in
  let cipherText := take 4 cipherText ++ body in
  let cipherText := <[0%nat := u8 (at0 encryptIV 0)]> cipherText in
  let cipherText := <[1%nat := u8 (at0 tag 0)]> cipherText in
  let cipherText := <[2%nat := u8 (at0 tag 1)]> cipherText in
  let cipherText := <[3%nat := u8 (at0 tag 2)]> cipherText in
  ({| _key := _key c; _decryptIV := _decryptIV c; _encryptIV := encryptIV;
      _decryptHistory := _decryptHistory c; _stats := _stats c |},
   cipherText).

(** [UdpCrypt.prototype.decrypt]: the state after the call and the value
    returned, [None] for [null]. *)
Definition decrypt (c : UdpCrypt) (cipherText : list Z) : UdpCrypt * option (list Z) :=
  if (length cipherText <? 4)%nat then (c, None)
  else
    let saveiv := _decryptIV c in
    let ivbyte := at0 cipherText 0 in
    match synchronise c ivbyte with
    | Null decryptIV encryptIV =>
      ({| _key := _key c; _decryptIV := decryptIV; _encryptIV := encryptIV;
          _decryptHistory := _decryptHistory c; _stats := _stats c |}, None)
    | Synced s =>
      let plainText := alloc (length cipherText - 4) in
      let '(plainText, tag) :=
        ocbDecrypt (aes (_key c)) (aes_inv (_key c)) alloc
          (slice_from cipherText 4) plainText (s_decryptIV s) in
      if decide (slice tag 0 3 = slice cipherText 1 4) then
        let history :=
          <[at0 (s_decryptIV s) 0 := at0 (s_decryptIV s) 1]> (_decryptHistory c) in
        let decryptIV := if restore s then saveiv else s_decryptIV s in
        ({| _key := _key c; _decryptIV := decryptIV; _encryptIV := s_encryptIV s;
            _decryptHistory := history;
            _stats := {| good := good (_stats c) + 1;
                         late := late (_stats c) + s_late s;
                         lost := lost (_stats c) + s_lost s |} |},
         Some plainText)
      else
        ({| _key := _key c; _decryptIV := saveiv; _encryptIV := s_encryptIV s;
            _decryptHistory := _decryptHistory c; _stats := _stats c |}, None)
    end.

(** Calls of [encrypt] one after the other on the same object: the state
    after the last and the packets returned, in order. *)
Fixpoint encrypt_all (c : UdpCrypt) (plainTexts : list (list Z))
    : UdpCrypt * list (list Z) :=
  match plainTexts with
  | [] => (c, [])
  | plainText :: plainTexts =>
    let '(c, packet) := encrypt c plainText in
    let '(c, packets) := encrypt_all c plainTexts in
    (c, packet :: packets)
  end.

(** Calls of [decrypt] one after the other on the same object. *)
Fixpoint decrypt_all (c : UdpCrypt) (packets : list (list Z))
    : UdpCrypt * list (option (list Z)) :=
  match packets with
  | [] => (c, [])
  | packet :: packets =>
    let '(c, plainText) := decrypt c packet in
    let '(c, plainTexts) := decrypt_all c packets in
    (c, plainText :: plainTexts)
  end.

End UdpCrypt.

(** A nonce as the number that [encrypt] counts up: byte 0 is the least
    significant. *)
Fixpoint le_value (iv : list Z) : Z :=
  match iv with
  | [] => 0
  | x :: iv => x + 256 * le_value iv
  end.

(** A block as the number that [S2] shifts: byte 0 is the most
    significant. *)
Definition be_value (block : list Z) : Z :=
  foldl (fun acc x => acc * 256 + x) 0 block.

(** Bytes shifted left by one bit as a whole: each byte takes in the top
    bit of the next, the last takes in 0. *)
Fixpoint shifted (block : list Z) : list Z :=
  match block with
  | [] => []
  | x :: block => (2 * x + at0 block 0 / 128) mod 256 :: shifted block
  end.

(** *** The late-packet nonce as the port's original describes it

    Byte 0 becomes [ivbyte] and one is borrowed from the bytes above: a
    byte that is 0 becomes 255 and the borrow goes on, any other byte is
    decremented and the borrow stops. *)
Fixpoint borrow_above (n i : nat) (iv : list Z) : list Z :=
  match n with
  | O => iv
  | S n =>
    let old := at0 iv i in
    if old =? 0 then borrow_above n (S i) (<[i := 255]> iv)
    else <[i := old - 1]> iv
  end.

Definition late_wraparound_nonce (decryptIV : list Z) (ivbyte : Z) : list Z :=
  borrow_above (BLOCK_SIZE - 1) 1 (<[0%nat := ivbyte]> decryptIV).

(** The 16 bytes that [XOR(dst, a, b)] stores into [dst]. *)
Definition xor_block (a b : list Z) : list Z :=
  map (fun i => u8 (at0 a i .^ at0 b i)) (seq 0 BLOCK_SIZE).

(** The block that holds the bit length of the last, partial block. *)
Definition length_block (len : nat) : list Z :=
  <[(BLOCK_SIZE - 1)%nat := u8 (Z.of_nat len * 8)]> (replicate BLOCK_SIZE 0).

(** *** A stand-in block cipher for examples

    Each byte of the block is XORed with the byte of the key at the same
    place; the function is its own inverse. *)
Definition mask (key block : list Z) : list Z := zip_with Z.lxor block key.

Definition no_stats : Stats := {| good := 0; late := 0; lost := 0 |}.

End Crypt.

(** ** Setting up a [UdpCrypt] ([lib/udp-crypto.js], constructor,
    setters, [ready] and [generateKey]) *)

Module Setup.
Import JS.

(** The three fields of a [UdpCrypt]; the constructor leaves them unset. *)
Record Fields := {
  _key : option (list Z);
  _decryptIV : option (list Z);
  _encryptIV : option (list Z)
}.

Definition new_UdpCrypt : Fields :=
  {| _key := None; _decryptIV := None; _encryptIV := None |}.

(** [ready()] returns [this._key && this._decryptIV && this._encryptIV],
    which is truthy when each of the three holds a buffer. *)
Definition ready (c : Fields) : bool :=
  match _key c, _decryptIV c, _encryptIV c with
  | Some _, Some _, Some _ => true
  | _, _, _ => false
  end.

(** The setters; [None] stands for the [Error] thrown on a buffer that is
    not [BLOCK_SIZE] long. *)
Definition setKey (key : list Z) (c : Fields) : option Fields :=
  if negb (length key =? Crypt.BLOCK_SIZE)%nat then None
  else Some {| _key := Some key; _decryptIV := _decryptIV c; _encryptIV := _encryptIV c |}.

Definition setDecryptIV (decryptIV : list Z) (c : Fields) : option Fields :=
  if negb (length decryptIV =? Crypt.BLOCK_SIZE)%nat then None
  else Some {| _key := _key c; _decryptIV := Some decryptIV; _encryptIV := _encryptIV c |}.

Definition setEncryptIV (encryptIV : list Z) (c : Fields) : option Fields :=
  if negb (length encryptIV =? Crypt.BLOCK_SIZE)%nat then None
  else Some {| _key := _key c; _decryptIV := _decryptIV c; _encryptIV := Some encryptIV |}.

(** What [generateKey(callback)] does once [crypto.randomBytes] has
    answered: the fields, whether each call of [callback] carried an
    error, and whether the handler threw.  On an error the handler calls
    [callback(err)] and goes on to slice [buf], which is [undefined]. *)
Record generated := { fields : Fields; callbacks : list bool; threw : bool }.

Definition generateKey (answer : option (list Z)) (c : Fields) : generated :=
  match answer with
  | None => {| fields := c; callbacks := [true]; threw := true |}
  | Some buf =>
    {| fields :=
         {| _key := Some (slice buf 0 Crypt.BLOCK_SIZE);
            _decryptIV := Some (slice buf Crypt.BLOCK_SIZE (Crypt.BLOCK_SIZE * 2));
            _encryptIV := Some (slice_from buf (Crypt.BLOCK_SIZE * 2)) |};
       callbacks := [false]; threw := false |}
  end.

(** A call on the object, and a sequence of calls: a call that throws
    leaves the fields as they are. *)
Inductive call :=
| SetKey (key : list Z)
| SetDecryptIV (decryptIV : list Z)
| SetEncryptIV (encryptIV : list Z)
| GenerateKey (answer : option (list Z)).

Definition apply_call (c : Fields) (k : call) : Fields :=
  match k with
  | SetKey key => default c (setKey key c)
  | SetDecryptIV decryptIV => default c (setDecryptIV decryptIV c)
  | SetEncryptIV encryptIV => default c (setEncryptIV encryptIV c)
  | GenerateKey answer => fields (generateKey answer c)
  end.

Definition run (calls : list call) : Fields := foldl apply_call new_UdpCrypt calls.

(** [crypto.randomBytes(BLOCK_SIZE * 3, ..)] answers with an error or
    with a buffer of the size asked for. *)
Definition answers_in_size (k : call) : Prop :=
  match k with
  | GenerateKey (Some buf) => length buf = (Crypt.BLOCK_SIZE * 3)%nat
  | _ => True
  end.

(** The buffers handed over by a call hold bytes. *)
Definition holds_bytes (k : call) : Prop :=
  match k with
  | SetKey b | SetDecryptIV b | SetEncryptIV b | GenerateKey (Some b) => Forall is_byte b
  | GenerateKey None => True
  end.

End Setup.

(** ** The protocol version ([index.js]) *)

Module Index.
Import JS.

Record Version := { major : Z; minor : Z; patch : Z }.

(** [version.toUInt8()]. *)
Definition toUInt8 (this : Version) : Z :=
  ((major this .& 0xffff) << 16) .| ((minor this .& 0xff) << 8) .| (patch this .& 0xff).

Definition version : Version := {| major := 1; minor := 2; patch := 16 |}.

End Index.

(** ** Sample inputs *)

Module Samples.
Import JS Voice Crypt.

(** An Opus packet with a position: the bit patterns are those of the
    floats 1.0, 2.0 and -1.5. *)
Definition opus_with_position : VoiceData :=
  {| source := None; mode := 0; codec := Opus; seqNum := 5; end_ := false;
     frames := [[0xAA; 0xBB]];
     position := Some {| px := 0x3F800000; py := 0x40000000; pz := 0xBFC00000 |} |}.

Definition opus_without_position : VoiceData :=
  {| source := None; mode := 0; codec := Opus; seqNum := 5; end_ := false;
     frames := [[0xAA; 0xBB]]; position := None |}.

(** Two frames and no end of transmission, for the three codecs that are
    framed with continuation bits. *)
Definition two_frames (c : Codec) : VoiceData :=
  {| source := None; mode := 0; codec := c; seqNum := 0; end_ := false;
     frames := [[0x11]; [0x22]]; position := None |}.

(** The same packet on the wire: header byte with the codec id in its
    three high bits, sequence number 0, two frames. *)
Definition two_frames_wire (codecId : Z) : list Z :=
  [codecId * 32; 0x00; 0x81; 0x11; 0x01; 0x22].

(** A packet whose header byte carries the unassigned codec id 5. *)
Definition unknown_codec_wire : list Z := [0xA0; 0x00].

(** An Opus packet from a server: whispered, last of its transmission,
    with the session id of its source. *)
Definition opus_from_server : VoiceData :=
  {| source := Some 300; mode := 2; codec := Opus; seqNum := 70000; end_ := true;
     frames := [[0xDE; 0xAD; 0xBE; 0xEF]]; position := None |}.

(** Three CELT frames of a transmission that goes on. *)
Definition celt_to_server : VoiceData :=
  {| source := None; mode := 0; codec := CELT_Alpha; seqNum := 12; end_ := false;
     frames := [[0x01; 0x02]; [0x03]; [0x04; 0x05; 0x06]]; position := None |}.

(** A receiver whose low nonce byte has just wrapped to 2. *)
Definition wrapped_receiver : UdpCrypt :=
  {| _key := replicate 16 0x5A;
     _decryptIV := 2 :: replicate 15 0;
     _encryptIV := replicate 16 0;
     _decryptHistory := ∅;
     _stats := no_stats |}.

(** A receiver about to carry out of the two low nonce bytes. *)
Definition carrying_receiver : UdpCrypt :=
  {| _key := replicate 16 0x5A;
     _decryptIV := 255 :: 255 :: replicate 14 0;
     _encryptIV := replicate 16 5;
     _decryptHistory := ∅;
     _stats := no_stats |}.

(** A sender and a receiver that mirror each other. *)
Definition sender : UdpCrypt :=
  {| _key := replicate 16 0x5A;
     _decryptIV := replicate 16 9;
     _encryptIV := 255 :: 255 :: replicate 14 7;
     _decryptHistory := ∅;
     _stats := no_stats |}.

Definition receiver : UdpCrypt :=
  {| _key := replicate 16 0x5A;
     _decryptIV := 255 :: 255 :: replicate 14 7;
     _encryptIV := replicate 16 3;
     _decryptHistory := ∅;
     _stats := no_stats |}.

(** A sender one packet before its nonce wraps in every byte. *)
Definition late_sender : UdpCrypt :=
  {| _key := replicate 16 0x5A;
     _decryptIV := replicate 16 0;
     _encryptIV := 254 :: replicate 15 255;
     _decryptHistory := ∅;
     _stats := no_stats |}.

(** Three control frames: a Ping, an empty UDPTunnel and a ServerSync. *)
Definition three_frames : list Control.frame :=
  [ {| Control.ftype := 3; Control.fdata := [1; 2] |};
    {| Control.ftype := 1; Control.fdata := [] |};
    {| Control.ftype := 5; Control.fdata := [9] |} ].

(** Their 21 bytes, cut inside headers and payloads, with an empty chunk. *)
Definition three_frames_chunks : list (list Z) :=
  [ [0; 3; 0; 0]; [0; 2; 1]; []; [2; 0; 1; 0; 0; 0; 0; 0; 5; 0; 0]; [0; 1; 9] ].

(** The bytes of "Hello". *)
Definition hello : list Z := [0x48; 0x65; 0x6C; 0x6C; 0x6F].

(** A receiver in mid-stream, with a sender whose next packet is three
    ahead of the receiver's nonce and one whose next packet is three
    behind it. *)
Definition midstream_receiver : UdpCrypt :=
  {| _key := replicate 16 0x5A;
     _decryptIV := 40 :: replicate 15 9;
     _encryptIV := replicate 16 3;
     _decryptHistory := ∅;
     _stats := no_stats |}.


Definition sender_behind : UdpCrypt :=
  {| _key := replicate 16 0x5A;
     _decryptIV := replicate 16 3;
     _encryptIV := 36 :: replicate 15 9;
     _decryptHistory := ∅;
     _stats := no_stats |}.

(** A block with its top bit set. *)
Definition offset_block : list Z := 0x80 :: replicate 14 0x41 ++ [0xFF].

(** Three chunks written to a control encoder: a Version without a
    payload, a tunnelled voice packet and a Ping. *)
Definition control_chunks : list (Control.chunk (list Z)) :=
  [ {| Control.cname := Some "Version"%string; Control.cpayload := None |};
    {| Control.cname := Some "UDPTunnel"%string;
       Control.cpayload := Some (Control.Buf (list Z) [0x80; 0x05; 0x01; 0xAA]) |};
    {| Control.cname := Some "Ping"%string;
       Control.cpayload := Some (Control.Object (list Z) [7]) |} ].

(** The 22 bytes they are encoded to, cut inside headers and payload. *)
Definition control_stream_chunks : list (list Z) :=
  [ [0; 0; 0; 0]; [0; 0; 0; 1; 0; 0; 0; 4; 0x80]; [];
    [0x05; 0x01; 0xAA; 0; 3; 0; 0; 0]; [0] ].

(** A frame of type 26, which no message name is registered for. *)
Definition unregistered_frame : list Z := [0; 26; 0; 0; 0; 1; 7].

(** Calls on a fresh [UdpCrypt]: two of them throw. *)
Definition setup_calls : list Setup.call :=
  [ Setup.SetKey (replicate 16 0x5A);
    Setup.SetKey [1; 2; 3];
    Setup.GenerateKey None;
    Setup.SetDecryptIV (replicate 16 9);
    Setup.SetEncryptIV (replicate 16 3) ].

End Samples.

(** * Properties of the embedded code *)

(** Splitting a conjunction without introducing anything. *)
Ltac split_ands := repeat match goal with |- _ /\ _ => split end.

(** ** Integer operators on small operands *)

Section JSFacts.
Import JS.

Lemma toInt32_small z : - 2 ^ 31 <= z < 2 ^ 31 -> toInt32 z = z.
Proof. intros H. unfold toInt32. rewrite Z.mod_small; lia. Qed.

Lemma u8_is_byte z : is_byte (u8 z).
Proof. unfold is_byte, u8. pose proof (Z.mod_pos_bound z 256). lia. Qed.

Lemma u8_byte z : is_byte z -> u8 z = z.
Proof. unfold is_byte, u8. intros H. apply Z.mod_small. lia. Qed.

Lemma mkBuffer_bytes arr : Forall is_byte (mkBuffer arr).
Proof. unfold mkBuffer. apply Forall_map, Forall_forall. intros. apply u8_is_byte. Qed.

(** A decidable property of a byte holds of all bytes once it has been
    run on the 256 of them. *)
Lemma all_bytes (P : Z -> bool) :
  forallb P (seqZ 0 256) = true -> forall v, is_byte v -> P v = true.
Proof.
  intros H v Hv. rewrite forallb_forall in H. apply H.
  apply list_elem_of_In, elem_of_seqZ. unfold is_byte in Hv. lia.
Qed.

Lemma all_bytes2 (P : Z -> Z -> bool) :
  forallb (fun a => forallb (P a) (seqZ 0 256)) (seqZ 0 256) = true ->
  forall a b, is_byte a -> is_byte b -> P a b = true.
Proof.
  intros H a b Ha Hb.
  apply (all_bytes (P a)); [|exact Hb].
  apply (all_bytes (fun a => forallb (P a) (seqZ 0 256))); assumption.
Qed.

Lemma sar_div a k : 0 <= a < 2 ^ 31 -> 0 <= k < 32 -> a >> k = a / 2 ^ k.
Proof.
  intros Ha Hk. unfold sar. rewrite toInt32_small by lia.
  rewrite Z.mod_small by lia. apply Z.shiftr_div_pow2. lia.
Qed.

Lemma band_low a k :
  0 <= a < 2 ^ 31 -> 0 <= k < 31 -> a .& (2 ^ k - 1) = a mod 2 ^ k.
Proof.
  intros Ha Hk. unfold band.
  assert (0 < 2 ^ k <= 2 ^ 30) by (split; [lia | apply Z.pow_le_mono_r; lia]).
  rewrite !toInt32_small by lia.
  change (2 ^ k - 1) with (Z.pred (2 ^ k)). rewrite <- Z.ones_equiv.
  apply Z.land_ones. lia.
Qed.

Lemma shl_mul a k :
  0 <= a -> 0 <= k < 32 -> a * 2 ^ k < 2 ^ 31 -> a << k = a * 2 ^ k.
Proof.
  intros Ha Hk Hb. unfold shl.
  assert (1 <= 2 ^ k) by lia.
  rewrite (toInt32_small a) by nia.
  rewrite Z.mod_small by lia. rewrite Z.shiftl_mul_pow2 by lia.
  apply toInt32_small. nia.
Qed.

Lemma lor_disjoint hi lo k :
  0 <= k -> 0 <= lo < 2 ^ k -> Z.lor (hi * 2 ^ k) lo = hi * 2 ^ k + lo.
Proof.
  intros Hk Hlo.
  assert (Hland : Z.land (hi * 2 ^ k) lo = 0).
  { apply Z.bits_inj'. intros n Hn. rewrite Z.land_spec, Z.bits_0.
    destruct (Z.lt_ge_cases n k) as [Hlt|Hge].
    - rewrite Z.mul_pow2_bits_low by lia. reflexivity.
    - rewrite <- (Z.mod_small lo (2 ^ k)) by lia.
      rewrite Z.mod_pow2_bits_high by lia. apply andb_false_r. }
  rewrite <- Z.lxor_lor by exact Hland.
  symmetry. apply Z.add_nocarry_lxor. exact Hland.
Qed.

Lemma bor_add hi lo k :
  0 <= k -> 0 <= lo < 2 ^ k -> 0 <= hi -> hi * 2 ^ k + lo < 2 ^ 31 ->
  (hi * 2 ^ k) .| lo = hi * 2 ^ k + lo.
Proof.
  intros Hk Hlo Hhi Hb. unfold bor.
  assert (0 <= hi * 2 ^ k) by nia.
  rewrite !toInt32_small by lia. apply lor_disjoint; assumption.
Qed.

Lemma bnot_small a : - 2 ^ 31 <= a < 2 ^ 31 -> .~ a = - a - 1.
Proof. intros H. unfold bnot. rewrite toInt32_small by lia. unfold Z.lnot. lia. Qed.

End JSFacts.

(** ** Reading buffers *)

Section BufferFacts.
Import JS.

Lemma zeroed_length n : length (zeroed n) = n.
Proof. apply length_replicate. Qed.

Lemma at0_lookup (l : list Z) i x : l !! i = Some x -> at0 l i = x.
Proof. unfold at0. intros ->. reflexivity. Qed.

Lemma at0_ge (l : list Z) i : (length l <= i)%nat -> at0 l i = 0.
Proof. unfold at0. intros H. rewrite lookup_ge_None_2 by exact H. reflexivity. Qed.

Lemma at0_app_l (l k : list Z) i : (i < length l)%nat -> at0 (l ++ k) i = at0 l i.
Proof. unfold at0. intros H. rewrite lookup_app_l by exact H. reflexivity. Qed.

Lemma at0_app_r (l k : list Z) i :
  (length l <= i)%nat -> at0 (l ++ k) i = at0 k (i - length l).
Proof. unfold at0. intros H. rewrite lookup_app_r by exact H. reflexivity. Qed.

Lemma at0_take (l : list Z) n i : (i < n)%nat -> at0 (take n l) i = at0 l i.
Proof. unfold at0. intros H. rewrite lookup_take_lt by exact H. reflexivity. Qed.

Lemma at0_drop (l : list Z) n i : at0 (drop n l) i = at0 l (n + i).
Proof. unfold at0. rewrite lookup_drop. reflexivity. Qed.

Lemma at0_replicate n i : at0 (replicate n 0) i = 0.
Proof.
  unfold at0. destruct (replicate n 0 !! i) as [x|] eqn:E; [|reflexivity].
  apply lookup_replicate in E. cbn. tauto.
Qed.

Lemma at0_byte (l : list Z) i : Forall is_byte l -> is_byte (at0 l i).
Proof.
  intros H. unfold at0. destruct (l !! i) as [x|] eqn:E; cbn.
  - exact (Forall_lookup_1 _ _ _ _ H E).
  - unfold is_byte. lia.
Qed.

Lemma at0_map_seq (f : nat -> Z) n i : (i < n)%nat -> at0 (map f (seq 0 n)) i = f i.
Proof.
  intros H. apply at0_lookup. change (map f (seq 0 n)) with (f <$> seq 0 n).
  rewrite list_lookup_fmap, lookup_seq_lt by exact H. reflexivity.
Qed.

(** A list read back index by index. *)
Lemma take_as_map (l : list Z) n :
  (n <= length l)%nat -> take n l = map (at0 l) (seq 0 n).
Proof.
  induction n as [|n IH]; intros H; [reflexivity|].
  destruct (lookup_lt_is_Some_2 l n) as [x Hx]; [lia|].
  rewrite (take_S_r _ _ _ Hx), seq_S, map_app, IH by lia.
  cbn. rewrite (at0_lookup _ _ _ Hx). reflexivity.
Qed.

Lemma map_seq_ext (f g : nat -> Z) n :
  (forall i, (i < n)%nat -> f i = g i) -> map f (seq 0 n) = map g (seq 0 n).
Proof.
  intros H. apply map_ext_in. intros i Hi. apply in_seq in Hi. apply H. lia.
Qed.

Lemma at0_insert_ne (l : list Z) i j x : i <> j -> at0 (<[i := x]> l) j = at0 l j.
Proof. intros H. unfold at0. rewrite list_lookup_insert_ne by exact H. reflexivity. Qed.

End BufferFacts.

(** ** Varint *)

Section VarintFacts.
Import JS Varint.

(** [toVarint] in terms of the shared chain of size tests. *)
Lemma toVarint_nonneg i :
  0 <= i ->
  toVarint i =
    match pushes i with
    | Some arr => Obj (mkBuffer arr) (Z.of_nat (length arr))
    | None => Thrown
    end.
Proof.
  intros Hi. unfold toVarint, pushes.
  destruct (Z.ltb_spec i 0) as [?|_]; [lia|]. cbn [andb app].
  repeat (match goal with |- context [?a <? ?b] => destruct (a <? b) end;
          try reflexivity).
Qed.

Lemma toVarint_neg i :
  i < 0 ->
  toVarint i =
    if .~ i <=? 0x3 then Bare (mkBuffer [0xFC .| .~ i])
    else match pushes (.~ i) with
         | Some arr => Obj (mkBuffer (0xF8 :: arr)) (Z.of_nat (length (0xF8 :: arr)))
         | None => Thrown
         end.
Proof.
  intros Hi. unfold toVarint, pushes.
  destruct (Z.ltb_spec i 0) as [_|?]; [|lia]. cbn [andb app].
  destruct (.~ i <=? 3); [reflexivity|].
  repeat (match goal with |- context [?a <? ?b] => destruct (a <? b) end;
          try reflexivity).
Qed.

(** The prefix tests of [fromVarint] leave no byte out. *)
Lemma prefix_tests_cover v :
  is_byte v ->
  (v .& 0x80) = 0x00 \/ (v .& 0xC0) = 0x80 \/ (v .& 0xF0) = 0xF0 \/
  (v .& 0xF0) = 0xE0 \/ (v .& 0xE0) = 0xC0.
Proof.
  intros Hv.
  pose proof (all_bytes
    (fun v => ((v .& 0x80) =? 0x00) || ((v .& 0xC0) =? 0x80) || ((v .& 0xF0) =? 0xF0)
              || ((v .& 0xF0) =? 0xE0) || ((v .& 0xE0) =? 0xC0))
    eq_refl v Hv) as H.
  cbv beta in H.
  repeat (apply orb_true_iff in H; destruct H as [H|H]);
    apply Z.eqb_eq in H; tauto.
Qed.

(** First bytes, by running the tests on every byte. *)
Lemma first_byte_1 v :
  is_byte v -> v < 0x80 -> ((v .& 0x80) =? 0) = true /\ v .& 0x7F = v.
Proof.
  intros Hv Hlt.
  pose proof (all_bytes
    (fun v => implb (v <? 0x80) (((v .& 0x80) =? 0) && ((v .& 0x7F) =? v)))
    eq_refl v Hv) as H.
  cbv beta in H. destruct (Z.ltb_spec v 0x80); [|lia].
  cbn [implb] in H. apply andb_true_iff in H. destruct H as [H1 H2].
  apply Z.eqb_eq in H2. auto.
Qed.

Lemma first_byte_2 h :
  is_byte h -> h < 0x40 ->
  let v := u8 (h .| 0x80) in
  ((v .& 0x80) =? 0) = false /\ ((v .& 0xC0) =? 0x80) = true /\ v .& 0x3F = h.
Proof.
  intros Hh Hlt.
  pose proof (all_bytes
    (fun h => implb (h <? 0x40)
       (let v := u8 (h .| 0x80) in
        negb ((v .& 0x80) =? 0) && ((v .& 0xC0) =? 0x80) && ((v .& 0x3F) =? h)))
    eq_refl h Hh) as H.
  cbv beta zeta in H. destruct (Z.ltb_spec h 0x40); [|lia].
  cbn [implb] in H. apply andb_true_iff in H as [H H3].
  apply andb_true_iff in H as [H1 H2].
  apply negb_true_iff in H1. apply Z.eqb_eq in H3. auto.
Qed.

Lemma first_byte_3 h :
  is_byte h -> h < 0x20 ->
  let v := u8 (h .| 0xC0) in
  ((v .& 0x80) =? 0) = false /\ ((v .& 0xC0) =? 0x80) = false /\
  ((v .& 0xF0) =? 0xF0) = false /\ ((v .& 0xF0) =? 0xE0) = false /\
  ((v .& 0xE0) =? 0xC0) = true /\ v .& 0x1F = h.
Proof.
  intros Hh Hlt.
  pose proof (all_bytes
    (fun h => implb (h <? 0x20)
       (let v := u8 (h .| 0xC0) in
        negb ((v .& 0x80) =? 0) && negb ((v .& 0xC0) =? 0x80) &&
        negb ((v .& 0xF0) =? 0xF0) && negb ((v .& 0xF0) =? 0xE0) &&
        ((v .& 0xE0) =? 0xC0) && ((v .& 0x1F) =? h)))
    eq_refl h Hh) as H.
  cbv beta zeta in H. destruct (Z.ltb_spec h 0x20); [|lia].
  cbn [implb] in H.
  repeat (apply andb_true_iff in H; let H' := fresh "T" in destruct H as [H H']).
  repeat match goal with T : negb _ = true |- _ => apply negb_true_iff in T end.
  apply Z.eqb_eq in T. auto 10.
Qed.

Lemma first_byte_4 h :
  is_byte h -> h < 0x10 ->
  let v := u8 (h .| 0xE0) in
  ((v .& 0x80) =? 0) = false /\ ((v .& 0xC0) =? 0x80) = false /\
  ((v .& 0xF0) =? 0xF0) = false /\ ((v .& 0xF0) =? 0xE0) = true /\
  v .& 0x0F = h.
Proof.
  intros Hh Hlt.
  pose proof (all_bytes
    (fun h => implb (h <? 0x10)
       (let v := u8 (h .| 0xE0) in
        negb ((v .& 0x80) =? 0) && negb ((v .& 0xC0) =? 0x80) &&
        negb ((v .& 0xF0) =? 0xF0) && ((v .& 0xF0) =? 0xE0) &&
        ((v .& 0x0F) =? h)))
    eq_refl h Hh) as H.
  cbv beta zeta in H. destruct (Z.ltb_spec h 0x10); [|lia].
  cbn [implb] in H.
  repeat (apply andb_true_iff in H; let H' := fresh "T" in destruct H as [H H']).
  repeat match goal with T : negb _ = true |- _ => apply negb_true_iff in T end.
  apply Z.eqb_eq in T. auto 10.
Qed.

Lemma first_byte_neg j :
  0 <= j <= 3 ->
  let v := u8 (0xFC .| j) in
  ((v .& 0x80) =? 0) = false /\ ((v .& 0xC0) =? 0x80) = false /\
  ((v .& 0xF0) =? 0xF0) = true /\ ((v .& 0xFC) =? 0xF0) = false /\
  ((v .& 0xFC) =? 0xF8) = false /\ ((v .& 0xFC) =? 0xFC) = true /\
  .~ (v .& 0x03) = - j - 1.
Proof.
  intros Hj.
  assert (j = 0 \/ j = 1 \/ j = 2 \/ j = 3) as [->|[->|[->| ->]]] by lia;
    cbv; auto 10.
Qed.

End VarintFacts.

Section VarintRoundTrip.
Import JS Varint.

Lemma bor_add' x y lo k :
  x = y * 2 ^ k -> 0 <= k -> 0 <= lo < 2 ^ k -> 0 <= y -> x + lo < 2 ^ 31 ->
  x .| lo = x + lo.
Proof. intros -> ? ? ? ?. apply bor_add; assumption. Qed.

Ltac div_bound :=
  first [ lia
        | split; [apply Z.div_pos; lia | apply Z.div_lt_upper_bound; lia] ].

Lemma low_byte a : 0 <= a < 2 ^ 31 -> u8 (a .& 0xFF) = a mod 256.
Proof.
  intros Ha. change (a .& 255) with (a .& (2 ^ 8 - 1)).
  rewrite (band_low a 8) by lia. change (2 ^ 8) with 256.
  apply u8_byte. unfold is_byte. apply Z.mod_pos_bound. lia.
Qed.

(** Decoding the pushes of a non-negative 31-bit integer gives it back,
    whatever follows them in the buffer. *)
Lemma pushes_round_trip j rest :
  0 <= j < 2 ^ 31 ->
  exists arr,
    pushes j = Some arr /\
    fromVarint (mkBuffer arr ++ rest) = Some (j, Z.of_nat (length arr)).
Proof.
  intros Hj. unfold pushes.
  destruct (Z.ltb_spec j 0x80) as [H1|H1].
  { eexists; split; [reflexivity|].
    assert (Hb : is_byte j) by (unfold is_byte; lia).
    cbn [mkBuffer map app]. rewrite (u8_byte j Hb).
    destruct (first_byte_1 j Hb H1) as [T V].
    cbn [fromVarint]. rewrite T, V. reflexivity. }
  destruct (Z.ltb_spec j 0x4000) as [H2|H2].
  { eexists; split; [reflexivity|].
    cbn [mkBuffer map app]. rewrite low_byte by lia.
    rewrite (sar_div j 8) by lia.
    set (h := j / 2 ^ 8). set (l := j mod 256).
    assert (Hh : 0 <= h < 0x40) by (subst h; div_bound).
    assert (Hl : 0 <= l < 256) by (subst l; apply Z.mod_pos_bound; lia).
    assert (Hjl : j = h * 256 + l) by (subst h l; change (2 ^ 8) with 256; pose proof (Z.div_mod j 256); lia).
    destruct (first_byte_2 h) as (T1 & T2 & V); [unfold is_byte; lia | lia |].
    cbn [fromVarint]. rewrite T1, T2, V.
    change (at0 (u8 (h .| 128) :: l :: rest) 1) with l.
    rewrite (shl_mul h 8) by lia.
    rewrite (bor_add' _ h l 8) by lia.
    change (2 ^ 8) with 256. rewrite <- Hjl. reflexivity. }
  destruct (Z.ltb_spec j 0x200000) as [H3|H3].
  { eexists; split; [reflexivity|].
    cbn [mkBuffer map app].
    rewrite (sar_div j 16), (sar_div j 8) by lia.
    rewrite !low_byte by div_bound.
    set (h := j / 2 ^ 16). set (m := (j / 2 ^ 8) mod 256). set (l := j mod 256).
    assert (Hh : 0 <= h < 0x20) by (subst h; div_bound).
    assert (Hm : 0 <= m < 256) by (subst m; apply Z.mod_pos_bound; lia).
    assert (Hl : 0 <= l < 256) by (subst l; apply Z.mod_pos_bound; lia).
    assert (Hjl : j = h * 65536 + m * 256 + l).
    { subst h m l. change (2 ^ 16) with 65536. change (2 ^ 8) with 256.
      pose proof (Z.div_mod j 256). pose proof (Z.div_mod (j / 256) 256).
      rewrite Z.div_div in * by lia. change (256 * 256) with 65536 in *. lia. }
    destruct (first_byte_3 h) as (T1 & T2 & T3 & T4 & T5 & V); [unfold is_byte; lia | lia |].
    cbn [fromVarint]. rewrite T1, T2, T3, T4, T5, V.
    change (at0 (u8 (h .| 192) :: m :: l :: rest) 1) with m.
    change (at0 (u8 (h .| 192) :: m :: l :: rest) 2) with l.
    rewrite (shl_mul h 16), (shl_mul m 8) by lia.
    rewrite (bor_add' (h * 2 ^ 16) h (m * 2 ^ 8) 16) by lia.
    rewrite (bor_add' _ (h * 256 + m) l 8) by lia.
    replace (h * 2 ^ 16 + m * 2 ^ 8 + l) with j by lia. reflexivity. }
  destruct (Z.ltb_spec j 0x10000000) as [H4|H4].
  { eexists; split; [reflexivity|].
    cbn [mkBuffer map app].
    rewrite (sar_div j 24), (sar_div j 16), (sar_div j 8) by lia.
    rewrite !low_byte by div_bound.
    set (h := j / 2 ^ 24). set (m1 := (j / 2 ^ 16) mod 256).
    set (m2 := (j / 2 ^ 8) mod 256). set (l := j mod 256).
    assert (Hh : 0 <= h < 0x10) by (subst h; div_bound).
    assert (Hm1 : 0 <= m1 < 256) by (subst m1; apply Z.mod_pos_bound; lia).
    assert (Hm2 : 0 <= m2 < 256) by (subst m2; apply Z.mod_pos_bound; lia).
    assert (Hl : 0 <= l < 256) by (subst l; apply Z.mod_pos_bound; lia).
    assert (Hjl : j = h * 16777216 + m1 * 65536 + m2 * 256 + l).
    { subst h m1 m2 l. change (2 ^ 24) with 16777216.
      change (2 ^ 16) with 65536. change (2 ^ 8) with 256.
      pose proof (Z.div_mod j 256). pose proof (Z.div_mod (j / 256) 256).
      pose proof (Z.div_mod (j / 256 / 256) 256).
      rewrite !Z.div_div in * by lia.
      change (256 * 256) with 65536 in *. change (65536 * 256) with 16777216 in *.
      lia. }
    destruct (first_byte_4 h) as (T1 & T2 & T3 & T4 & V); [unfold is_byte; lia | lia |].
    cbn [fromVarint]. rewrite T1, T2, T3, T4, V.
    change (at0 (u8 (h .| 224) :: m1 :: m2 :: l :: rest) 1) with m1.
    change (at0 (u8 (h .| 224) :: m1 :: m2 :: l :: rest) 2) with m2.
    change (at0 (u8 (h .| 224) :: m1 :: m2 :: l :: rest) 3) with l.
    rewrite (shl_mul h 24), (shl_mul m1 16), (shl_mul m2 8) by lia.
    rewrite (bor_add' (h * 2 ^ 24) h (m1 * 2 ^ 16) 24) by lia.
    rewrite (bor_add' _ (h * 256 + m1) (m2 * 2 ^ 8) 16) by lia.
    rewrite (bor_add' _ (h * 65536 + m1 * 256 + m2) l 8) by lia.
    replace (h * 2 ^ 24 + m1 * 2 ^ 16 + m2 * 2 ^ 8 + l) with j by lia. reflexivity. }
  destruct (Z.ltb_spec j 0x100000000) as [H5|H5]; [|lia].
  eexists; split; [reflexivity|].
  cbn [mkBuffer map app].
  rewrite (sar_div j 24), (sar_div j 16), (sar_div j 8) by lia.
  rewrite !low_byte by div_bound.
  set (h := (j / 2 ^ 24) mod 256). set (m1 := (j / 2 ^ 16) mod 256).
  set (m2 := (j / 2 ^ 8) mod 256). set (l := j mod 256).
  assert (Hh' : 0 <= j / 2 ^ 24 < 128) by div_bound.
  assert (Hh : 0 <= h < 128) by (subst h; rewrite Z.mod_small; lia).
  assert (Hm1 : 0 <= m1 < 256) by (subst m1; apply Z.mod_pos_bound; lia).
  assert (Hm2 : 0 <= m2 < 256) by (subst m2; apply Z.mod_pos_bound; lia).
  assert (Hl : 0 <= l < 256) by (subst l; apply Z.mod_pos_bound; lia).
  assert (Hjl : j = h * 16777216 + m1 * 65536 + m2 * 256 + l).
  { subst h m1 m2 l. rewrite (Z.mod_small (j / 2 ^ 24)) by lia.
    change (2 ^ 24) with 16777216.
    change (2 ^ 16) with 65536. change (2 ^ 8) with 256.
    pose proof (Z.div_mod j 256). pose proof (Z.div_mod (j / 256) 256).
    pose proof (Z.div_mod (j / 256 / 256) 256).
    rewrite !Z.div_div in * by lia.
    change (256 * 256) with 65536 in *. change (65536 * 256) with 16777216 in *.
    lia. }
  change (u8 240) with 240.
  cbn [fromVarint].
  change ((240 .& 128) =? 0) with false. change ((240 .& 192) =? 128) with false.
  change ((240 .& 240) =? 240) with true. change ((240 .& 252) =? 240) with true.
  cbv iota zeta.
  change (at0 (240 :: h :: m1 :: m2 :: l :: rest) 1) with h.
  change (at0 (240 :: h :: m1 :: m2 :: l :: rest) 2) with m1.
  change (at0 (240 :: h :: m1 :: m2 :: l :: rest) 3) with m2.
  change (at0 (240 :: h :: m1 :: m2 :: l :: rest) 4) with l.
  rewrite (shl_mul h 24), (shl_mul m1 16), (shl_mul m2 8) by lia.
  rewrite (bor_add' (h * 2 ^ 24) h (m1 * 2 ^ 16) 24) by lia.
  rewrite (bor_add' _ (h * 256 + m1) (m2 * 2 ^ 8) 16) by lia.
  rewrite (bor_add' _ (h * 65536 + m1 * 256 + m2) l 8) by lia.
  replace (h * 2 ^ 24 + m1 * 2 ^ 16 + m2 * 2 ^ 8 + l) with j by lia. reflexivity.
Qed.

End VarintRoundTrip.

(** *** The upper half of the unsigned range *)

Section VarintUpperHalf.
Import JS Varint.

Lemma toInt32_high i : 2 ^ 31 <= i < 2 ^ 32 -> toInt32 i = i - 2 ^ 32.
Proof.
  intros H. unfold toInt32.
  replace (i + 2 ^ 31) with ((i - 2 ^ 31) + 1 * 2 ^ 32) by lia.
  rewrite Z.mod_add by lia. rewrite Z.mod_small; lia.
Qed.

Lemma band_ff a : u8 (a .& 0xFF) = toInt32 a mod 256.
Proof.
  unfold band. change (toInt32 255) with (Z.ones 8).
  rewrite Z.land_ones by lia. change (2 ^ 8) with 256.
  apply u8_byte. unfold is_byte. apply Z.mod_pos_bound. lia.
Qed.

Lemma sar_int32 a k :
  0 <= k < 32 -> a >> k = toInt32 a / 2 ^ k /\ toInt32 (a >> k) = toInt32 a / 2 ^ k.
Proof.
  intros Hk. unfold sar. rewrite Z.mod_small by lia.
  rewrite Z.shiftr_div_pow2 by lia. split; [reflexivity|].
  assert (Hr : - 2 ^ 31 <= toInt32 a < 2 ^ 31).
  { unfold toInt32. pose proof (Z.mod_pos_bound (a + 2 ^ 31) (2 ^ 32)). lia. }
  assert (0 < 2 ^ k) by lia.
  apply toInt32_small. split.
  - apply Z.div_le_lower_bound; [lia|]. nia.
  - apply Z.div_lt_upper_bound; [lia|]. nia.
Qed.

Lemma bor_add_signed x y lo k :
  x = y * 2 ^ k -> 0 <= k -> 0 <= lo < 2 ^ k -> lo < 2 ^ 31 ->
  - 2 ^ 31 <= x -> x + lo < 2 ^ 31 ->
  x .| lo = x + lo.
Proof.
  intros -> Hk Hlo Hlo' Hx Hb. unfold bor.
  assert (0 < 2 ^ k) by lia.
  rewrite !toInt32_small by lia. apply lor_disjoint; assumption.
Qed.

(** [X2] On [2^31, 2^32) the encoder still produces the five-byte form,
    and the decoder reads it back as the signed number [i - 2^32]. *)
Lemma varint_round_trip_upper_half i :
  2 ^ 31 <= i < 2 ^ 32 ->
  exists bs,
    bytes_of (toVarint i) = Some bs /\
    fromVarint bs = Some (i - 2 ^ 32, 5).
Proof.
  intros Hi. rewrite toVarint_nonneg by lia. unfold pushes.
  repeat match goal with
         | |- context [i <? ?c] => destruct (Z.ltb_spec i c); [lia|]
         end.
  destruct (Z.ltb_spec i 4294967296) as [_|?]; [|lia].
  eexists; split; [reflexivity|].
  cbn [mkBuffer map]. change (u8 240) with 240.
  rewrite !band_ff.
  destruct (sar_int32 i 24) as [_ ->]; [lia|].
  destruct (sar_int32 i 16) as [_ ->]; [lia|].
  destruct (sar_int32 i 8) as [_ ->]; [lia|].
  rewrite toInt32_high by exact Hi.
  set (j := i - 2 ^ 32).
  set (b1 := (j / 2 ^ 24) mod 256). set (b2 := (j / 2 ^ 16) mod 256).
  set (b3 := (j / 2 ^ 8) mod 256). set (b4 := j mod 256).
  assert (Hb1 : 128 <= b1 < 256 /\ j / 2 ^ 24 = b1 - 256).
  { subst b1. remember (j / 2 ^ 24) as q eqn:Eq.
    assert (Hq : -128 <= q < 0).
    { subst q j. change (2 ^ 24) with 16777216. change (2 ^ 32) with 4294967296 in *.
      change (2 ^ 31) with 2147483648 in *.
      split; [apply Z.div_le_lower_bound; lia | apply Z.div_lt_upper_bound; lia]. }
    assert (Hm : q mod 256 = q + 256).
    { rewrite <- (Z.mod_add q 1 256) by lia. apply Z.mod_small. lia. }
    rewrite Hm. lia. }
  assert (Hb2 : 0 <= b2 < 256) by (subst b2; apply Z.mod_pos_bound; lia).
  assert (Hb3 : 0 <= b3 < 256) by (subst b3; apply Z.mod_pos_bound; lia).
  assert (Hb4 : 0 <= b4 < 256) by (subst b4; apply Z.mod_pos_bound; lia).
  assert (Hj : j = (b1 - 256) * 16777216 + b2 * 65536 + b3 * 256 + b4).
  { destruct Hb1 as [_ Hb1]. rewrite <- Hb1. subst b2 b3 b4.
    change (2 ^ 24) with 16777216. change (2 ^ 16) with 65536. change (2 ^ 8) with 256.
    pose proof (Z.div_mod j 256). pose proof (Z.div_mod (j / 256) 256).
    pose proof (Z.div_mod (j / 256 / 256) 256).
    rewrite !Z.div_div in * by lia.
    change (256 * 256) with 65536 in *. change (65536 * 256) with 16777216 in *.
    lia. }
  cbn [fromVarint].
  change ((240 .& 128) =? 0) with false. change ((240 .& 192) =? 128) with false.
  change ((240 .& 240) =? 240) with true. change ((240 .& 252) =? 240) with true.
  cbv iota zeta.
  change (at0 (240 :: b1 :: b2 :: b3 :: [b4]) 1) with b1.
  change (at0 (240 :: b1 :: b2 :: b3 :: [b4]) 2) with b2.
  change (at0 (240 :: b1 :: b2 :: b3 :: [b4]) 3) with b3.
  change (at0 (240 :: b1 :: b2 :: b3 :: [b4]) 4) with b4.
  assert (Hshl1 : b1 << 24 = (b1 - 256) * 2 ^ 24).
  { unfold shl. rewrite (toInt32_small b1) by lia.
    change (24 mod 32) with 24. rewrite Z.shiftl_mul_pow2 by lia.
    rewrite toInt32_high by lia. lia. }
  rewrite Hshl1, (shl_mul b2 16), (shl_mul b3 8) by lia.
  rewrite (bor_add_signed ((b1 - 256) * 2 ^ 24) (b1 - 256) (b2 * 2 ^ 16) 24) by lia.
  rewrite (bor_add_signed _ ((b1 - 256) * 256 + b2) (b3 * 2 ^ 8) 16) by lia.
  rewrite (bor_add_signed _ ((b1 - 256) * 65536 + b2 * 256 + b3) b4 8) by lia.
  f_equal. f_equal. lia.
Qed.

End VarintUpperHalf.

Section VarintClaims.
Import JS Varint.

Lemma length_mkBuffer arr : length (mkBuffer arr) = length arr.
Proof. apply length_map. Qed.

(** Round trip on the signed 32-bit range; bytes after the varint are
    left alone. *)
Lemma varint_round_trip_int32 i rest :
  - 2 ^ 31 <= i < 2 ^ 31 ->
  exists bs,
    bytes_of (toVarint i) = Some bs /\
    fromVarint (bs ++ rest) = Some (i, Z.of_nat (length bs)).
Proof.
  intros Hi. destruct (Z.lt_ge_cases i 0) as [Hneg|Hpos].
  - rewrite toVarint_neg by exact Hneg.
    rewrite bnot_small by lia.
    destruct (Z.leb_spec (- i - 1) 3) as [Hs|Hs].
    + eexists; split; [reflexivity|].
      destruct (first_byte_neg (- i - 1)) as (T1 & T2 & T3 & T4 & T5 & T6 & V); [lia|].
      cbn [mkBuffer map app fromVarint].
      rewrite T1, T2, T3. cbv zeta. rewrite T4, T5, T6, V.
      f_equal. f_equal. lia.
    + destruct (pushes_round_trip (- i - 1) rest) as (arr & -> & Hd); [lia|].
      eexists; split; [reflexivity|].
      change (mkBuffer (248 :: arr)) with (248 :: mkBuffer arr).
      cbn [app fromVarint].
      change ((248 .& 128) =? 0) with false. change ((248 .& 192) =? 128) with false.
      change ((248 .& 240) =? 240) with true. change ((248 .& 252) =? 240) with false.
      change ((248 .& 252) =? 248) with true. cbv iota zeta.
      rewrite Hd. rewrite bnot_small by lia.
      f_equal. f_equal; [lia|]. cbn [length]. rewrite length_mkBuffer. lia.
  - rewrite toVarint_nonneg by exact Hpos.
    destruct (pushes_round_trip i rest) as (arr & -> & Hd); [lia|].
    eexists; split; [reflexivity|].
    rewrite Hd, length_mkBuffer. reflexivity.
Qed.

(** [C2] At [i = 2^31], inside the range the round trip is claimed for:
    [toVarint] produces the five bytes [F0 80 00 00 00], and [fromVarint]
    reads them back as [-2^31], since the four bytes are put together
    with signed 32-bit operators. *)
Theorem varint_round_trip_at_2_31 :
  bytes_of (toVarint 2147483648) = Some [240; 128; 0; 0; 0] /\
  fromVarint [240; 128; 0; 0; 0] = Some (-2147483648, 5).
Proof. split; reflexivity. Qed.

(** [C9] A first byte with the 64-bit prefix [0xF4] makes [fromVarint]
    return [null], whatever follows it. *)
Theorem fromVarint_64bit_prefix v rest :
  is_byte v -> v .& 0xFC = 0xF4 -> fromVarint (v :: rest) = None.
Proof.
  intros Hv Hp.
  assert (Hc : v = 244 \/ v = 245 \/ v = 246 \/ v = 247).
  { pose proof (all_bytes
      (fun v => implb ((v .& 0xFC) =? 0xF4)
                  ((v =? 244) || (v =? 245) || (v =? 246) || (v =? 247)))
      eq_refl v Hv) as H.
    cbv beta in H. rewrite Hp in H. cbn [Z.eqb Pos.eqb implb] in H.
    repeat (apply orb_true_iff in H; destruct H as [H|H]);
      apply Z.eqb_eq in H; tauto. }
  destruct Hc as [->|[->|[->| ->]]]; reflexivity.
Qed.

Lemma fromVarint_64bit_prefix_witness :
  is_byte 0xF4 /\ 0xF4 .& 0xFC = 0xF4 /\
  fromVarint [0xF4; 0; 0; 0; 0; 0; 0; 0; 1] = None.
Proof.
  assert (Hb : is_byte 0xF4) by (unfold is_byte; lia).
  assert (Hp : 0xF4 .& 0xFC = 0xF4) by reflexivity.
  split; [exact Hb|]. split; [exact Hp|].
  exact (fromVarint_64bit_prefix 0xF4 [0; 0; 0; 0; 0; 0; 0; 1] Hb Hp).
Defined.

(** [C9], as stated, fails: the result for the 64-bit prefix is the
    [null] that an empty buffer gets, so that nothing computed from the
    result can name the one failure [Unsupported64Bit] and the other
    [Truncated]. *)
Lemma fromVarint_64bit_not_distinct :
  ~ exists classify : option (Z * Z) -> failure,
      classify (fromVarint [0xF4; 0; 0; 0; 0; 0; 0; 0; 1]) = Unsupported64Bit /\
      classify (fromVarint []) = Truncated.
Proof.
  intros (classify & H1 & H2).
  change (fromVarint [0xF4; 0; 0; 0; 0; 0; 0; 0; 1]) with (@None (Z * Z)) in H1.
  change (fromVarint []) with (@None (Z * Z)) in H2.
  congruence.
Qed.

End VarintClaims.

(** ** Varint: what the two functions accept and refuse *)

Section VarintEdges.
Import JS Varint.

(** Whatever [toVarint] returns holds between one and six bytes. *)
Lemma toVarint_bytes i bs :
  bytes_of (toVarint i) = Some bs -> Forall is_byte bs /\ (1 <= length bs <= 6)%nat.
Proof.
  assert (Hp : forall j pre, (length pre <= 1)%nat ->
            match pushes j with
            | Some arr => Forall is_byte (mkBuffer (pre ++ arr)) /\
                          (1 <= length (mkBuffer (pre ++ arr)) <= 6)%nat
            | None => True
            end).
  { intros j pre Hpre. unfold pushes.
    repeat match goal with
           | |- context [if ?b then _ else _] => destruct b
           end; try exact I;
      (split; [apply mkBuffer_bytes | rewrite length_mkBuffer, length_app; cbn; lia]). }
  destruct (Z.lt_ge_cases i 0) as [Hneg|Hpos].
  - rewrite toVarint_neg by exact Hneg.
    destruct (.~ i <=? 3).
    + cbn [bytes_of]. intros H. injection H as <-.
      split; [apply (mkBuffer_bytes [252 .| .~ i]) | cbn; lia].
    + specialize (Hp (.~ i) [248] ltac:(cbn; lia)).
      destruct (pushes (.~ i)) as [arr|]; [|discriminate].
      cbn [bytes_of]. intros H. injection H as <-. exact Hp.
  - rewrite toVarint_nonneg by exact Hpos.
    specialize (Hp i [] ltac:(cbn; lia)).
    destruct (pushes i) as [arr|]; [|discriminate].
    cbn [bytes_of]. intros H. injection H as <-. exact Hp.
Qed.

(** [X1] On the signed 32-bit range [toVarint] and [fromVarint] are
    inverse to each other: the encoding has one to six bytes, and decoding
    it gives the number back together with the count of bytes the
    encoding has, whatever follows it in the buffer. *)
Theorem varint_round_trip_signed i rest :
  - 2 ^ 31 <= i < 2 ^ 31 ->
  exists bs,
    bytes_of (toVarint i) = Some bs /\
    Forall is_byte bs /\ (1 <= length bs <= 6)%nat /\
    fromVarint (bs ++ rest) = Some (i, Z.of_nat (length bs)).
Proof.
  intros Hi. destruct (varint_round_trip_int32 i rest Hi) as (bs & Hbs & Hd).
  exists bs. destruct (toVarint_bytes i bs Hbs) as [Hb Hl]. auto.
Qed.

(** The byte prefixes that [fromVarint] switches on. *)
Lemma negation_prefix v rest :
  is_byte v -> v .& 0xFC = 0xF8 ->
  fromVarint (v :: rest) =
    match fromVarint rest with
    | None => None
    | Some (value, len) => Some (.~ value, 1 + len)
    end.
Proof.
  intros Hv Hp.
  assert (Hc : v = 248 \/ v = 249 \/ v = 250 \/ v = 251).
  { pose proof (all_bytes
      (fun v => implb ((v .& 0xFC) =? 0xF8)
                  ((v =? 248) || (v =? 249) || (v =? 250) || (v =? 251)))
      eq_refl v Hv) as H.
    cbv beta in H. rewrite Hp in H. cbn [Z.eqb Pos.eqb implb] in H.
    repeat (apply orb_true_iff in H; destruct H as [H|H]);
      apply Z.eqb_eq in H; tauto. }
  destruct Hc as [->|[->|[->| ->]]]; reflexivity.
Qed.

Lemma quad_prefix v rest :
  is_byte v -> v .& 0xFC = 0xF4 -> fromVarint (v :: rest) = None.
Proof.
  intros Hv Hp.
  assert (Hc : v = 244 \/ v = 245 \/ v = 246 \/ v = 247).
  { pose proof (all_bytes
      (fun v => implb ((v .& 0xFC) =? 0xF4)
                  ((v =? 244) || (v =? 245) || (v =? 246) || (v =? 247)))
      eq_refl v Hv) as H.
    cbv beta in H. rewrite Hp in H. cbn [Z.eqb Pos.eqb implb] in H.
    repeat (apply orb_true_iff in H; destruct H as [H|H]);
      apply Z.eqb_eq in H; tauto. }
  destruct Hc as [->|[->|[->| ->]]]; reflexivity.
Qed.

Lemma other_prefix v rest :
  is_byte v -> v .& 0xFC <> 0xF8 -> v .& 0xFC <> 0xF4 ->
  is_Some (fromVarint (v :: rest)).
Proof.
  intros Hv H8 H4. cbn [fromVarint].
  pose proof (all_bytes
    (fun v => implb ((v .& 0xF0) =? 0xF0)
                (((v .& 0xFC) =? 0xF0) || ((v .& 0xFC) =? 0xF4) ||
                 ((v .& 0xFC) =? 0xF8) || ((v .& 0xFC) =? 0xFC)))
    eq_refl v Hv) as H.
  cbv beta in H.
  destruct ((v .& 0x80) =? 0); [eauto|].
  destruct ((v .& 0xC0) =? 0x80); [eauto|].
  destruct ((v .& 0xF0) =? 0xF0).
  - cbv zeta. cbn [implb] in H.
    destruct (Z.eqb_spec (v .& 0xFC) 0xF0); [eauto|].
    destruct (Z.eqb_spec (v .& 0xFC) 0xF8); [contradiction|].
    destruct (Z.eqb_spec (v .& 0xFC) 0xFC); [eauto|].
    destruct (Z.eqb_spec (v .& 0xFC) 0xF4); [contradiction|].
    discriminate H.
  - destruct ((v .& 0xF0) =? 0xE0); [eauto|].
    destruct ((v .& 0xE0) =? 0xC0); eauto.
Qed.

(** [X3] [fromVarint] returns [null] on exactly these buffers: any
    number of negation prefixes ([0xF8] to [0xFB]) followed by nothing, or
    followed by a byte with the 64-bit prefix ([0xF4] to [0xF7]).  Every
    other buffer is decoded, truncated or not. *)
Theorem fromVarint_null_iff b :
  Forall is_byte b ->
  fromVarint b = None <->
  exists negs rest,
    b = negs ++ rest /\ Forall (fun v => v .& 0xFC = 0xF8) negs /\
    match rest with
    | [] => True
    | v :: _ => v .& 0xFC = 0xF4
    end.
Proof.
  intros Hb. induction Hb as [|v b Hv Hb IH].
  - split; [|reflexivity]. intros _. exists [], []. auto.
  - destruct (Z.eq_dec (v .& 0xFC) 0xF8) as [H8|H8].
    + rewrite negation_prefix by assumption. split.
      * intros H. destruct (fromVarint b) as [[value len]|]; [discriminate|].
        destruct (proj1 IH eq_refl) as (negs & rest & -> & Hn & Hr).
        exists (v :: negs), rest. split; [reflexivity|]. split; [|exact Hr].
        constructor; assumption.
      * intros (negs & rest & E & Hn & Hr).
        assert (Hb' : fromVarint b = None).
        { apply IH. destruct negs as [|n negs].
          - cbn in E. subst rest. rewrite H8 in Hr. discriminate Hr.
          - inversion E; subst. inversion Hn; subst. exists negs, rest. auto. }
        rewrite Hb'. reflexivity.
    + destruct (Z.eq_dec (v .& 0xFC) 0xF4) as [H4|H4].
      * rewrite quad_prefix by assumption. split; [|reflexivity].
        intros _. exists [], (v :: b). auto.
      * destruct (other_prefix v b Hv H8 H4) as [r Hr]. rewrite Hr. split; [discriminate|].
        intros (negs & rest & E & Hn & Hrest). exfalso.
        destruct negs as [|n negs].
        -- cbn in E. subst rest. contradiction.
        -- inversion E; subst. inversion Hn; subst. contradiction.
Qed.

Lemma at0_padded (l : list Z) k i : at0 (l ++ replicate k 0) i = at0 l i.
Proof.
  destruct (Nat.lt_ge_cases i (length l)) as [H|H].
  - apply at0_app_l. exact H.
  - rewrite at0_app_r by exact H. rewrite at0_replicate, at0_ge by exact H. reflexivity.
Qed.

(** [X4] A byte that the buffer does not hold is read as 0: a buffer
    that is decoded gives the same value and length when zero bytes are
    appended to it.  The length returned is that of the form announced by
    the first byte, not the number of bytes present. *)
Theorem fromVarint_zero_padding b k r :
  fromVarint b = Some r -> fromVarint (b ++ replicate k 0) = Some r.
Proof.
  revert r. induction b as [|v b IH]; intros r; [discriminate|].
  rewrite <- app_comm_cons. cbn [fromVarint].
  rewrite !(at0_padded (v :: b) k).
  destruct ((v .& 0x80) =? 0); [auto|].
  destruct ((v .& 0xC0) =? 0x80); [auto|].
  destruct ((v .& 0xF0) =? 0xF0); [|auto].
  cbv zeta.
  destruct ((v .& 0xFC) =? 0xF0); [auto|].
  destruct ((v .& 0xFC) =? 0xF8); [|auto].
  destruct (fromVarint b) as [[value len]|]; [|discriminate].
  rewrite (IH _ eq_refl). auto.
Qed.

End VarintEdges.

(** A five-byte form cut after its first byte. *)
Lemma fromVarint_zero_padding_witness :
  Varint.fromVarint [0xF0] = Some (0, 5) /\
  Varint.fromVarint ([0xF0] ++ replicate 4 0) = Some (0, 5).
Proof.
  split; [reflexivity|].
  apply (fromVarint_zero_padding [0xF0] 4 (0, 5)). reflexivity.
Defined.

Lemma varint_round_trip_signed_witness :
  - 2 ^ 31 <= -300 < 2 ^ 31 /\
  exists bs,
    Varint.bytes_of (Varint.toVarint (-300)) = Some bs /\
    Forall JS.is_byte bs /\ (1 <= length bs <= 6)%nat /\
    Varint.fromVarint (bs ++ [7; 7]) = Some (-300, Z.of_nat (length bs)).
Proof.
  assert (H : - 2 ^ 31 <= -300 < 2 ^ 31) by lia.
  split; [exact H|]. exact (varint_round_trip_signed (-300) [7; 7] H).
Defined.

Lemma fromVarint_null_iff_witness :
  Forall JS.is_byte [0xF8; 0xF9; 0xF5; 1] /\
  (Varint.fromVarint [0xF8; 0xF9; 0xF5; 1] = None <->
   exists negs rest,
     [0xF8; 0xF9; 0xF5; 1] = negs ++ rest /\
     Forall (fun v => v .& 0xFC = 0xF8) negs /\
     match rest with
     | [] => True
     | v :: _ => v .& 0xFC = 0xF4
     end).
Proof.
  assert (H : Forall JS.is_byte [0xF8; 0xF9; 0xF5; 1]).
  { repeat constructor; unfold JS.is_byte; lia. }
  split; [exact H|]. exact (fromVarint_null_iff [0xF8; 0xF9; 0xF5; 1] H).
Defined.

Lemma varint_round_trip_upper_half_witness :
  2 ^ 31 <= 4294967295 < 2 ^ 32 /\
  exists bs,
    Varint.bytes_of (Varint.toVarint 4294967295) = Some bs /\
    Varint.fromVarint bs = Some (4294967295 - 2 ^ 32, 5).
Proof.
  assert (H : 2 ^ 31 <= 4294967295 < 2 ^ 32) by lia.
  split; [exact H|]. exact (varint_round_trip_upper_half 4294967295 H).
Defined.

(** ** Voice packets *)

Section VoiceFacts.
Import JS Varint Voice Samples.

(** The frame loop never runs out of turns. *)
Lemma celt_loop_fuel fuel chunk offset fs :
  0 <= offset -> (0 < fuel)%nat ->
  Z.of_nat (length chunk) - offset < Z.of_nat fuel ->
  celt_loop fuel chunk offset fs <> None.
Proof.
  revert offset fs. induction fuel as [|fuel IH]; intros offset fs Ho Hpos Hf; [lia|].
  cbn [celt_loop].
  destruct (Z.ltb_spec (Z.of_nat (length chunk)) (offset + 1)); [discriminate|].
  destruct (_ =? 0); [discriminate|].
  destruct (Z.ltb_spec (Z.of_nat (length chunk))
              (offset + 1 + (at0 chunk (Z.to_nat offset) .& 127))); [discriminate|].
  destruct (negb _); [discriminate|].
  assert (0 <= at0 chunk (Z.to_nat offset) .& 127)
    by (unfold band; apply Z.land_nonneg; right; rewrite toInt32_small; lia).
  apply IH; lia.
Qed.

Lemma celt_loop_total chunk offset :
  0 <= offset -> celt_loop (S (length chunk)) chunk offset [] <> None.
Proof. intros Ho. apply celt_loop_fuel; lia. Qed.

(** [X9] For the codec ids that the decoder can dispatch on, malformed
    or not, a chunk ends in a packet or in a drop announced by one [debug]
    event; no error reaches the callback. *)
Lemma decoder_tolerant orig chunk :
  chunk = [] \/ at0 chunk 0 >> 5 = 0 \/ at0 chunk 0 >> 5 = 1 \/ at0 chunk 0 >> 5 = 4 ->
  (exists p, Decoder_transform orig chunk = {| events := []; cb := CbData p |}) \/
  (exists reason, Decoder_transform orig chunk = reject chunk reason).
Proof.
  intros Hc. unfold Decoder_transform.
  destruct (Nat.eqb_spec (length chunk) 0) as [|Hlen]; [right; eauto|].
  destruct Hc as [->|Hc]; [cbn in Hlen; lia|].
  destruct (Z.eqb_spec (at0 chunk 0 >> 5) 1) as [|Hne1].
  { destruct (fromVarint _) as [[? ?]|]; [left|right]; eauto. }
  set (src := match orig with server => _ | client => _ end).
  destruct src as [[src offset]|]; [|right; eauto].
  destruct (fromVarint _) as [[seq len]|]; [|right; eauto].
  unfold decode_frames.
  destruct (Z.eqb_spec (at0 chunk 0 >> 5) 4) as [|Hne4].
  { destruct (fromVarint _) as [[value vlen]|]; [|right; eauto].
    destruct (_ <? _); [right|left]; eauto. }
  assert (H0 : at0 chunk 0 >> 5 = 0) by tauto. rewrite H0.
  cbn [celt_test Z.eqb].
  destruct (celt_loop _ _ _ _) as [[fs e o|reason]|]; [left|right|right]; eauto.
Qed.

(** [C3] An Opus packet with a position, encoded for the server and
    decoded as coming from a client, does not come back as it was,
    whichever way the return value of the buffer's write methods is read.
    With the documented one, [offset] runs ahead of the bytes written and
    the third float no longer fits: the encoder throws.  Were the result
    the number of bytes written, the packet would be encoded, but the
    decoder wants more than 12 bytes after the frames where the encoder
    writes exactly 12, and the packet comes back without its position.
    A Speex packet does not come back either: the decoder ends in a
    [ReferenceError]. *)
Theorem voice_round_trip_breaks :
  (forall conv,
     round_trip conv to_server opus_with_position <>
       Some (delivered (normalised to_server opus_with_position))) /\
  Encoder_transform EndOffset zeroed server (Voice opus_with_position) = Escaped /\
  round_trip BytesWritten to_server opus_with_position =
    Some (delivered (normalised to_server opus_without_position)) /\
  (forall conv,
     round_trip conv to_server (two_frames Speex) =
       Some {| events := []; cb := CbError (ReferenceError "codecIf") |}).
Proof.
  split_ands.
  - intros []; vm_compute; discriminate.
  - vm_compute; reflexivity.
  - vm_compute; reflexivity.
  - intros []; vm_compute; reflexivity.
Qed.

(** [C6] Well-formed packets with codec ids 2 (Speex) and 3 (CELT_Beta)
    are not decoded: evaluating the misspelt [codecIf] throws, and the
    error goes to the callback.  The same bytes with codec id 0 give the
    two frames and [end = false]. *)
Theorem celt_decoding_by_codec_id :
  (forall conv,
     Encoder_transform conv zeroed server (Voice (two_frames Speex))
       = Pushed (two_frames_wire 2) /\
     Encoder_transform conv zeroed server (Voice (two_frames CELT_Beta))
       = Pushed (two_frames_wire 3)) /\
  Decoder_transform client (two_frames_wire 2) =
    {| events := []; cb := CbError (ReferenceError "codecIf") |} /\
  Decoder_transform client (two_frames_wire 3) =
    {| events := []; cb := CbError (ReferenceError "codecIf") |} /\
  Decoder_transform client (two_frames_wire 0) =
    delivered (normalised to_server (two_frames CELT_Alpha)).
Proof.
  split_ands; try (vm_compute; reflexivity).
  intros []; split; vm_compute; reflexivity.
Qed.

(** [C7] A packet with the unknown codec id 5 raises no [debug] event and
    is not dropped in silence: the [ReferenceError] thrown by the test
    before the unknown-codec branch is handed to the callback. *)
Theorem unknown_codec_surfaces_error :
  at0 unknown_codec_wire 0 >> 5 = 5 /\
  Decoder_transform client unknown_codec_wire =
    {| events := []; cb := CbError (ReferenceError "codecIf") |} /\
  Decoder_transform server (0xA0 :: 0x07 :: 0x00 :: []) =
    {| events := []; cb := CbError (ReferenceError "codecIf") |}.
Proof. repeat split; reflexivity. Qed.

End VoiceFacts.

(** ** Voice packets: the frame loop against its description *)

Section FrameLoop.
Import JS Varint Voice.

Lemma band_nonneg a m : 0 <= m < 2 ^ 31 -> 0 <= a .& m.
Proof.
  intros Hm. unfold band. apply Z.land_nonneg. right.
  rewrite toInt32_small; lia.
Qed.

Lemma band_0x80_test h : is_byte h -> (0 <? h .& 0x80) = negb ((h .& 0x80) =? 0).
Proof.
  intros Hh.
  pose proof (all_bytes (fun h => Bool.eqb (0 <? h .& 0x80) (negb ((h .& 0x80) =? 0)))
                eq_refl h Hh) as H.
  apply Bool.eqb_prop in H. exact H.
Qed.

(** The loop of the decoder, which walks an offset through the chunk,
    computes what the described loop computes on the bytes from the
    offset on. *)
Lemma celt_loop_refines fuel :
  forall chunk offset fs,
    Forall is_byte chunk -> (offset <= length chunk)%nat ->
    match continuation_loop fuel (drop offset chunk) fs with
    | None => celt_loop fuel chunk (Z.of_nat offset) fs = None
    | Some (Framed fs' e rest) =>
      celt_loop fuel chunk (Z.of_nat offset) fs =
        Some (Frames fs' e (Z.of_nat (length chunk - length rest)))
    | Some Malformed =>
      exists reason,
        celt_loop fuel chunk (Z.of_nat offset) fs = Some (NoFrames reason)
    end.
Proof.
  induction fuel as [|fuel IH]; intros chunk offset fs Hb Ho; [reflexivity|].
  cbn [continuation_loop celt_loop].
  destruct (drop offset chunk) as [|h bytes] eqn:Hd.
  - assert (offset = length chunk).
    { apply (f_equal length) in Hd. rewrite length_drop in Hd. cbn in Hd. lia. }
    subst offset.
    destruct (Z.ltb_spec (Z.of_nat (length chunk)) (Z.of_nat (length chunk) + 1)); [|lia].
    eauto.
  - assert (Hlen : length chunk = (offset + S (length bytes))%nat).
    { apply (f_equal length) in Hd. rewrite length_drop in Hd. cbn in Hd. lia. }
    destruct (Z.ltb_spec (Z.of_nat (length chunk)) (Z.of_nat offset + 1)); [lia|].
    rewrite Nat2Z.id.
    assert (Hh : at0 chunk offset = h).
    { rewrite <- (Nat.add_0_r offset), <- at0_drop, Hd. reflexivity. }
    rewrite Hh.
    assert (Hhb : is_byte h) by (rewrite <- Hh; apply at0_byte; exact Hb).
    assert (Hrest : drop (S offset) chunk = bytes).
    { replace (S offset) with (offset + 1)%nat by lia.
      rewrite <- drop_drop, Hd. reflexivity. }
    destruct (Z.eqb_spec h 0) as [_|_].
    + f_equal. f_equal. lia.
    + pose proof (band_nonneg h 0x7F ltac:(lia)) as Hn.
      set (n := Z.to_nat (h .& 0x7F)).
      assert (Hnz : h .& 0x7F = Z.of_nat n) by (unfold n; lia).
      rewrite Hnz.
      destruct (Nat.ltb_spec (length bytes) n) as [Hshort|Henough];
        (destruct (Z.ltb_spec (Z.of_nat (length chunk)) (Z.of_nat offset + 1 + Z.of_nat n));
         try lia).
      { eauto. }
      replace (Z.to_nat (Z.of_nat offset + 1)) with (S offset) by lia.
      replace (Z.to_nat (Z.of_nat offset + 1 + Z.of_nat n)) with (S offset + n)%nat by lia.
      unfold slice. replace (S offset + n - S offset)%nat with n by lia.
      rewrite Hrest. rewrite band_0x80_test by exact Hhb. rewrite negb_involutive.
      destruct ((h .& 0x80) =? 0).
      * f_equal. f_equal. rewrite length_drop. lia.
      * replace (Z.of_nat offset + 1 + Z.of_nat n) with (Z.of_nat (S offset + n)) by lia.
        specialize (IH chunk (S offset + n)%nat (fs ++ [take n bytes]) Hb ltac:(lia)).
        rewrite <- drop_drop, Hrest in IH. exact IH.
Qed.

(** With codec id 0 the decoder builds its packet from the frames and
    the end flag of the described loop, or drops the chunk where the loop
    runs out of bytes. *)
Lemma decode_frames_celt_alpha chunk offset tgt src seq :
  Forall is_byte chunk -> (offset <= length chunk)%nat ->
  match continuation_loop (S (length chunk)) (drop offset chunk) [] with
  | Some (Framed fs e rest) =>
    decode_frames chunk 0 (Z.of_nat offset) tgt src seq =
      delivered {| target := tgt; psource := src; pseqNum := seq;
                   pend := e; pframes := fs; pcodec := "CELT_Alpha";
                   pposition :=
                     decode_position chunk (Z.of_nat (length chunk - length rest)) |}
  | _ =>
    exists reason, decode_frames chunk 0 (Z.of_nat offset) tgt src seq = reject chunk reason
  end.
Proof.
  intros Hb Ho.
  pose proof (celt_loop_refines (S (length chunk)) chunk offset [] Hb Ho) as H.
  unfold decode_frames.
  change (0 =? 4) with false. change (celt_test 0) with (@inr exn bool true). cbv iota.
  destruct (continuation_loop _ _ _) as [[fs e rest|]|].
  - rewrite H. reflexivity.
  - destruct H as [reason ->]. eauto.
  - rewrite H. eauto.
Qed.

End FrameLoop.

(** ** Voice packets: what the encoder writes *)

Section EncoderFacts.
Import JS Varint Voice.

Variable conv : write_return.
Variable alloc : nat -> list Z.
Hypothesis alloc_length : forall n, length (alloc n) = n.

(** The only forms of [toVarint]'s result without a [value] are the bare
    buffer of -1 to -4 and the exception from [2^32] on. *)
Lemma toVarint_value i :
  - 2 ^ 31 <= i < 2 ^ 31 -> ~ (-4 <= i <= -1) ->
  value_of (toVarint i) = bytes_of (toVarint i).
Proof.
  intros Hi Hn. destruct (Z.lt_ge_cases i 0) as [Hneg|Hpos].
  - rewrite toVarint_neg by exact Hneg. rewrite bnot_small by lia.
    destruct (Z.leb_spec (- i - 1) 3); [lia|].
    destruct (pushes _); reflexivity.
  - rewrite toVarint_nonneg by exact Hpos. destruct (pushes _); reflexivity.
Qed.

Lemma toVarint_no_value i :
  2 ^ 32 <= i \/ -4 <= i <= -1 -> value_of (toVarint i) = None.
Proof.
  intros [Hi|Hi].
  - rewrite toVarint_nonneg by lia. unfold pushes.
    repeat match goal with
           | |- context [i <? ?c] => destruct (Z.ltb_spec i c); [lia|]
           end.
    reflexivity.
  - assert (i = -4 \/ i = -3 \/ i = -2 \/ i = -1) as [->|[->|[->| ->]]] by lia;
      reflexivity.
Qed.

(** The first write, at offset 0, advances the offset by one byte under
    either reading of the value returned. *)
Lemma writeUInt8_first value b :
  0 <= value <= 255 -> (1 <= length b)%nat ->
  exists c,
    writeUInt8 conv value {| buffer := b; offset := 0 |} = Some c /\
    offset c = 1 /\ take 1 (buffer c) = [value] /\ length (buffer c) = length b.
Proof.
  intros Hv Hl. unfold writeUInt8. cbn [buffer offset].
  destruct (Z.leb_spec 0 value); [|lia].
  destruct (Z.leb_spec value 255); [|lia].
  destruct (Z.leb_spec (0 + 1) (Z.of_nat (length b))); [|lia].
  cbn [andb]. eexists; split; [reflexivity|]. cbn [buffer offset].
  split; [unfold returned; destruct conv; reflexivity|].
  split; [|apply length_insert].
  destruct b as [|x b]; [cbn in Hl; lia|]. reflexivity.
Qed.

(** A copy that fits extends what has been written so far. *)
Lemma copy_at_written src c w :
  offset c = Z.of_nat (length w) -> take (length w) (buffer c) = w ->
  (length w + length src <= length (buffer c))%nat ->
  offset (copy_at src c) = Z.of_nat (length (w ++ src)) /\
  take (length (w ++ src)) (buffer (copy_at src c)) = w ++ src /\
  length (buffer (copy_at src c)) = length (buffer c).
Proof.
  intros Ho Hw Hfit. unfold copy_at, copy. cbn [buffer offset].
  rewrite Ho, Nat2Z.id.
  replace (Nat.min (Nat.min (length src) (length src) - 0)
             (length (buffer c) - length w)) with (length src) by lia.
  rewrite drop_0, (take_ge src) by lia. rewrite Hw.
  split; [rewrite length_app; lia|]. split.
  - rewrite app_assoc. apply take_app_length.
  - rewrite !length_app, length_drop.
    assert (length w <= length (buffer c))%nat by lia.
    rewrite <- Hw at 1. rewrite length_take. lia.
Qed.

Lemma trimmed_written c w :
  offset c = Z.of_nat (length w) -> take (length w) (buffer c) = w -> trimmed c = w.
Proof.
  intros Ho Hw. unfold trimmed, slice. rewrite Ho, Nat2Z.id, Nat.sub_0_r, drop_0.
  exact Hw.
Qed.

(** The header byte holds the codec id in its three high bits and the
    mode in the five low ones. *)
Lemma header_byte c m :
  0 <= c <= 7 -> 0 <= m <= 31 ->
  let h := (c << 5) .| m in
  0 <= h <= 255 /\ h >> 5 = c /\ h .& 0x1f = m.
Proof.
  intros Hc Hm.
  assert (c = 0 \/ c = 1 \/ c = 2 \/ c = 3 \/ c = 4 \/ c = 5 \/ c = 6 \/ c = 7)
    as Hcs by lia.
  pose proof (all_bytes
    (fun m => implb (m <=? 31)
       (forallb (fun c => let h := (c << 5) .| m in
                   (0 <=? h) && (h <=? 255) && (h >> 5 =? c) && (h .& 0x1f =? m))
                (seqZ 0 8)))
    eq_refl m ltac:(unfold is_byte; lia)) as H.
  cbv beta in H. destruct (Z.leb_spec m 31); [|lia]. cbn [implb] in H.
  rewrite forallb_forall in H.
  specialize (H c ltac:(apply list_elem_of_In, elem_of_seqZ; lia)).
  cbv zeta in H.
  repeat (apply andb_true_iff in H; let H' := fresh "T" in destruct H as [H H']).
  cbv zeta. lia.
Qed.

(** A field that [toVarint] encodes with a [value]: its bytes, which
    [fromVarint] reads back whatever follows them. *)
Lemma encodable_field i :
  - 2 ^ 31 <= i < 2 ^ 31 -> ~ (-4 <= i <= -1) ->
  exists bs,
    value_of (toVarint i) = Some bs /\ (1 <= length bs <= 6)%nat /\
    Forall is_byte bs /\
    forall rest, fromVarint (bs ++ rest) = Some (i, Z.of_nat (length bs)).
Proof.
  intros Hi Hn. rewrite toVarint_value by assumption.
  destruct (varint_round_trip_int32 i [] Hi) as (bs & Hbs & _).
  exists bs. split; [exact Hbs|]. split; [apply (toVarint_bytes i), Hbs|].
  split; [apply (toVarint_bytes i), Hbs|].
  intros rest. destruct (varint_round_trip_int32 i rest Hi) as (bs' & Hbs' & Hd).
  rewrite Hbs in Hbs'. injection Hbs' as <-. exact Hd.
Qed.

(** The fields in front of the voice section, and the decoder's way
    through them: a packet without a position is pushed as the header
    byte, the source on the way to a client, the sequence number and the
    voice section; the decoder finds the section where it starts. *)
Lemma voice_front d v voiceData :
  0 <= mode v <= 31 -> position v = None ->
  - 2 ^ 31 <= seqNum v < 2 ^ 31 -> ~ (-4 <= seqNum v <= -1) ->
  (d = to_client ->
   exists s, source v = Some s /\ - 2 ^ 31 <= s < 2 ^ 31 /\ ~ (-4 <= s <= -1)) ->
  exists chunk front,
    (exists c, fill_voice conv alloc (dest_of d) v voiceData = Some c /\
               trimmed c = chunk) /\
    chunk = front ++ voiceData /\ (1 <= length front)%nat /\
    Forall is_byte front /\
    Decoder_transform (orig_of d) chunk =
      decode_frames chunk (codecId_of (codec v)) (Z.of_nat (length front))
        (target_of (mode v))
        (match d with to_client => source v | to_server => None end)
        (seqNum v).
Proof using alloc_length.
  intros Hm Hp Hs Hsn Hsrc.
  destruct (encodable_field (seqNum v) Hs Hsn) as (seq & Hseq & Hlseq & Bseq & Dseq).
  assert (Hc : 0 <= codecId_of (codec v) <= 7 /\ codecId_of (codec v) <> 1)
    by (destruct (codec v); cbn; lia).
  destruct Hc as [Hc Hc1].
  destruct (header_byte (codecId_of (codec v)) (mode v) Hc Hm) as (Hh & Hid & Htg).
  set (h := (codecId_of (codec v) << 5) .| mode v) in *.
  assert (Hsrcb : exists src,
             (1 + length src <= 7)%nat /\ Forall is_byte src /\
             match d with
             | to_client => varint_value (source v) = Some src
             | to_server => src = []
             end /\
             forall rest,
               match d with
               | to_client =>
                 exists s, source v = Some s /\
                   fromVarint (src ++ rest) = Some (s, Z.of_nat (length src))
               | to_server => True
               end).
  { destruct d.
    - exists []. cbn. split; [lia|]. auto.
    - destruct (Hsrc eq_refl) as (s & Es & Hsr & Hsb).
      destruct (encodable_field s Hsr Hsb) as (src & Hv & Hl & Bsrc & Dsrc).
      exists src. rewrite Es. cbn [varint_value]. split; [lia|]. split; [exact Bsrc|].
      split; [exact Hv|].
      intros rest. exists s. auto. }
  destruct Hsrcb as (src & Hlsrc & Bsrc & Esrc & Dsrc).
  exists ((h :: src ++ seq) ++ voiceData), (h :: src ++ seq).
  split; [|split; [reflexivity|split; [cbn; lia|split]]].
  2:{ constructor; [unfold is_byte; lia|]. apply Forall_app. auto. }
  - (* the encoder *)
    unfold fill_voice. fold h.
    destruct (writeUInt8_first h (alloc (1 + 9 + 9 + length voiceData + 3 * 4)) Hh)
      as (c1 & -> & Ho1 & Ht1 & Hl1); [rewrite alloc_length; lia|].
    rewrite alloc_length in Hl1. cbn [mbind option_bind].
    assert (Hc2 : exists c2,
               match dest_of d with
               | server => Some c1
               | client => varint_value (source v) ≫= λ value, Some (copy_at value c1)
               end = Some c2 /\
               offset c2 = Z.of_nat (length (h :: src)) /\
               take (length (h :: src)) (buffer c2) = h :: src /\
               length (buffer c2) = length (buffer c1)).
    { destruct d; cbn [dest_of].
      - subst src. exists c1. auto.
      - rewrite Esrc. cbn [mbind option_bind].
        destruct (copy_at_written src c1 [h]) as (A & B & C);
          [exact Ho1 | exact Ht1 | cbn; lia |].
        eexists; split; [reflexivity|]. auto. }
    destruct Hc2 as (c2 & -> & Ho2 & Ht2 & Hl2). cbn [mbind option_bind].
    cbn [varint_value]. rewrite Hseq. cbn [mbind option_bind].
    destruct (copy_at_written seq c2 (h :: src)) as (Ho3 & Ht3 & Hl3);
      [exact Ho2 | exact Ht2 | cbn [length] in *; lia |].
    destruct (copy_at_written voiceData (copy_at seq c2) ((h :: src) ++ seq))
      as (Ho4 & Ht4 & Hl4);
      [exact Ho3 | exact Ht3 | rewrite length_app; cbn [length] in *; lia |].
    rewrite Hp. cbn [write_position].
    eexists; split; [reflexivity|].
    rewrite <- app_assoc in Ho4, Ht4.
    rewrite (trimmed_written _ _ Ho4 Ht4). rewrite <- !app_comm_cons, <- app_assoc.
    reflexivity.
  - (* the decoder *)
    unfold Decoder_transform. rewrite <- !app_comm_cons. cbn [length Nat.eqb].
    change (at0 (h :: (src ++ seq) ++ voiceData) 0) with h.
    rewrite Hid, Htg.
    destruct (Z.eqb_spec (codecId_of (codec v)) 1) as [|_]; [contradiction|].
    change (slice_from (h :: (src ++ seq) ++ voiceData) (Z.to_nat 1))
      with ((src ++ seq) ++ voiceData).
    destruct d; cbn [orig_of].
    + subst src. cbn [app].
      change (slice_from (h :: seq ++ voiceData) (Z.to_nat 1)) with (seq ++ voiceData).
      rewrite Dseq. cbn [length]. f_equal. lia.
    + destruct (Dsrc (seq ++ voiceData)) as (s & Es & Ds).
      rewrite <- app_assoc, Ds.
      replace (slice_from (h :: src ++ seq ++ voiceData)
                 (Z.to_nat (1 + Z.of_nat (length src))))
        with (seq ++ voiceData).
      2:{ unfold slice_from. replace (Z.to_nat (1 + Z.of_nat (length src)))
            with (S (length src)) by lia.
          cbn [drop]. rewrite drop_app_length. reflexivity. }
      rewrite Dseq, Es. cbn [length]. rewrite length_app. f_equal. lia.
Qed.

End EncoderFacts.

(** ** Voice packets: round trips *)

Section VoiceRoundTrip.
Import JS Varint Voice.

Variable conv : write_return.
Variable alloc : nat -> list Z.
Hypothesis alloc_length : forall n, length (alloc n) = n.

(** [X5] A ping whose timestamp [toVarint] encodes with a [value] is
    pushed as the byte [0x20] followed by the varint, and the decoder of
    either side reads the timestamp back. *)
Theorem ping_round_trip dest orig t :
  - 2 ^ 31 <= t < 2 ^ 31 -> ~ (-4 <= t <= -1) ->
  exists bytes,
    bytes_of (toVarint t) = Some bytes /\
    Encoder_transform conv alloc dest (PingData t) = Pushed (0x20 :: bytes) /\
    Decoder_transform orig (0x20 :: bytes) = {| events := []; cb := CbData (Ping t) |}.
Proof using alloc_length.
  intros Ht Hn.
  destruct (encodable_field t Ht Hn) as (bs & Hv & Hl & _ & Hd).
  exists bs. split; [rewrite <- toVarint_value by assumption; exact Hv|]. split.
  - cbn [Encoder_transform]. unfold fill_ping.
    destruct (writeUInt8_first conv 0x20 (alloc (1 + 9)) ltac:(lia))
      as (c1 & -> & Ho1 & Ht1 & Hl1); [rewrite alloc_length; lia|].
    rewrite alloc_length in Hl1. cbn [mbind option_bind]. rewrite Hv.
    cbn [mbind option_bind].
    destruct (copy_at_written bs c1 [0x20]) as (Ho2 & Ht2 & _);
      [exact Ho1 | exact Ht1 | cbn [length]; lia |].
    rewrite (trimmed_written _ _ Ho2 Ht2). reflexivity.
  - unfold Decoder_transform. cbn [length Nat.eqb].
    change (at0 (32 :: bs) 0 >> 5 =? 1) with true. cbv iota.
    change (slice_from (32 :: bs) 1) with bs.
    rewrite <- (app_nil_r bs) at 1. rewrite Hd. reflexivity.
Qed.

(** [X6] A timestamp, sequence number or source that [toVarint] does
    not encode with a [value], one from [2^32] on or one of -1 to -4, or a
    source that is missing on a packet for a client, makes an exception
    escape from the encoder: nothing is pushed and the callback is not
    called with a buffer. *)
Theorem encoder_field_out_of_range dest chunk :
  match chunk with
  | PingData t => 2 ^ 32 <= t \/ -4 <= t <= -1
  | Voice v =>
    (2 ^ 32 <= seqNum v \/ -4 <= seqNum v <= -1) \/
    dest = client /\
    match source v with
    | Some s => 2 ^ 32 <= s \/ -4 <= s <= -1
    | None => True
    end
  end ->
  forall bytes, Encoder_transform conv alloc dest chunk <> Pushed bytes.
Proof.
  intros H bytes. destruct chunk as [t|v]; cbn [Encoder_transform].
  - unfold fill_ping. destruct (writeUInt8 _ _ _) as [c|]; cbn [mbind option_bind];
      [|discriminate].
    rewrite (toVarint_no_value t H). discriminate.
  - destruct (encode_voiceData v) as [voiceData| |]; try discriminate.
    unfold fill_voice. destruct (writeUInt8 _ _ _) as [c|]; cbn [mbind option_bind];
      [|discriminate].
    destruct H as [H|[-> H]].
    + destruct (match dest with server => _ | client => _ end) as [c2|];
        cbn [mbind option_bind]; [|discriminate].
      cbn [varint_value]. rewrite (toVarint_no_value _ H). discriminate.
    + assert (Hs : varint_value (source v) = None).
      { destruct (source v) as [s|]; [|reflexivity]. apply toVarint_no_value, H. }
      rewrite Hs. discriminate.
Qed.

(** The length field of an Opus packet: 13 bits of length under the
    end bit. *)
Lemma band_bit a k :
  0 <= a < 2 ^ 31 -> 0 <= k < 31 ->
  a .& 2 ^ k = if Z.testbit a k then 2 ^ k else 0.
Proof.
  intros Ha Hk. unfold band.
  assert (0 < 2 ^ k <= 2 ^ 30) by (split; [lia | apply Z.pow_le_mono_r; lia]).
  rewrite !toInt32_small by lia.
  apply Z.bits_inj'. intros n Hn. rewrite Z.land_spec, Z.pow2_bits_eqb by lia.
  destruct (Z.eqb_spec k n) as [<-|Hne].
  - rewrite andb_true_r. destruct (Z.testbit a k) eqn:E.
    + rewrite Z.pow2_bits_true by lia. reflexivity.
    + rewrite Z.bits_0. reflexivity.
  - rewrite andb_false_r. destruct (Z.testbit a k).
    + rewrite Z.pow2_bits_false by lia. reflexivity.
    + rewrite Z.bits_0. reflexivity.
Qed.

Lemma opus_length_field len (e : bool) :
  0 <= len < 8192 ->
  let x := len .| (if e then 0x2000 else 0) in
  - 2 ^ 31 <= x < 2 ^ 31 /\ ~ (-4 <= x <= -1) /\
  (0 <? x .& 0x2000) = e /\ x .& 0x1fff = len.
Proof.
  intros Hlen.
  assert (Hx : len .| (if e then 0x2000 else 0) = len + (if e then 8192 else 0)).
  { destruct e.
    - assert (E : len .| 8192 = (1 * 2 ^ 13) .| len) by (unfold bor; apply Z.lor_comm).
      rewrite E, (bor_add 1 len 13) by lia. lia.
    - unfold bor. rewrite !toInt32_small by lia. rewrite Z.lor_0_r. lia. }
  cbv zeta. rewrite Hx. set (x := len + (if e then 8192 else 0)).
  assert (Hxr : 0 <= x < 16384) by (subst x; destruct e; lia).
  split; [lia|]. split; [lia|]. split.
  - change 8192 with (2 ^ 13). rewrite (band_bit x 13) by lia.
    assert (Hb : Z.testbit x 13 = e).
    { subst x. destruct e.
      - apply Z.testbit_true; [lia|].
        replace (len + 8192) with (len + 1 * 2 ^ 13) by lia.
        rewrite Z.div_add by lia. rewrite Z.div_small by lia. reflexivity.
      - apply Z.testbit_false; [lia|]. rewrite Z.add_0_r, Z.div_small by lia.
        reflexivity. }
    rewrite Hb. destruct e; reflexivity.
  - change 8191 with (2 ^ 13 - 1). rewrite (band_low x 13) by lia.
    subst x. destruct e.
    + replace (len + 8192) with (len + 1 * 2 ^ 13) by lia.
      rewrite Z.mod_add by lia. apply Z.mod_small. lia.
    + rewrite Z.add_0_r. apply Z.mod_small. lia.
Qed.

Lemma no_position_at_end chunk :
  decode_position chunk (Z.of_nat (length chunk)) = None.
Proof.
  unfold decode_position.
  destruct (Z.ltb_spec (Z.of_nat (length chunk) + 12) (Z.of_nat (length chunk)));
    [lia|reflexivity].
Qed.

(** [X7] An Opus packet without a position, with no frame or with one
    frame of 1 to 8191 bytes, a mode from 0 to 31 and fields that
    [toVarint] encodes with a [value], comes back from the decoder as it
    went into the encoder, in both directions. *)
Theorem opus_round_trip d v :
  codec v = Opus -> position v = None ->
  0 <= mode v <= 31 ->
  - 2 ^ 31 <= seqNum v < 2 ^ 31 -> ~ (-4 <= seqNum v <= -1) ->
  (d = to_client ->
   exists s, source v = Some s /\ - 2 ^ 31 <= s < 2 ^ 31 /\ ~ (-4 <= s <= -1)) ->
  (frames v = [] \/
   exists frame, frames v = [frame] /\ Forall is_byte frame /\
                 1 <= Z.of_nat (length frame) < 8192) ->
  exists bytes,
    Encoder_transform conv alloc (dest_of d) (Voice v) = Pushed bytes /\
    Decoder_transform (orig_of d) bytes = delivered (normalised d v).
Proof using alloc_length.
  intros Hcodec Hpos Hm Hs Hsn Hsrc Hfr.
  (* the voice section *)
  assert (Hvd : exists frame lenb,
             (frames v = [] /\ frame = [] \/ frames v = [frame] /\ (1 <= length frame)%nat) /\
             Z.of_nat (length frame) < 8192 /\
             encode_voiceData v = Pushed (lenb ++ frame) /\
             (1 <= length lenb <= 6)%nat /\
             forall rest,
               fromVarint (lenb ++ rest) =
                 Some (Z.of_nat (length frame) .| (if end_ v then 0x2000 else 0),
                       Z.of_nat (length lenb))).
  { unfold encode_voiceData. rewrite Hcodec.
    destruct Hfr as [E|(frame & E & Hb & Hl)]; rewrite E.
    - destruct (opus_length_field 0 (end_ v) ltac:(lia)) as (Hr & Hn & _).
      cbv zeta in Hr, Hn.
      assert (E0 : 0 .| (if end_ v then 8192 else 0) = if end_ v then 8192 else 0)
        by (destruct (end_ v); reflexivity).
      rewrite E0 in Hr, Hn.
      destruct (encodable_field _ Hr Hn) as (bs & Hv & Hlb & _ & Hd).
      exists [], bs. change (Z.of_nat (length (@nil Z))) with 0. rewrite E0.
      split; [auto|]. split; [lia|].
      change (1 <? Z.of_nat (length (@nil (list Z)))) with false. cbv iota.
      rewrite Hv, app_nil_r. auto.
    - destruct (opus_length_field (Z.of_nat (length frame)) (end_ v) ltac:(lia))
        as (Hr & Hn & _).
      cbv zeta in Hr, Hn.
      destruct (encodable_field _ Hr Hn) as (bs & Hv & Hlb & _ & Hd).
      exists frame, bs. split; [right; split; [reflexivity|lia]|]. split; [lia|].
      cbn [length]. change (1 <? Z.of_nat 1) with false. cbv iota.
      destruct (toVarint _) as [buf|value l|]; try discriminate Hv.
      cbn [value_of] in Hv. injection Hv as ->. auto. }
  destruct Hvd as (frame & lenb & Hframes & Hlf & Henc & Hllen & Hdec).
  destruct (voice_front conv alloc alloc_length d v (lenb ++ frame) Hm Hpos Hs Hsn Hsrc)
    as (chunk & front & (c & Hfill & Htrim) & Hchunk & Hlfront & _ & Hfront).
  exists chunk. split.
  { cbn [Encoder_transform]. rewrite Henc, Hfill, Htrim. reflexivity. }
  rewrite Hfront, Hcodec. cbn [codecId_of]. unfold decode_frames.
  change (4 =? 4) with true. cbv iota.
  assert (Hdrop : slice_from chunk (Z.to_nat (Z.of_nat (length front))) = lenb ++ frame).
  { unfold slice_from. rewrite Nat2Z.id, Hchunk. apply drop_app_length. }
  rewrite Hdrop, Hdec.
  destruct (opus_length_field (Z.of_nat (length frame)) (end_ v) ltac:(lia))
    as (_ & _ & He & Hlen).
  cbv zeta in He, Hlen. rewrite He, Hlen.
  assert (Hlc : length chunk = (length front + length lenb + length frame)%nat).
  { rewrite Hchunk, !length_app. lia. }
  destruct (Z.ltb_spec (Z.of_nat (length chunk))
              (Z.of_nat (length front) + Z.of_nat (length lenb) + Z.of_nat (length frame)));
    [lia|].
  replace (Z.of_nat (length front) + Z.of_nat (length lenb) + Z.of_nat (length frame))
    with (Z.of_nat (length chunk)) by lia.
  rewrite no_position_at_end.
  assert (Hvoice : slice chunk (Z.to_nat (Z.of_nat (length front) + Z.of_nat (length lenb)))
                     (Z.to_nat (Z.of_nat (length chunk))) = frame).
  { unfold slice.
    replace (Z.to_nat (Z.of_nat (length front) + Z.of_nat (length lenb)))
      with (length (front ++ lenb)) by (rewrite length_app; lia).
    rewrite Nat2Z.id, Hchunk, app_assoc, drop_app_length.
    apply take_ge. rewrite !length_app. lia. }
  rewrite Hvoice.
  unfold delivered, normalised. rewrite Hcodec, Hpos. cbn [codec_string].
  do 3 f_equal.
  destruct Hframes as [[-> ->]|[-> Hl1]]; [reflexivity|].
  destruct (Nat.eqb_spec (length frame) 0); [lia|reflexivity].
Qed.

(** The header of a frame of 1 to 127 bytes, with the continuation bit
    set and cleared. *)
Lemma frame_header n :
  1 <= n <= 127 ->
  let h := u8 (n .| 0x80) in
  is_byte h /\ (h =? 0) = false /\ h .& 0x7F = n /\ ((h .& 0x80) =? 0) = false /\
  u8 (h .& 0x7F) = n /\
  (n =? 0) = false /\ n .& 0x7F = n /\ ((n .& 0x80) =? 0) = true.
Proof.
  intros Hn.
  pose proof (all_bytes
    (fun n => implb ((1 <=? n) && (n <=? 127))
       (let h := u8 (n .| 0x80) in
        negb (h =? 0) && ((h .& 0x7F) =? n) && negb ((h .& 0x80) =? 0) &&
        (u8 (h .& 0x7F) =? n) && negb (n =? 0) && ((n .& 0x7F) =? n) &&
        ((n .& 0x80) =? 0)))
    eq_refl n ltac:(unfold is_byte; lia)) as H.
  cbv beta zeta in H.
  destruct (Z.leb_spec 1 n); [|lia]. destruct (Z.leb_spec n 127); [|lia].
  cbn [andb implb] in H.
  repeat (apply andb_true_iff in H; let H' := fresh "T" in destruct H as [H H']).
  repeat match goal with T : negb _ = true |- _ => apply negb_true_iff in T end.
  cbv zeta. split; [apply u8_is_byte|].
  split_ands; try assumption; apply Z.eqb_eq; assumption.
Qed.

Local Abbreviation framed :=
  (fun frame : list Z => [mkBuffer [Z.of_nat (length frame) .| 0x80]; frame]).

Local Abbreviation sound_frame :=
  (fun frame : list Z => Forall is_byte frame /\ 1 <= Z.of_nat (length frame) <= 127).

(** The voice section that the encoder builds for the codecs framed with
    continuation bits. *)
Lemma celt_voiceData_end fs :
  celt_voiceData fs true = concat (flat_map framed fs) ++ [0].
Proof.
  unfold celt_voiceData.
  replace (length (flat_map framed fs ++ [mkBuffer [0%Z]; mkBuffer []]) - 2)%nat
    with (length (flat_map framed fs) + 0)%nat by (rewrite length_app; cbn; lia).
  rewrite alter_app_r. rewrite concat_app. reflexivity.
Qed.

Lemma celt_voiceData_more fs frame :
  1 <= Z.of_nat (length frame) <= 127 ->
  celt_voiceData (fs ++ [frame]) false =
    concat (flat_map framed fs) ++ Z.of_nat (length frame) :: frame.
Proof.
  intros Hl. unfold celt_voiceData. rewrite flat_map_app. cbn [flat_map app].
  replace (length (flat_map framed fs ++ framed frame) - 2)%nat
    with (length (flat_map framed fs) + 0)%nat by (rewrite length_app; cbn; lia).
  rewrite alter_app_r. rewrite concat_app.
  cbn [alter list_alter concat mkBuffer map clear_continuation app].
  destruct (frame_header _ Hl) as (_ & _ & _ & _ & -> & _).
  rewrite app_nil_r. reflexivity.
Qed.

(** The described loop takes the frames with a continuation bit off the
    front of such a section, one per turn. *)
Lemma loop_frames fs :
  forall fuel acc tail,
    Forall sound_frame fs ->
    continuation_loop (length fs + fuel) (concat (flat_map framed fs) ++ tail) acc =
    continuation_loop fuel tail (acc ++ fs).
Proof.
  induction fs as [|frame fs IH]; intros fuel acc tail Hfs.
  - cbn. rewrite app_nil_r. reflexivity.
  - apply Forall_cons in Hfs as [[Hb Hl] Hfs].
    destruct (frame_header _ Hl) as (_ & T1 & T2 & T3 & _).
    cbn [length Nat.add flat_map app concat mkBuffer map continuation_loop].
    rewrite T1, T2, T3, Nat2Z.id.
    rewrite <- !app_assoc.
    match goal with
    | |- context [(?a <? ?b)%nat] => destruct (Nat.ltb_spec a b) as [Hlt|_]
    end; [rewrite length_app in Hlt; lia|].
    rewrite take_app_length, drop_app_length.
    rewrite IH by exact Hfs. rewrite <- app_assoc. reflexivity.
Qed.

Lemma length_framed fs : (length fs <= length (concat (flat_map framed fs)))%nat.
Proof.
  induction fs as [|frame fs IH]; [cbn; lia|].
  cbn [flat_map app concat]. rewrite !length_app, length_mkBuffer. cbn [length]. lia.
Qed.

Lemma framed_bytes fs : Forall sound_frame fs -> Forall is_byte (concat (flat_map framed fs)).
Proof.
  induction 1 as [|frame fs [Hb _] _ IH]; [constructor|].
  cbn [flat_map app concat]. apply Forall_app. split; [apply mkBuffer_bytes|].
  apply Forall_app. auto.
Qed.

(** A voice section of sound frames is read back by the described loop. *)
Lemma celt_voiceData_framing fs e fuel :
  Forall sound_frame fs -> (fs = [] -> e = true) -> (length fs < fuel)%nat ->
  Forall is_byte (celt_voiceData fs e) /\
  (length fs <= length (celt_voiceData fs e))%nat /\
  continuation_loop fuel (celt_voiceData fs e) [] = Some (Framed fs e []).
Proof.
  intros Hfs Hne Hfuel. destruct e.
  - rewrite celt_voiceData_end. split; [|split].
    + apply Forall_app. split; [apply framed_bytes; exact Hfs|].
      repeat constructor; unfold is_byte; lia.
    + rewrite length_app. pose proof (length_framed fs). lia.
    + replace fuel with (length fs + S (fuel - length fs - 1))%nat by lia.
      rewrite loop_frames by exact Hfs. reflexivity.
  - destruct (exists_last (l := fs)) as (fs' & frame & ->).
    { intros E. specialize (Hne E). discriminate. }
    apply Forall_app in Hfs as [Hfs' Hlast].
    apply Forall_cons in Hlast as [[Hb Hl] _].
    rewrite celt_voiceData_more by exact Hl.
    rewrite length_app in Hfuel. cbn [length] in Hfuel.
    destruct (frame_header _ Hl) as (_ & _ & _ & _ & _ & T1 & T2 & T3).
    split; [|split].
    + apply Forall_app. split; [apply framed_bytes; exact Hfs'|].
      constructor; [unfold is_byte; lia | exact Hb].
    + rewrite !length_app. cbn [length]. pose proof (length_framed fs'). lia.
    + replace fuel with (length fs' + S (fuel - length fs' - 1))%nat by lia.
      rewrite loop_frames by exact Hfs'.
      cbn [continuation_loop app]. rewrite T1, T2, T3, Nat2Z.id.
      destruct (Nat.ltb_spec (length frame) (length frame)); [lia|].
      rewrite take_ge, drop_ge by lia. reflexivity.
Qed.

(** [X8] A CELT_Alpha packet without a position, whose frames hold 1 to
    127 bytes each, with at least one frame or the end flag set, a mode
    from 0 to 31 and fields that [toVarint] encodes with a [value], comes
    back from the decoder as it went into the encoder, in both
    directions: same frames, same end flag. *)
Theorem celt_alpha_round_trip d v :
  codec v = CELT_Alpha -> position v = None ->
  0 <= mode v <= 31 ->
  - 2 ^ 31 <= seqNum v < 2 ^ 31 -> ~ (-4 <= seqNum v <= -1) ->
  (d = to_client ->
   exists s, source v = Some s /\ - 2 ^ 31 <= s < 2 ^ 31 /\ ~ (-4 <= s <= -1)) ->
  Forall (fun frame => Forall is_byte frame /\ 1 <= Z.of_nat (length frame) <= 127)
    (frames v) ->
  (frames v = [] -> end_ v = true) ->
  exists bytes,
    Encoder_transform conv alloc (dest_of d) (Voice v) = Pushed bytes /\
    Decoder_transform (orig_of d) bytes = delivered (normalised d v).
Proof using alloc_length.
  intros Hcodec Hpos Hm Hs Hsn Hsrc Hfs Hne.
  assert (Henc : encode_voiceData v = Pushed (celt_voiceData (frames v) (end_ v))).
  { unfold encode_voiceData. rewrite Hcodec.
    destruct (frames v) as [|f fs] eqn:E.
    - rewrite (Hne eq_refl). reflexivity.
    - change (Z.of_nat (length (f :: fs)) =? 0) with false. cbn [andb].
      assert (Hex : existsb (fun frame => 127 <? Z.of_nat (length frame)) (f :: fs) = false).
      { apply not_true_is_false. intros Hx. apply existsb_exists in Hx as (x & Hin & Hx).
        rewrite Forall_forall in Hfs. apply list_elem_of_In in Hin.
        destruct (Hfs x Hin) as [_ Hl]. destruct (Z.ltb_spec 127 (Z.of_nat (length x))); [lia|].
        discriminate. }
      rewrite Hex. reflexivity. }
  set (vd := celt_voiceData (frames v) (end_ v)) in *.
  destruct (voice_front conv alloc alloc_length d v vd Hm Hpos Hs Hsn Hsrc)
    as (chunk & front & (c & Hfill & Htrim) & Hchunk & Hlfront & Bfront & Hfront).
  exists chunk. split.
  { cbn [Encoder_transform]. rewrite Henc, Hfill, Htrim. reflexivity. }
  rewrite Hfront, Hcodec. cbn [codecId_of].
  destruct (celt_voiceData_framing (frames v) (end_ v) (S (length chunk)) Hfs Hne)
    as (Bvd & Hlvd & Hloop).
  { pose proof (celt_voiceData_framing (frames v) (end_ v) (S (length (frames v))) Hfs Hne
                  ltac:(lia)) as (_ & Hl & _).
    fold vd in Hl. rewrite Hchunk, length_app. lia. }
  fold vd in Bvd, Hlvd, Hloop.
  pose proof (decode_frames_celt_alpha chunk (length front) (target_of (mode v))
                (match d with to_client => source v | to_server => None end) (seqNum v))
    as Hdec.
  assert (Hdrop : drop (length front) chunk = vd)
    by (rewrite Hchunk; apply drop_app_length).
  rewrite Hdrop, Hloop in Hdec. rewrite Hdec.
  - cbn [length]. rewrite Nat.sub_0_r, no_position_at_end.
    unfold normalised. rewrite Hcodec, Hpos. reflexivity.
  - rewrite Hchunk. apply Forall_app. auto.
  - rewrite Hchunk, length_app. lia.
Qed.

End VoiceRoundTrip.

(** ** Voice packets: the codec ids the decoder cannot dispatch on *)

Section DecoderDispatch.
Import JS Varint Voice.

(** [X10] The [unknown_codec] event is never emitted, on any chunk from
    either side: the branch that emits it lies behind the test that
    throws. *)
Theorem unknown_codec_never_emitted orig chunk codecId :
  ~ In (Unknown_codec codecId) (events (Decoder_transform orig chunk)).
Proof.
  assert (Hr : forall reason, ~ In (Unknown_codec codecId) (events (reject chunk reason))).
  { intros reason [H|[]]. discriminate H. }
  unfold Decoder_transform.
  destruct (length chunk =? 0)%nat; [apply Hr|].
  destruct (_ =? 1).
  { destruct (fromVarint _) as [[? ?]|]; [intros []|apply Hr]. }
  destruct (match orig with server => _ | client => _ end) as [[src offset]|]; [|apply Hr].
  destruct (fromVarint _) as [[seq len]|]; [|apply Hr].
  unfold decode_frames.
  destruct (_ =? 4).
  { destruct (fromVarint _) as [[value vlen]|]; [|apply Hr].
    destruct (_ <? _); [apply Hr|intros []]. }
  unfold celt_test. destruct (_ =? 0); [|intros []].
  destruct (celt_loop _ _ _ _) as [[fs e o|reason]|]; [intros []|apply Hr|apply Hr].
Qed.

(** [X11] A chunk whose codec id is none of 0, 1 and 4 is never
    decoded: either a varint in front of the voice section is refused and
    the chunk is dropped with a [debug] event, or the callback receives
    the [ReferenceError]. *)
Theorem other_codec_ids_not_decoded orig chunk :
  chunk <> [] ->
  at0 chunk 0 >> 5 <> 0 -> at0 chunk 0 >> 5 <> 1 -> at0 chunk 0 >> 5 <> 4 ->
  Decoder_transform orig chunk =
    {| events := []; cb := CbError (ReferenceError "codecIf") |} \/
  exists reason, Decoder_transform orig chunk = reject chunk reason.
Proof.
  intros Hne H0 H1 H4. unfold Decoder_transform.
  destruct (Nat.eqb_spec (length chunk) 0) as [E|_].
  { destruct chunk; [contradiction|discriminate E]. }
  destruct (Z.eqb_spec (at0 chunk 0 >> 5) 1) as [|_]; [contradiction|].
  destruct (match orig with server => _ | client => _ end) as [[src offset]|];
    [|right; eauto].
  destruct (fromVarint _) as [[seq len]|]; [|right; eauto].
  unfold decode_frames.
  destruct (Z.eqb_spec (at0 chunk 0 >> 5) 4) as [|_]; [contradiction|].
  unfold celt_test.
  destruct (Z.eqb_spec (at0 chunk 0 >> 5) 0) as [|_]; [contradiction|].
  left. reflexivity.
Qed.

End DecoderDispatch.

(** A Speex packet from a server, and a packet with codec id 7. *)
Lemma other_codec_ids_not_decoded_witness :
  Voice.Decoder_transform Voice.server [0x40; 0x05; 0x00; 0x01; 0x22] =
    {| Voice.events := []; Voice.cb := Voice.CbError (Voice.ReferenceError "codecIf") |} \/
  exists reason,
    Voice.Decoder_transform Voice.server [0x40; 0x05; 0x00; 0x01; 0x22] =
      Voice.reject [0x40; 0x05; 0x00; 0x01; 0x22] reason.
Proof.
  apply (other_codec_ids_not_decoded Voice.server [0x40; 0x05; 0x00; 0x01; 0x22]);
    vm_compute; discriminate.
Defined.

(** An Opus packet from a client, cut inside its frame. *)
Lemma decoder_tolerant_witness :
  (exists p,
     Voice.Decoder_transform Voice.client [0x80; 0x05; 0x02; 0xAA] =
       {| Voice.events := []; Voice.cb := Voice.CbData p |}) \/
  (exists reason,
     Voice.Decoder_transform Voice.client [0x80; 0x05; 0x02; 0xAA] =
       Voice.reject [0x80; 0x05; 0x02; 0xAA] reason).
Proof.
  apply (decoder_tolerant Voice.client [0x80; 0x05; 0x02; 0xAA]).
  right. right. right. reflexivity.
Defined.

(** Round trips on concrete packets. *)
Lemma ping_round_trip_witness :
  - 2 ^ 31 <= 1000 < 2 ^ 31 /\ ~ (-4 <= 1000 <= -1) /\
  exists bytes,
    Varint.bytes_of (Varint.toVarint 1000) = Some bytes /\
    Voice.Encoder_transform Voice.EndOffset JS.zeroed Voice.server (Voice.PingData 1000)
      = Voice.Pushed (0x20 :: bytes) /\
    Voice.Decoder_transform Voice.client (0x20 :: bytes) =
      {| Voice.events := []; Voice.cb := Voice.CbData (Voice.Ping 1000) |}.
Proof.
  assert (H1 : - 2 ^ 31 <= 1000 < 2 ^ 31) by lia.
  assert (H2 : ~ (-4 <= 1000 <= -1)) by lia.
  split; [exact H1|]. split; [exact H2|].
  exact (ping_round_trip Voice.EndOffset JS.zeroed zeroed_length
           Voice.server Voice.client 1000 H1 H2).
Defined.

Lemma encoder_field_out_of_range_witness :
  2 ^ 32 <= 1700000000000 /\
  forall bytes,
    Voice.Encoder_transform Voice.EndOffset JS.zeroed Voice.server
      (Voice.PingData 1700000000000) <> Voice.Pushed bytes.
Proof.
  assert (H : 2 ^ 32 <= 1700000000000) by lia.
  split; [exact H|].
  exact (encoder_field_out_of_range Voice.EndOffset JS.zeroed Voice.server
           (Voice.PingData 1700000000000) (or_introl H)).
Defined.

Lemma opus_round_trip_witness :
  exists bytes,
    Voice.Encoder_transform Voice.EndOffset JS.zeroed Voice.client
      (Voice.Voice Samples.opus_from_server) = Voice.Pushed bytes /\
    Voice.Decoder_transform Voice.server bytes =
      Voice.delivered (Voice.normalised Voice.to_client Samples.opus_from_server).
Proof.
  apply (opus_round_trip Voice.EndOffset JS.zeroed zeroed_length
           Voice.to_client Samples.opus_from_server).
  - reflexivity.
  - reflexivity.
  - cbn; lia.
  - cbn; lia.
  - cbn; lia.
  - intros _. exists 300. cbn. split; [reflexivity|]. lia.
  - right. eexists. split; [reflexivity|]. split; [|cbn; lia].
    repeat constructor; unfold JS.is_byte; lia.
Defined.

Lemma celt_alpha_round_trip_witness :
  exists bytes,
    Voice.Encoder_transform Voice.EndOffset JS.zeroed Voice.server
      (Voice.Voice Samples.celt_to_server) = Voice.Pushed bytes /\
    Voice.Decoder_transform Voice.client bytes =
      Voice.delivered (Voice.normalised Voice.to_server Samples.celt_to_server).
Proof.
  apply (celt_alpha_round_trip Voice.EndOffset JS.zeroed zeroed_length
           Voice.to_server Samples.celt_to_server).
  - reflexivity.
  - reflexivity.
  - cbn; lia.
  - cbn; lia.
  - cbn; lia.
  - intros H. discriminate H.
  - cbn. repeat constructor; unfold JS.is_byte; cbn; lia.
  - intros H. discriminate H.
Defined.

(** ** Control channel: the decoder as a stream transducer *)

Section ControlFacts.
Import JS Control.

Variable Msg : Type.
Variable protoDecode : string -> list Z -> option Msg.
Variable alloc : nat -> list Z.

Hypothesis alloc_length : forall n, length (alloc n) = n.

Local Abbreviation Decoder_message := (message Msg).
Local Abbreviation message_of := (message_of Msg protoDecode).
Local Abbreviation well_formed := (well_formed Msg protoDecode).
Local Abbreviation drain := (drain Msg protoDecode).
Local Abbreviation transform := (transform Msg protoDecode alloc).
Local Abbreviation feed := (feed Msg protoDecode alloc).

(** *** Appending a chunk *)

Lemma length_buffered d : sound d -> length (buffered d) = _bufferSize d.
Proof. unfold sound, buffered. intros H. apply length_take_le. exact H. Qed.

Lemma append_buffered d chunk :
  sound d ->
  sound (append alloc d chunk) /\
  buffered (append alloc d chunk) = buffered d ++ chunk.
Proof using alloc_length.
  unfold sound, buffered, append. intros Hs.
  set (size := _bufferSize d) in *. set (buf := _buffer d) in *.
  assert (Hroom : exists buf',
             (if (length buf - size <? length chunk)%nat
              then (copy buf (alloc (size + length chunk)) 0 0 size).1
              else buf) = buf' /\
             take size buf' = take size buf /\
             (size + length chunk <= length buf')%nat).
  { destruct (Nat.ltb_spec (length buf - size) (length chunk)) as [Hsmall|Hok].
    - eexists; split; [reflexivity|].
      unfold copy. cbn [fst]. rewrite alloc_length.
      replace (Nat.min (Nat.min size (length buf) - 0) (size + length chunk - 0))
        with size by lia.
      rewrite take_0, drop_0, app_nil_l, Nat.add_0_l.
      assert (Hl : length (take size buf) = size) by (apply length_take_le; lia).
      split.
      + rewrite take_app_length' by (symmetry; exact Hl). reflexivity.
      + rewrite length_app, Hl, length_drop, alloc_length. lia.
    - exists buf. split; [reflexivity|]. split; [reflexivity|]. lia. }
  destruct Hroom as (buf' & -> & Htake & Hlen).
  unfold copy.
  replace (Nat.min (Nat.min (length chunk) (length chunk) - 0) (length buf' - size))
    with (length chunk) by lia.
  cbn [_buffer _bufferSize]. rewrite drop_0.
  assert (Hl : length (take size buf') = size) by (apply length_take_le; lia).
  rewrite (take_ge chunk) by lia.
  split.
  - rewrite !length_app, Hl, length_drop. lia.
  - rewrite app_assoc.
    rewrite take_app_length' by (rewrite length_app, Hl; reflexivity).
    rewrite Htake. reflexivity.
Qed.

(** *** Reading a header *)

Lemma length_wire (f : frame) : length (wire f) = (6 + length (fdata f))%nat.
Proof. reflexivity. Qed.

Lemma nameById_range t typeName : nameById !! t = Some typeName -> 0 <= t <= 25.
Proof.
  unfold nameById. intros H. apply elem_of_list_to_map_2 in H.
  repeat (apply elem_of_cons in H as [H|H]; [inversion H; lia|]).
  apply elem_of_nil in H. contradiction.
Qed.

Lemma well_formed_type f : well_formed f -> 0 <= ftype f <= 25.
Proof.
  intros (_ & [m Hm]). unfold Control.message_of in Hm.
  destruct (nameById !! ftype f) as [typeName|] eqn:E; [|discriminate].
  exact (nameById_range _ _ E).
Qed.

Lemma wire_type f rest :
  0 <= ftype f < 2 ^ 16 -> readUInt16BE (wire f ++ rest) 0 = ftype f.
Proof.
  intros Ht. unfold readUInt16BE, wire. cbn.
  change (2 ^ 8) with 256.
  pose proof (Z.div_mod (ftype f) 256). lia.
Qed.

Lemma wire_size f rest :
  Z.of_nat (length (fdata f)) < 2 ^ 32 ->
  readUInt32BE (wire f ++ rest) 2 = Z.of_nat (length (fdata f)).
Proof.
  intros Hn. unfold readUInt32BE, wire. cbn.
  change (2 ^ 8) with 256. change (2 ^ 16) with 65536.
  change (2 ^ 24) with 16777216. change (2 ^ 32) with 4294967296 in Hn.
  set (n := Z.of_nat (length (fdata f))) in *.
  assert (0 <= n) by (subst n; lia).
  assert (Hq : 0 <= n / 16777216 < 256)
    by (split; [apply Z.div_pos; lia | apply Z.div_lt_upper_bound; lia]).
  pose proof (Z.div_mod n 256). pose proof (Z.div_mod (n / 256) 256).
  pose proof (Z.div_mod (n / 256 / 256) 256).
  rewrite !Z.div_div in * by lia.
  change (256 * 256) with 65536 in *. change (65536 * 256) with 16777216 in *.
  pose proof (Z.mod_pos_bound n 256). pose proof (Z.mod_pos_bound (n / 256) 256).
  pose proof (Z.mod_pos_bound (n / 65536) 256).
  lia.
Qed.

Lemma at0_buffered d i : (i < _bufferSize d)%nat -> at0 (buffered d) i = at0 (_buffer d) i.
Proof. intros H. unfold buffered. apply at0_take. exact H. Qed.

Lemma header_buffered d :
  (6 <= _bufferSize d)%nat ->
  readUInt16BE (_buffer d) 0 = readUInt16BE (buffered d) 0 /\
  readUInt32BE (_buffer d) 2 = readUInt32BE (buffered d) 2.
Proof.
  intros H. unfold readUInt16BE, readUInt32BE.
  rewrite !at0_buffered by lia. auto.
Qed.

(** *** One turn of the loop *)

Lemma drain_stop fuel d acc :
  sound d -> incomplete (buffered d) ->
  drain (S fuel) d acc = Some {| state := d; pushed := acc; error := false |}.
Proof.
  intros Hs Hi. cbn [Control.drain].
  destruct (Nat.leb_spec 6 (_bufferSize d)) as [H6|H6]; [|reflexivity].
  destruct (header_buffered d H6) as [_ ->].
  unfold incomplete in Hi. rewrite length_buffered in Hi by exact Hs.
  destruct Hi as [Hi|Hi]; [lia|].
  destruct (Z.ltb_spec (Z.of_nat (_bufferSize d)) (6 + readUInt32BE (buffered d) 2));
    [reflexivity|lia].
Qed.

Lemma drain_step fuel d acc f rest :
  well_formed f -> sound d -> buffered d = wire f ++ rest ->
  exists d' m,
    message_of f = Some m /\
    drain (S fuel) d acc = drain fuel d' (acc ++ [m]) /\
    sound d' /\ buffered d' = rest.
Proof.
  intros Hwf Hs Hb.
  pose proof (well_formed_type f Hwf) as Ht.
  destruct Hwf as (Hn & [m Hm]).
  assert (Hlen : _bufferSize d = (6 + length (fdata f) + length rest)%nat).
  { rewrite <- (length_buffered d Hs), Hb, length_app, length_wire. reflexivity. }
  cbn [Control.drain].
  destruct (Nat.leb_spec 6 (_bufferSize d)) as [H6|H6]; [|lia].
  destruct (header_buffered d H6) as [-> ->]. rewrite Hb.
  rewrite wire_type by lia. rewrite wire_size by exact Hn.
  destruct (Z.ltb_spec (Z.of_nat (_bufferSize d)) (6 + Z.of_nat (length (fdata f))));
    [lia|].
  replace (Z.to_nat (6 + Z.of_nat (length (fdata f)))) with (6 + length (fdata f))%nat by lia.
  assert (Hdata : slice (_buffer d) 6 (6 + length (fdata f)) = fdata f).
  { unfold slice.
    replace (6 + length (fdata f) - 6)%nat with (length (fdata f)) by lia.
    assert (Hd6 : drop 6 (buffered d) = fdata f ++ rest) by (rewrite Hb; reflexivity).
    unfold buffered in Hd6. rewrite skipn_firstn_comm in Hd6.
    apply (f_equal (take (length (fdata f)))) in Hd6.
    rewrite take_take, take_app_length in Hd6.
    rewrite Nat.min_l in Hd6 by lia. exact Hd6. }
  rewrite Hdata.
  pose proof Hm as Hm0. unfold Control.message_of in Hm. unfold decode.
  destruct (nameById !! ftype f) as [typeName|] eqn:E; [|discriminate].
  set (d' := {| _buffer := (copy (_buffer d) (_buffer d) 0 (6 + length (fdata f))
                             (_bufferSize d)).1;
                _bufferSize := (_bufferSize d - (6 + length (fdata f)))%nat |}).
  assert (Hd' : sound d' /\ buffered d' = rest).
  { unfold sound, buffered, d', copy. cbn [fst _buffer _bufferSize].
    unfold sound in Hs.
    replace (Nat.min (Nat.min (_bufferSize d) (length (_buffer d)) - (6 + length (fdata f)))
               (length (_buffer d) - 0))
      with (length rest) by lia.
    replace (_bufferSize d - (6 + length (fdata f)))%nat with (length rest) by lia.
    rewrite take_0, app_nil_l, Nat.add_0_l.
    assert (Hrest : take (length rest) (drop (6 + length (fdata f)) (_buffer d)) = rest).
    { assert (Hd : drop (6 + length (fdata f)) (buffered d) = rest).
      { rewrite Hb. apply drop_app_length'. rewrite length_wire. reflexivity. }
      unfold buffered in Hd. rewrite skipn_firstn_comm in Hd.
      rewrite <- Hd at 2. f_equal. lia. }
    rewrite Hrest. split.
    - rewrite length_app. lia.
    - apply take_app_length. }
  exists d', m.
  destruct (decide (typeName = "UDPTunnel"%string)) as [Hu|Hu].
  - subst typeName. inversion Hm; subst m.
    destruct (decide (Some "UDPTunnel"%string = Some "UDPTunnel"%string)) as [_|Hc];
      [|contradiction].
    split; [exact Hm0|]. split; [reflexivity|]. exact Hd'.
  - destruct (decide (Some typeName = Some "UDPTunnel"%string)) as [Hc|_];
      [inversion Hc; contradiction|].
    destruct (protoDecode typeName (fdata f)) as [msg|]; [|discriminate].
    inversion Hm; subst m. cbn [fmap option_fmap option_map].
    split; [exact Hm0|]. split; [reflexivity|]. exact Hd'.
Qed.

(** *** The loop on whole frames followed by a partial one *)

Lemma drain_frames fs :
  forall fuel d acc partial,
    Forall well_formed fs -> sound d ->
    buffered d = concat (wire <$> fs) ++ partial -> incomplete partial ->
    (length fs < fuel)%nat ->
    exists d' msgs,
      drain fuel d acc = Some {| state := d'; pushed := acc ++ msgs; error := false |} /\
      sound d' /\ buffered d' = partial /\
      Some <$> msgs = message_of <$> fs.
Proof.
  induction fs as [|f fs IH]; intros fuel d acc partial Hwf Hs Hb Hi Hfuel;
    (destruct fuel as [|fuel]; [cbn in Hfuel; lia|]).
  - exists d, []. rewrite app_nil_r. cbn in Hb.
    split; [apply drain_stop; [exact Hs | rewrite Hb; exact Hi]|]. auto.
  - apply Forall_cons in Hwf as [Hf Hwf].
    rewrite fmap_cons in Hb. cbn [concat] in Hb. rewrite <- app_assoc in Hb.
    destruct (drain_step fuel d acc f _ Hf Hs Hb) as (d1 & m & Hm & Hstep & Hs1 & Hb1).
    destruct (IH fuel d1 (acc ++ [m]) partial Hwf Hs1 Hb1 Hi) as (d' & msgs & Hd & Hs' & Hb' & Hmsgs);
      [cbn in Hfuel; lia|].
    exists d', (m :: msgs). rewrite Hstep, Hd, <- app_assoc.
    split; [reflexivity|]. split; [exact Hs'|]. split; [exact Hb'|].
    rewrite !fmap_cons, Hm, Hmsgs. reflexivity.
Qed.

(** *** Counting whole frames in a prefix of the stream *)

Lemma length_concat_wire (fs : list frame) :
  (6 * length fs <= length (concat (wire <$> fs)))%nat.
Proof.
  induction fs as [|f fs IH]; [cbn; lia|].
  rewrite fmap_cons. cbn [concat]. rewrite length_app, length_wire. cbn [length]. lia.
Qed.

Lemma complete_le (fs : list frame) n : (complete fs n <= length fs)%nat.
Proof.
  revert n. induction fs as [|f fs IH]; intros n; cbn [complete length]; [lia|].
  destruct (_ <=? _)%nat; [specialize (IH (n - length (wire f))%nat)|]; lia.
Qed.

Lemma complete_0 (fs : list frame) : complete fs 0 = 0%nat.
Proof. destruct fs as [|f fs]; reflexivity. Qed.

Lemma complete_all (fs : list frame) :
  complete fs (length (concat (wire <$> fs))) = length fs.
Proof.
  induction fs as [|f fs IH]; [reflexivity|].
  rewrite fmap_cons. cbn [concat complete]. rewrite length_app.
  destruct (Nat.leb_spec (length (wire f)) (length (wire f) + length (concat (wire <$> fs))));
    [|lia].
  replace (length (wire f) + length (concat (wire <$> fs)) - length (wire f))%nat
    with (length (concat (wire <$> fs))) by lia.
  rewrite IH. reflexivity.
Qed.

Lemma complete_mono (fs : list frame) n n' :
  (n <= n')%nat -> (complete fs n <= complete fs n')%nat.
Proof.
  revert n n'. induction fs as [|f fs IH]; intros n n' H; cbn [complete]; [lia|].
  destruct (Nat.leb_spec (length (wire f)) n), (Nat.leb_spec (length (wire f)) n');
    try lia.
  specialize (IH (n - length (wire f))%nat (n' - length (wire f))%nat). lia.
Qed.

Lemma complete_drop (fs : list frame) :
  forall n j, (j <= complete fs n)%nat ->
    complete fs n =
      (j + complete (drop j fs) (n - length (concat (wire <$> take j fs))))%nat.
Proof.
  induction fs as [|f fs IH]; intros n j Hj.
  - cbn in Hj. assert (j = 0%nat) by lia. subst j. reflexivity.
  - destruct j as [|j]; [cbn; rewrite Nat.sub_0_r; reflexivity|].
    cbn [complete] in *.
    destruct (Nat.leb_spec (length (wire f)) n) as [Hle|Hgt]; [|lia].
    cbn [take drop]. rewrite fmap_cons. cbn [concat]. rewrite length_app.
    rewrite (IH (n - length (wire f))%nat j) by lia.
    cbn [Nat.add]. f_equal. f_equal. f_equal. lia.
Qed.

(** A prefix of the stream is a number of whole frames, and then less
    than the next frame. *)
Lemma complete_split (fs : list frame) :
  forall bytes rest,
    bytes ++ rest = concat (wire <$> fs) ->
    exists partial,
      bytes = concat (wire <$> take (complete fs (length bytes)) fs) ++ partial /\
      partial ++ rest = concat (wire <$> drop (complete fs (length bytes)) fs) /\
      complete (drop (complete fs (length bytes)) fs) (length partial) = 0%nat.
Proof.
  induction fs as [|f fs IH]; intros bytes rest H.
  - cbn in H. apply app_eq_nil in H as [-> ->]. exists []. auto.
  - rewrite fmap_cons in H. cbn [concat] in H. cbn [complete].
    destruct (Nat.leb_spec (length (wire f)) (length bytes)) as [Hle|Hgt].
    + assert (Hb : bytes = wire f ++ drop (length (wire f)) bytes).
      { rewrite <- (take_drop (length (wire f)) bytes) at 1. f_equal.
        apply (f_equal (take (length (wire f)))) in H.
        rewrite take_app_le in H by exact Hle. rewrite take_app_length in H. exact H. }
      set (bytes' := drop (length (wire f)) bytes) in *.
      assert (H' : bytes' ++ rest = concat (wire <$> fs)).
      { rewrite Hb, <- app_assoc in H. apply app_inv_head in H. exact H. }
      destruct (IH bytes' rest H') as (partial & Hp1 & Hp2 & Hp3).
      assert (Hl : (length bytes - length (wire f))%nat = length bytes')
        by (unfold bytes'; rewrite length_drop; reflexivity).
      rewrite Hl. exists partial. cbn [take drop]. rewrite fmap_cons. cbn [concat].
      split; [|split; assumption].
      rewrite <- app_assoc, <- Hp1. exact Hb.
    + exists bytes. cbn [take drop]. rewrite fmap_cons. cbn [concat complete].
      split; [reflexivity|]. split; [exact H|].
      destruct (Nat.leb_spec (length (wire f)) (length bytes)); [lia|reflexivity].
Qed.

Lemma incomplete_prefix fs partial rest :
  Forall well_formed fs ->
  partial ++ rest = concat (wire <$> fs) ->
  complete fs (length partial) = 0%nat ->
  incomplete partial.
Proof.
  intros Hwf H Hc. destruct fs as [|f fs].
  - cbn in H. apply app_eq_nil in H as [-> _]. left. cbn. lia.
  - apply Forall_cons in Hwf as [(Hn & _) _].
    cbn [complete] in Hc.
    destruct (Nat.leb_spec (length (wire f)) (length partial)) as [|Hlt]; [discriminate|].
    rewrite length_wire in Hlt.
    destruct (Nat.lt_ge_cases (length partial) 6) as [H6|H6]; [left; exact H6|].
    right.
    assert (Hread : readUInt32BE partial 2 = Z.of_nat (length (fdata f))).
    { rewrite <- (wire_size f (concat (wire <$> fs))) by exact Hn.
      rewrite fmap_cons in H. cbn [concat] in H. rewrite <- H.
      unfold readUInt32BE. rewrite !at0_app_l by lia. reflexivity. }
    rewrite Hread. lia.
Qed.

(** *** Feeding chunks *)

Lemma transform_frames d chunk fs rest :
  Forall well_formed fs -> sound d ->
  (buffered d ++ chunk) ++ rest = concat (wire <$> fs) ->
  let j := complete fs (length (buffered d ++ chunk)) in
  exists d' msgs,
    transform d chunk = Some {| state := d'; pushed := msgs; error := false |} /\
    sound d' /\
    Some <$> msgs = message_of <$> take j fs /\
    buffered d' ++ rest = concat (wire <$> drop j fs) /\
    complete (drop j fs) (length (buffered d')) = 0%nat /\
    length (buffered d ++ chunk) =
      (length (concat (wire <$> take j fs)) + length (buffered d'))%nat.
Proof using alloc_length.
  intros Hwf Hs H j.
  destruct (append_buffered d chunk Hs) as [Hs1 Hb1].
  destruct (complete_split fs _ _ H) as (partial & Hp1 & Hp2 & Hp3). fold j in Hp1, Hp2, Hp3.
  assert (Hi : incomplete partial).
  { apply (incomplete_prefix (drop j fs) partial rest); [|exact Hp2|exact Hp3].
    apply Forall_drop. exact Hwf. }
  unfold Control.transform.
  destruct (drain_frames (take j fs) (S (_bufferSize (append alloc d chunk)))
              (append alloc d chunk) [] partial)
    as (d' & msgs & Hd & Hs' & Hb' & Hm).
  - apply Forall_take. exact Hwf.
  - exact Hs1.
  - rewrite Hb1. exact Hp1.
  - exact Hi.
  - rewrite <- (length_buffered _ Hs1), Hb1, Hp1, length_app.
    pose proof (length_concat_wire (take j fs)). lia.
  - exists d', msgs. rewrite Hd. cbn [app]. rewrite Hb'.
    split; [reflexivity|]. split; [exact Hs'|]. split; [exact Hm|].
    split; [exact Hp2|]. split; [exact Hp3|].
    rewrite Hp1 at 1. apply length_app.
Qed.

Lemma feed_spec chunks :
  forall fs d,
    Forall well_formed fs -> sound d ->
    buffered d ++ concat chunks = concat (wire <$> fs) ->
    complete fs (length (buffered d)) = 0%nat ->
    exists d' outs,
      feed d chunks = Some (d', outs, false) /\
      length outs = length chunks /\
      forall k, (k <= length chunks)%nat ->
        Some <$> concat (take k outs) =
        message_of <$>
          take (complete fs (length (buffered d) + length (concat (take k chunks)))) fs.
Proof using alloc_length.
  induction chunks as [|chunk chunks IH]; intros fs d Hwf Hs H Hc.
  - exists d, []. split; [reflexivity|]. split; [reflexivity|].
    intros k Hk. cbn in Hk. assert (k = 0%nat) by lia. subst k.
    cbn [take concat length]. rewrite Nat.add_0_r, Hc. reflexivity.
  - cbn [concat] in H. rewrite app_assoc in H.
    destruct (transform_frames d chunk fs (concat chunks) Hwf Hs H)
      as (d1 & msgs & Ht & Hs1 & Hm & Hrest & Hc1 & Hlen).
    set (j := complete fs (length (buffered d ++ chunk))) in *.
    destruct (IH (drop j fs) d1) as (d' & outs & Hf & Hlo & Hk);
      [apply Forall_drop; exact Hwf | exact Hs1 | exact Hrest | exact Hc1 |].
    exists d', (msgs :: outs). cbn [Control.feed]. rewrite Ht. cbn [error state pushed].
    rewrite Hf. split; [reflexivity|]. split; [cbn; lia|].
    intros [|k] Hle.
    + cbn [take concat length]. rewrite Nat.add_0_r, Hc. reflexivity.
    + cbn [take concat]. rewrite fmap_app, Hm, Hk by (cbn in Hle; lia).
      rewrite length_app.
      set (X := length (concat (take k chunks))).
      rewrite length_app in Hlen.
      assert (Hj : (j <= complete fs (length (buffered d) + (length chunk + X)))%nat).
      { unfold j. apply complete_mono. rewrite length_app. lia. }
      rewrite (complete_drop fs _ j Hj).
      replace (length (buffered d) + (length chunk + X)
               - length (concat (wire <$> take j fs)))%nat
        with (length (buffered d1) + X)%nat by lia.
      rewrite <- take_take_drop, fmap_app. reflexivity.
Qed.

(** [C8] Whatever way the bytes of a sequence of well-formed frames are
    cut into chunks, the decoder, fed the chunks in order, reports no
    error and pushes the frames' messages in frame order and none other;
    after any number of chunks it has pushed the messages of exactly the
    frames whose [6 + size] bytes have all arrived. *)
Theorem control_decoder_chunking (fs : list frame) (chunks : list (list Z)) :
  Forall well_formed fs ->
  concat chunks = concat (wire <$> fs) ->
  exists d outs,
    feed (new_Decoder alloc) chunks = Some (d, outs, false) /\
    length outs = length chunks /\
    Some <$> concat outs = message_of <$> fs /\
    forall k, (k <= length chunks)%nat ->
      Some <$> concat (take k outs) =
      message_of <$> take (complete fs (length (concat (take k chunks)))) fs.
Proof using alloc_length.
  intros Hwf H.
  destruct (feed_spec chunks fs (new_Decoder alloc)) as (d & outs & Hf & Hl & Hk).
  - exact Hwf.
  - unfold sound, new_Decoder. cbn. lia.
  - exact H.
  - apply complete_0.
  - exists d, outs. split; [exact Hf|]. split; [exact Hl|].
    change (length (buffered (new_Decoder alloc))) with 0%nat in Hk.
    split; [|exact Hk].
    specialize (Hk (length chunks) (Nat.le_refl _)).
    rewrite <- Hl in Hk at 1. rewrite (take_ge outs), (take_ge chunks) in Hk by lia.
    rewrite H, Nat.add_0_l, complete_all in Hk.
    rewrite take_ge in Hk by lia. exact Hk.
Qed.

End ControlFacts.

(** Three frames in five chunks: nothing is pushed before the fourth chunk
    completes the first two frames. *)
Lemma control_decoder_chunking_witness :
  exists d outs,
    Control.feed (list Z) Control.raw_decode JS.zeroed
      (Control.new_Decoder JS.zeroed) Samples.three_frames_chunks
      = Some (d, outs, false) /\
    length outs = length Samples.three_frames_chunks /\
    Some <$> concat outs =
      Control.message_of (list Z) Control.raw_decode <$> Samples.three_frames /\
    forall k, (k <= length Samples.three_frames_chunks)%nat ->
      Some <$> concat (take k outs) =
      Control.message_of (list Z) Control.raw_decode <$>
        take (Control.complete Samples.three_frames
                (length (concat (take k Samples.three_frames_chunks))))
             Samples.three_frames.
Proof.
  apply (control_decoder_chunking (list Z) Control.raw_decode JS.zeroed
           zeroed_length Samples.three_frames Samples.three_frames_chunks).
  - unfold Samples.three_frames.
    repeat (apply Forall_cons; split;
            [unfold Control.well_formed; split_ands;
             [cbn; lia | eexists; reflexivity]|]).
    apply Forall_nil_2.
  - reflexivity.
Defined.

(** ** Control channel: the registry of message names *)

Section Registry.
Import JS Control.

(** Whatever a registry holds, the loop that fills [idByName] only
    records pairs that are in it. *)
Lemma swapped_sound (m : gmap Z string) name id :
  map_fold (fun id name idByName => <[name := id]> idByName) (∅ : gmap string Z) m
    !! name = Some id ->
  m !! id = Some name.
Proof.
  revert name id.
  apply (map_fold_weak_ind
    (fun (r : gmap string Z) (m : gmap Z string) =>
       forall name id, r !! name = Some id -> m !! id = Some name)).
  - intros name id H. rewrite lookup_empty in H. discriminate H.
  - intros i x m' r Hi IH name id H.
    destruct (decide (x = name)) as [->|Hne].
    + rewrite lookup_insert_eq in H. injection H as <-. apply lookup_insert_eq.
    + rewrite lookup_insert_ne in H by exact Hne.
      specialize (IH _ _ H).
      rewrite lookup_insert_ne; [exact IH|]. intros ->. congruence.
Qed.

(** [X12] [idByName] is [nameById] read the other way: a name has the
    id under which the registry lists it, and no other name has an id. *)
Theorem idByName_inverse name id :
  idByName !! name = Some id <-> nameById !! id = Some name.
Proof.
  split; intros H.
  - apply swapped_sound. exact H.
  - unfold nameById in H. apply elem_of_list_to_map_2 in H.
    repeat (apply elem_of_cons in H as [H|H];
            [injection H as -> ->; vm_compute; reflexivity|]).
    apply elem_of_nil in H. contradiction.
Qed.

End Registry.

(** ** Control channel: the encoder, and the encoder against the decoder *)

Section ControlRoundTrip.
Import JS Control.

Variable Fields Msg : Type.
Variable no_fields : Fields.
Variable protoEncode : string -> payload_in Fields -> option (list Z).
Variable protoDecode : string -> list Z -> option Msg.
Variable decoded_of : string -> payload_in Fields -> Msg.
Variable id_of_undefined : option Z.
Variable alloc : nat -> list Z.

Hypothesis alloc_length : forall n, length (alloc n) = n.

(** What is assumed of the schema classes: the bytes that a class
    encodes for a payload decode, under the same name, to the record of
    that payload. *)
Hypothesis proto_round_trip :
  forall name payload data,
    protoEncode name payload = Some data ->
    protoDecode name data = Some (decoded_of name payload).

Local Abbreviation Encoder_transform :=
  (Encoder_transform Fields no_fields protoEncode id_of_undefined alloc).
Local Abbreviation encode_all :=
  (encode_all Fields no_fields protoEncode id_of_undefined alloc).
Local Abbreviation arrives := (arrives Fields Msg no_fields decoded_of).
Local Abbreviation message_of := (message_of Msg protoDecode).
Local Abbreviation well_formed := (well_formed Msg protoDecode).
Local Abbreviation feed := (feed Msg protoDecode alloc).

(** A chunk whose name the registry holds. *)
Local Abbreviation registered :=
  (fun c : chunk Fields =>
     exists name, cname Fields c = Some name /\ is_Some (idByName !! name)).

Lemma header_written hd id n :
  length hd = 6%nat ->
  writeUInt32BE (writeUInt16BE hd id 0) n 2 =
    [ id / 2 ^ 8; id mod 2 ^ 8;
      n / 2 ^ 24; (n / 2 ^ 16) mod 2 ^ 8; (n / 2 ^ 8) mod 2 ^ 8; n mod 2 ^ 8 ].
Proof.
  intros H. destruct hd as [|h0 [|h1 [|h2 [|h3 [|h4 [|h5 [|h6 hd]]]]]]];
    try discriminate H.
  reflexivity.
Qed.

(** What the encoder pushes for a registered name is the frame of the
    message the chunk should arrive as. *)
Lemma encoded_frame c bytes :
  registered c -> Encoder_transform c = Encoded bytes ->
  exists f, bytes = wire f /\ well_formed f /\ message_of f = arrives c.
Proof using alloc_length proto_round_trip.
  intros (name & Hname & [id Hid]) H.
  unfold Control.Encoder_transform in H. unfold Control.arrives.
  rewrite Hname in *. rewrite Hid in H. cbv zeta in H.
  set (payload := default (Object Fields no_fields) (cpayload Fields c)) in *.
  assert (Hreg : nameById !! id = Some name) by (apply swapped_sound; exact Hid).
  assert (Hdata : exists data,
             bytes = wire {| ftype := id; fdata := data |} /\
             Z.of_nat (length data) < 2 ^ 32 /\
             if decide (name = "UDPTunnel"%string) then payload = Buf Fields data
             else protoEncode name payload = Some data).
  { destruct (decide (name = "UDPTunnel"%string)) as [Hu|Hu].
    - destruct payload as [data|o]; [|discriminate H].
      destruct (Z.leb_spec (2 ^ 32) (Z.of_nat (length data))); [discriminate H|].
      exists data. split; [|auto].
      injection H as <-. unfold wire. cbn [ftype fdata].
      rewrite header_written by apply alloc_length. reflexivity.
    - destruct (protoEncode name payload) as [data|]; [|discriminate H].
      cbn [fmap option_fmap option_map] in H.
      destruct (Z.leb_spec (2 ^ 32) (Z.of_nat (length data))); [discriminate H|].
      exists data. split; [|auto].
      injection H as <-. unfold wire. cbn [ftype fdata].
      rewrite header_written by apply alloc_length. reflexivity. }
  destruct Hdata as (data & -> & Hlen & Hp).
  exists {| ftype := id; fdata := data |}. split; [reflexivity|].
  assert (Hm : message_of {| ftype := id; fdata := data |} =
               (if decide (name = "UDPTunnel"%string)
                then match payload with
                     | Buf _ data => Some {| name := name; mpayload := Tunnel Msg data |}
                     | Object _ _ => None
                     end
                else Some {| name := name;
                             mpayload := Decoded Msg (decoded_of name payload) |})).
  { unfold Control.message_of. cbn [ftype fdata]. rewrite Hreg.
    destruct (decide (name = "UDPTunnel"%string)) as [Hu|Hu].
    - rewrite Hp. reflexivity.
    - rewrite (proto_round_trip _ _ _ Hp). reflexivity. }
  split; [|exact Hm].
  split; [exact Hlen|]. cbn [fdata]. rewrite Hm.
  destruct (decide (name = "UDPTunnel"%string)); [rewrite Hp|]; eauto.
Qed.

Lemma encoded_frames cs :
  forall packets,
    Forall registered cs -> encode_all cs = Some packets ->
    exists fs,
      packets = wire <$> fs /\ Forall well_formed fs /\
      message_of <$> fs = arrives <$> cs.
Proof using alloc_length proto_round_trip.
  induction cs as [|c cs IH]; intros packets Hreg H.
  - injection H as <-. exists []. auto.
  - apply Forall_cons in Hreg as [Hc Hreg]. cbn [Control.encode_all] in H.
    destruct (Encoder_transform c) as [bytes| |] eqn:E; try discriminate H.
    destruct (encode_all cs) as [rest|]; [|discriminate H].
    injection H as <-.
    destruct (encoded_frame c bytes Hc E) as (f & -> & Hwf & Hm).
    destruct (IH rest Hreg eq_refl) as (fs & -> & Hwfs & Hms).
    exists (f :: fs). split; [reflexivity|]. split; [constructor; assumption|].
    rewrite !fmap_cons, Hm, Hms. reflexivity.
Qed.

(** [X13] Messages under registered names that the encoder has put on
    the stream arrive at a decoder in the order written and as written,
    however the stream is cut into chunks on the way: a [UDPTunnel]
    payload byte for byte, any other payload as the record of its
    class. *)
Theorem control_round_trip cs packets chunks :
  Forall (fun c => exists name, cname Fields c = Some name /\ is_Some (idByName !! name)) cs ->
  encode_all cs = Some packets ->
  concat chunks = concat packets ->
  exists d outs,
    feed (new_Decoder alloc) chunks = Some (d, outs, false) /\
    length outs = length chunks /\
    Some <$> concat outs = arrives <$> cs.
Proof using alloc_length proto_round_trip.
  intros Hreg Henc Hcut.
  destruct (encoded_frames cs packets Hreg Henc) as (fs & -> & Hwf & Hm).
  destruct (feed_spec Msg protoDecode alloc alloc_length chunks fs (new_Decoder alloc))
    as (d & outs & Hf & Hl & Hk).
  - exact Hwf.
  - unfold sound, new_Decoder. cbn. lia.
  - exact Hcut.
  - apply complete_0.
  - exists d, outs. split; [exact Hf|]. split; [exact Hl|].
    change (length (buffered (new_Decoder alloc))) with 0%nat in Hk.
    specialize (Hk (length chunks) (Nat.le_refl _)).
    rewrite <- Hl in Hk at 1. rewrite (take_ge outs), (take_ge chunks) in Hk by lia.
    rewrite Hcut, Nat.add_0_l, complete_all in Hk.
    rewrite take_ge in Hk by lia. rewrite <- Hm. exact Hk.
Qed.

(** [X14] The frame that the encoder pushes: six bytes that spell the
    id of the name and the length of the data, most significant byte
    first, and then the data. *)
Theorem control_encoder_frame c bytes :
  Encoder_transform c = Encoded bytes ->
  exists name data,
    cname Fields c = Some name /\
    bytes = take 6 bytes ++ data /\ length bytes = (6 + length data)%nat /\
    readUInt32BE bytes 2 = Z.of_nat (length data) /\
    (forall id, idByName !! name = Some id -> readUInt16BE bytes 0 = id) /\
    (name = "UDPTunnel"%string -> cpayload Fields c = Some (Buf Fields data)).
Proof using alloc_length.
  intros H. unfold Control.Encoder_transform in H.
  destruct (cname Fields c) as [name|]; [|discriminate H]. cbv zeta in H.
  exists name.
  set (payload := default (Object Fields no_fields) (cpayload Fields c)) in *.
  assert (Hdata : exists data,
             (if decide (name = "UDPTunnel"%string) then Some payload
              else Buf Fields <$> protoEncode name payload) = Some (Buf Fields data)).
  { destruct (if decide _ then _ else _) as [[data|o]|]; try discriminate H. eauto. }
  destruct Hdata as (data & Hd). rewrite Hd in H. exists data.
  destruct (match idByName !! name with Some id => Some id | None => id_of_undefined end)
    as [id|] eqn:Eid; [|discriminate H].
  destruct (Z.leb_spec (2 ^ 32) (Z.of_nat (length data))) as [|Hlen]; [discriminate H|].
  injection H as <-. rewrite header_written by apply alloc_length.
  split; [reflexivity|]. split; [reflexivity|]. split; [reflexivity|].
  pose proof (wire_size {| ftype := 0; fdata := data |} [] Hlen) as Hsz.
  rewrite app_nil_r in Hsz. split; [exact Hsz|]. split.
  - intros id' Hid'. rewrite Hid' in Eid. injection Eid as <-.
    assert (Hr : 0 <= id' <= 25).
    { apply (nameById_range id' name), swapped_sound, Hid'. }
    pose proof (wire_type {| ftype := id'; fdata := data |} [] ltac:(cbn; lia)) as Ht.
    rewrite app_nil_r in Ht. exact Ht.
  - intros ->. destruct (decide _) as [_|Hc]; [|contradiction].
    injection Hd as Hd. unfold payload in Hd.
    destruct (cpayload Fields c) as [p|]; [|discriminate Hd]. cbn in Hd. congruence.
Qed.

End ControlRoundTrip.

(** ** Control channel: the decoder on arbitrary bytes *)

Section DecoderAnyInput.
Import JS Control.

Variable Msg : Type.
Variable protoDecode : string -> list Z -> option Msg.
Variable alloc : nat -> list Z.

Hypothesis alloc_length : forall n, length (alloc n) = n.

Local Abbreviation drain := (drain Msg protoDecode).
Local Abbreviation transform := (transform Msg protoDecode alloc).
Local Abbreviation outcome := (outcome Msg).

(** The state after a frame of [k] bytes has been taken off the front. *)
Lemma shift_buffered d k :
  sound d -> (k <= _bufferSize d)%nat ->
  let d' := {| _buffer := (copy (_buffer d) (_buffer d) 0 k (_bufferSize d)).1;
               _bufferSize := (_bufferSize d - k)%nat |} in
  sound d' /\ buffered d' = drop k (buffered d) /\
  length (_buffer d') = length (_buffer d).
Proof.
  intros Hs Hk. unfold sound in Hs. cbv zeta. unfold sound, buffered, copy.
  cbn [fst _buffer _bufferSize].
  replace (Nat.min (Nat.min (_bufferSize d) (length (_buffer d)) - k)
             (length (_buffer d) - 0))
    with (_bufferSize d - k)%nat by lia.
  rewrite take_0, app_nil_l, Nat.add_0_l.
  assert (Hl : length (take (_bufferSize d - k) (drop k (_buffer d))) = (_bufferSize d - k)%nat).
  { rewrite length_take, length_drop. lia. }
  split; [rewrite length_app, Hl, length_drop; lia|]. split.
  - rewrite take_app_length' by (symmetry; exact Hl).
    rewrite skipn_firstn_comm. reflexivity.
  - rewrite length_app, Hl, length_drop. lia.
Qed.

Lemma shift_bytes (b : list Z) k n :
  Forall is_byte b -> Forall is_byte (copy b b 0 k n).1.
Proof.
  intros Hb. unfold copy. cbn [fst].
  apply Forall_app. split; [apply Forall_take; exact Hb|].
  apply Forall_app. split; [apply Forall_take, Forall_drop; exact Hb|].
  apply Forall_drop. exact Hb.
Qed.

Lemma readUInt32BE_nonneg b i : Forall is_byte b -> 0 <= readUInt32BE b i.
Proof.
  intros Hb. unfold readUInt32BE.
  pose proof (at0_byte b i Hb). pose proof (at0_byte b (i + 1) Hb).
  pose proof (at0_byte b (i + 2) Hb). pose proof (at0_byte b (i + 3) Hb).
  unfold is_byte in *. lia.
Qed.

(** On a buffer of bytes the loop comes to an end within the turns it is
    given: a turn that goes on takes at least six bytes off the front. *)
Lemma drain_total fuel :
  forall d acc,
    sound d -> Forall is_byte (_buffer d) -> (_bufferSize d < fuel)%nat ->
    exists o taken,
      drain fuel d acc = Some o /\
      sound (state Msg o) /\ Forall is_byte (_buffer (state Msg o)) /\
      length (_buffer (state Msg o)) = length (_buffer d) /\
      buffered d = taken ++ buffered (state Msg o) /\
      (exists new, pushed Msg o = acc ++ new /\ (6 * length new <= length taken)%nat) /\
      (error Msg o = false -> incomplete (buffered (state Msg o))).
Proof.
  induction fuel as [|fuel IH]; intros d acc Hs Hb Hf; [lia|].
  cbn [Control.drain].
  destruct (Nat.leb_spec 6 (_bufferSize d)) as [H6|H6].
  2:{ exists {| state := d; pushed := acc; error := false |}, [].
      cbn [state pushed error]. split_ands; try reflexivity; try assumption.
      - exists []. rewrite app_nil_r. auto.
      - intros _. left. rewrite length_buffered by exact Hs. exact H6. }
  pose proof (readUInt32BE_nonneg (_buffer d) 2 Hb) as Hsz.
  set (size := readUInt32BE (_buffer d) 2) in *.
  destruct (Z.ltb_spec (Z.of_nat (_bufferSize d)) (6 + size)) as [Hshort|Hwhole].
  { exists {| state := d; pushed := acc; error := false |}, [].
    cbn [state pushed error]. split_ands; try reflexivity; try assumption.
    - exists []. rewrite app_nil_r. auto.
    - intros _. right. rewrite length_buffered by exact Hs.
      destruct (header_buffered d H6) as [_ <-]. exact Hshort. }
  set (k := Z.to_nat (6 + size)) in *.
  assert (Hk : (6 <= k <= _bufferSize d)%nat) by (unfold k; lia).
  destruct (if decide _ then _ else _) as [message|].
  2:{ exists {| state := d; pushed := acc; error := true |}, [].
      cbn [state pushed error]. split_ands; try reflexivity; try assumption.
      - exists []. rewrite app_nil_r. auto.
      - discriminate. }
  destruct (nameById !! _) as [typeName|].
  2:{ exists {| state := d; pushed := acc; error := true |}, [].
      cbn [state pushed error]. split_ands; try reflexivity; try assumption.
      - exists []. rewrite app_nil_r. auto.
      - discriminate. }
  destruct (shift_buffered d k Hs ltac:(lia)) as (Hs' & Hb' & Hl'). cbv zeta in Hs', Hb', Hl'.
  set (d' := {| _buffer := (copy (_buffer d) (_buffer d) 0 k (_bufferSize d)).1;
                _bufferSize := (_bufferSize d - k)%nat |}) in *.
  destruct (IH d' (acc ++ [ {| name := typeName; mpayload := message |} ]) Hs')
    as (o & taken & Hd & Hso & Hbo & Hlo & Htaken & (new & Hnew & Hcount) & Hinc).
  { apply shift_bytes. exact Hb. }
  { cbn [_bufferSize d']. lia. }
  exists o, (take k (buffered d) ++ taken). rewrite Hd.
  split; [reflexivity|]. split; [exact Hso|]. split; [exact Hbo|].
  split; [rewrite Hlo; exact Hl'|]. split.
  { rewrite <- app_assoc, <- Htaken, Hb'. symmetry. apply take_drop. }
  split; [|exact Hinc].
  exists ({| name := typeName; mpayload := message |} :: new).
  split; [rewrite Hnew, <- app_assoc; reflexivity|].
  rewrite length_app, length_take, length_buffered by exact Hs. cbn [length]. lia.
Qed.

Lemma append_bytes d chunk :
  (forall n, Forall is_byte (alloc n)) ->
  Forall is_byte (_buffer d) -> Forall is_byte chunk ->
  Forall is_byte (_buffer (append alloc d chunk)) /\
  (length (_buffer d) <= length (_buffer (append alloc d chunk)))%nat.
Proof using alloc_length.
  intros Ha Hb Hc. unfold append.
  set (room := if (length (_buffer d) - _bufferSize d <? length chunk)%nat
               then (copy (_buffer d) (alloc (_bufferSize d + length chunk)) 0 0
                       (_bufferSize d)).1
               else _buffer d).
  assert (Hroom : Forall is_byte room /\ (length (_buffer d) <= length room)%nat).
  { unfold room. destruct (Nat.ltb_spec (length (_buffer d) - _bufferSize d) (length chunk)).
    - unfold copy. cbn [fst]. split.
      + apply Forall_app. split; [apply Forall_take, Ha|].
        apply Forall_app. split; [apply Forall_take, Forall_drop, Hb|].
        apply Forall_drop, Ha.
      + rewrite !length_app, !length_take, !length_drop, alloc_length. lia.
    - auto. }
  destruct Hroom as [Hrb Hrl].
  unfold copy. cbn [_buffer]. split.
  - apply Forall_app. split; [apply Forall_take, Hrb|].
    apply Forall_app. split; [apply Forall_take, Forall_drop, Hc|].
    apply Forall_drop, Hrb.
  - rewrite !length_app, !length_take, !length_drop. lia.
Qed.

(** [X15] Whatever bytes arrive, a call of the decoder comes to an end
    and keeps its two fields in step.  The buffer never shrinks; the bytes
    held before the call and the chunk are, in order, the bytes taken off
    as frames and the bytes held after the call, at least six taken for
    each message pushed; and unless the call ends in an error, what is
    held is short of a whole frame. *)
Theorem transform_total d chunk :
  (forall n, Forall is_byte (alloc n)) ->
  sound d -> Forall is_byte (_buffer d) -> Forall is_byte chunk ->
  exists o taken,
    transform d chunk = Some o /\
    sound (state Msg o) /\
    (length (_buffer d) <= length (_buffer (state Msg o)))%nat /\
    buffered d ++ chunk = taken ++ buffered (state Msg o) /\
    (6 * length (pushed Msg o) <= length taken)%nat /\
    (error Msg o = false -> incomplete (buffered (state Msg o))).
Proof using alloc_length.
  intros Ha Hs Hb Hc.
  destruct (append_buffered alloc alloc_length d chunk Hs) as [Hs1 Hb1].
  destruct (append_bytes d chunk Ha Hb Hc) as [Hbytes Hlen].
  unfold Control.transform.
  destruct (drain_total (S (_bufferSize (append alloc d chunk))) (append alloc d chunk) []
              Hs1 Hbytes ltac:(lia))
    as (o & taken & Hd & Hso & _ & Hlo & Htaken & (new & Hnew & Hcount) & Hinc).
  exists o, taken. split; [exact Hd|]. split; [exact Hso|].
  split; [rewrite Hlo; exact Hlen|]. split; [rewrite <- Hb1; exact Htaken|].
  split; [|exact Hinc]. rewrite Hnew. exact Hcount.
Qed.

(** *** After an error *)

(** A state on which the loop ends in an error at its first turn, with
    however many turns to go and whatever has been pushed. *)
Local Abbreviation stuck :=
  (fun d : Decoder =>
     forall fuel acc,
       drain (S fuel) d acc = Some {| state := d; pushed := acc; error := true |}).

Lemma drain_error_stuck fuel :
  forall d acc o,
    sound d -> drain fuel d acc = Some o -> error Msg o = true ->
    sound (state Msg o) /\ stuck (state Msg o).
Proof.
  induction fuel as [|fuel IH]; intros d acc o Hs H He; [discriminate H|].
  cbn [Control.drain] in H.
  destruct (Nat.leb_spec 6 (_bufferSize d)) as [H6|H6].
  2:{ injection H as <-. discriminate He. }
  destruct (Z.ltb_spec (Z.of_nat (_bufferSize d)) (6 + readUInt32BE (_buffer d) 2))
    as [Hshort|Hwhole].
  { injection H as <-. discriminate He. }
  destruct (if decide _ then _ else _) as [message|] eqn:Em.
  - destruct (nameById !! _) as [typeName|] eqn:En.
    + apply IH in H; [exact H| |exact He].
      apply (shift_buffered d (Z.to_nat (6 + readUInt32BE (_buffer d) 2)) Hs).
      lia.
    + injection H as <-. cbn [state]. split; [exact Hs|].
      intros fuel' acc'. cbn [Control.drain].
      destruct (Nat.leb_spec 6 (_bufferSize d)); [|lia].
      destruct (Z.ltb_spec (Z.of_nat (_bufferSize d)) (6 + readUInt32BE (_buffer d) 2));
        [lia|].
      rewrite En, Em. reflexivity.
  - injection H as <-. cbn [state]. split; [exact Hs|].
    intros fuel' acc'. cbn [Control.drain].
    destruct (Nat.leb_spec 6 (_bufferSize d)); [|lia].
    destruct (Z.ltb_spec (Z.of_nat (_bufferSize d)) (6 + readUInt32BE (_buffer d) 2));
      [lia|].
    rewrite Em. reflexivity.
Qed.

Lemma slice_buffered d from to :
  (to <= _bufferSize d)%nat -> slice (_buffer d) from to = slice (buffered d) from to.
Proof.
  intros H. unfold slice, buffered. rewrite skipn_firstn_comm, take_take.
  f_equal. lia.
Qed.

Lemma stuck_append d chunk : sound d -> stuck d -> stuck (append alloc d chunk).
Proof using alloc_length.
  intros Hs Hst fuel acc.
  destruct (append_buffered alloc alloc_length d chunk Hs) as [Hs1 Hb1].
  specialize (Hst 0%nat acc). cbn [Control.drain] in Hst |- *.
  assert (Hsize : (_bufferSize d <= _bufferSize (append alloc d chunk))%nat).
  { rewrite <- (length_buffered _ Hs1), Hb1, length_app, length_buffered by exact Hs. lia. }
  destruct (Nat.leb_spec 6 (_bufferSize d)) as [H6|H6]; [|discriminate Hst].
  destruct (Nat.leb_spec 6 (_bufferSize (append alloc d chunk))); [|lia].
  assert (Hread : readUInt16BE (_buffer (append alloc d chunk)) 0 = readUInt16BE (_buffer d) 0 /\
                  readUInt32BE (_buffer (append alloc d chunk)) 2 = readUInt32BE (_buffer d) 2).
  { destruct (header_buffered d H6) as [-> ->].
    destruct (header_buffered (append alloc d chunk) ltac:(lia)) as [-> ->].
    rewrite Hb1. unfold readUInt16BE, readUInt32BE.
    rewrite !at0_app_l by (rewrite length_buffered by exact Hs; lia). auto. }
  destruct Hread as [-> ->].
  destruct (Z.ltb_spec (Z.of_nat (_bufferSize d)) (6 + readUInt32BE (_buffer d) 2))
    as [|Hwhole]; [discriminate Hst|].
  destruct (Z.ltb_spec (Z.of_nat (_bufferSize (append alloc d chunk)))
              (6 + readUInt32BE (_buffer d) 2)); [lia|].
  assert (Hdata : slice (_buffer (append alloc d chunk)) 6
                    (Z.to_nat (6 + readUInt32BE (_buffer d) 2)) =
                  slice (_buffer d) 6 (Z.to_nat (6 + readUInt32BE (_buffer d) 2))).
  { rewrite (slice_buffered d) by lia.
    rewrite (slice_buffered (append alloc d chunk)) by lia.
    rewrite Hb1. unfold slice. rewrite drop_app_le by (rewrite length_buffered by exact Hs; lia).
    apply take_app_le. rewrite length_drop, length_buffered by exact Hs. lia. }
  rewrite Hdata.
  destruct (if decide _ then _ else _) as [message|].
  - destruct (nameById !! _) as [typeName|].
    + (* a turn that goes on has no turn left to end in *)
      discriminate Hst.
    + reflexivity.
  - reflexivity.
Qed.

(** [X16] A frame that fails to decode is not taken out of the buffer:
    once a call has ended in an error, every later call, whatever its
    chunk, appends the chunk, pushes nothing and ends in an error again. *)
Theorem decode_error_sticks d chunk o later :
  sound d -> transform d chunk = Some o -> error Msg o = true ->
  transform (state Msg o) later =
    Some {| state := append alloc (state Msg o) later; pushed := []; error := true |}.
Proof using alloc_length.
  intros Hs H He. unfold Control.transform in H.
  destruct (append_buffered alloc alloc_length d chunk Hs) as [Hs1 _].
  destruct (drain_error_stuck _ _ _ _ Hs1 H He) as [Hso Hst].
  unfold Control.transform. apply (stuck_append _ later Hso Hst).
Qed.

End DecoderAnyInput.

(** ** UDP crypto: blocks *)

Section BlockFacts.
Import JS Crypt.

(** Stores at the indices [0 .. n-1] in turn, as a [for] loop does them. *)
Lemma foldl_insert_seq (f : nat -> Z) n (l : list Z) :
  (n <= length l)%nat ->
  foldl (fun l i => <[i := f i]> l) l (seq 0 n) = map f (seq 0 n) ++ drop n l.
Proof.
  induction n as [|n IH]; intros H; [reflexivity|].
  rewrite seq_S, foldl_app, IH by lia. cbn [foldl Nat.add].
  destruct (lookup_lt_is_Some_2 l n) as [x Hx]; [lia|].
  rewrite insert_app_r_alt by (rewrite length_map, length_seq; lia).
  rewrite length_map, length_seq, Nat.sub_diag.
  rewrite (drop_S _ _ _ Hx). cbn [insert list_insert].
  rewrite map_app. cbn. rewrite <- app_assoc. reflexivity.
Qed.

Lemma XOR_eq dst a b :
  (BLOCK_SIZE <= length dst)%nat -> XOR dst a b = xor_block a b ++ drop BLOCK_SIZE dst.
Proof.
  intros H. unfold XOR, xor_block.
  apply (foldl_insert_seq (fun i => u8 (at0 a i .^ at0 b i))). exact H.
Qed.

Lemma XOR_block dst a b : length dst = BLOCK_SIZE -> XOR dst a b = xor_block a b.
Proof.
  intros H. rewrite XOR_eq by lia. rewrite drop_ge by lia. apply app_nil_r.
Qed.

Lemma xor_block_is_block a b : is_block (xor_block a b).
Proof.
  split.
  - unfold xor_block. rewrite length_map, length_seq. reflexivity.
  - unfold xor_block. apply Forall_map, Forall_forall. intros. apply u8_is_byte.
Qed.

Lemma xor_block_at a b i :
  (i < BLOCK_SIZE)%nat -> at0 (xor_block a b) i = u8 (at0 a i .^ at0 b i).
Proof. intros H. unfold xor_block. apply (at0_map_seq (fun i => u8 (at0 a i .^ at0 b i))). exact H. Qed.

Lemma xor_block_ext a a' b b' :
  (forall i, (i < BLOCK_SIZE)%nat -> at0 a i = at0 a' i) ->
  (forall i, (i < BLOCK_SIZE)%nat -> at0 b i = at0 b' i) ->
  xor_block a b = xor_block a' b'.
Proof.
  intros Ha Hb. unfold xor_block. apply map_seq_ext. intros i Hi.
  rewrite Ha, Hb by exact Hi. reflexivity.
Qed.

(** Bytewise facts about [^]. *)
Lemma lxor_byte a b : is_byte a -> is_byte b -> is_byte (Z.lxor a b).
Proof.
  unfold is_byte. intros Ha Hb. split; [apply Z.lxor_nonneg; lia|].
  assert (Hlog : forall c, 0 <= c < 256 -> Z.log2 c < 8).
  { intros c Hc. destruct (Z.eq_dec c 0) as [->|]; [reflexivity|].
    apply (Z.log2_lt_pow2 c 8); lia. }
  destruct (Z.eq_dec (Z.lxor a b) 0) as [->|Hne]; [lia|].
  assert (0 <= Z.lxor a b) by (apply Z.lxor_nonneg; lia).
  change 256 with (2 ^ 8). apply (Z.log2_lt_pow2 (Z.lxor a b) 8); [lia|].
  eapply Z.le_lt_trans; [apply Z.log2_lxor; lia|].
  apply Z.max_lub_lt; apply Hlog; lia.
Qed.

Lemma bxor_byte a b : is_byte a -> is_byte b -> u8 (a .^ b) = Z.lxor a b.
Proof.
  intros Ha Hb. unfold bxor. unfold is_byte in Ha, Hb.
  rewrite !toInt32_small by lia. apply u8_byte, lxor_byte; assumption.
Qed.

Lemma xor_byte_cancel a b :
  is_byte a -> is_byte b -> u8 (a .^ u8 (a .^ b)) = b /\ u8 (u8 (a .^ b) .^ a) = b.
Proof.
  intros Ha Hb. rewrite (bxor_byte a b) by assumption.
  pose proof (lxor_byte a b Ha Hb) as Hx.
  rewrite !bxor_byte by assumption. split.
  - rewrite <- Z.lxor_assoc, Z.lxor_nilpotent. apply Z.lxor_0_l.
  - rewrite (Z.lxor_comm a b), Z.lxor_assoc, Z.lxor_nilpotent. apply Z.lxor_0_r.
Qed.

Lemma xor_byte_zero a : is_byte a -> u8 (0 .^ a) = a.
Proof.
  intros Ha.
  pose proof (all_bytes (fun a => u8 (0 .^ a) =? a) eq_refl a Ha) as H.
  apply Z.eqb_eq in H. exact H.
Qed.

Lemma xor_block_cancel d x :
  Forall is_byte d -> Forall is_byte x -> (BLOCK_SIZE <= length x)%nat ->
  xor_block d (xor_block d x) = take BLOCK_SIZE x.
Proof.
  intros Hd Hx Hlen. rewrite take_as_map by exact Hlen.
  unfold xor_block at 1. apply map_seq_ext. intros i Hi.
  rewrite xor_block_at by exact Hi.
  apply xor_byte_cancel; apply at0_byte; assumption.
Qed.

(** Loops of byte stores keep a block a block. *)
Lemma foldl_store_block (g : list Z -> nat -> Z) idxs l :
  Forall is_byte l ->
  let l' := foldl (fun l i => <[i := u8 (g l i)]> l) l idxs in
  length l' = length l /\ Forall is_byte l'.
Proof.
  revert l. induction idxs as [|i idxs IH]; intros l Hl; cbn; [auto|].
  destruct (IH (<[i := u8 (g l i)]> l)) as [IH1 IH2].
  - apply Forall_insert; [exact Hl | apply u8_is_byte].
  - cbv zeta in IH1, IH2. rewrite IH1, length_insert. auto.
Qed.

Lemma S2_is_block b : is_block b -> is_block (S2 b).
Proof.
  intros [Hlen Hb]. unfold S2.
  destruct (foldl_store_block
    (fun block i => at0 block i << 1 .| at0 block (i + 1) >> 7)
    (seq 0 (BLOCK_SIZE - 1)) b Hb) as [H1 H2].
  cbv zeta in H1, H2. split.
  - rewrite length_insert, H1. exact Hlen.
  - apply Forall_insert; [exact H2 | apply u8_is_byte].
Qed.

Lemma S3_is_block b : is_block b -> is_block (S3 b).
Proof.
  intros [Hlen Hb]. unfold S3.
  destruct (foldl_store_block
    (fun block i => at0 block i .^ (at0 block i << 1 .| at0 block (i + 1) >> 7))
    (seq 0 (BLOCK_SIZE - 1)) b Hb) as [H1 H2].
  cbv zeta in H1, H2. split.
  - rewrite length_insert, H1. exact Hlen.
  - apply Forall_insert; [exact H2 | apply u8_is_byte].
Qed.

Lemma ZERO_block b : length b = BLOCK_SIZE -> ZERO b = replicate BLOCK_SIZE 0.
Proof.
  intros H. unfold ZERO. rewrite H, Nat.min_id, drop_ge by lia. apply app_nil_r.
Qed.

Lemma length_block_is_block len : is_block (length_block len).
Proof.
  unfold length_block. split.
  - rewrite length_insert, length_replicate. reflexivity.
  - apply Forall_insert; [|apply u8_is_byte].
    apply Forall_replicate. unfold is_byte. lia.
Qed.

End BlockFacts.

(** ** UDP crypto: OCB2 decryption undoes OCB2 encryption *)

Section OcbInverse.
Import JS Crypt.

Variable E D : list Z -> list Z.
Variable alloc : nat -> list Z.

Hypothesis alloc_length : forall n, length (alloc n) = n.
Hypothesis E_block : forall b, is_block b -> is_block (E b).
Hypothesis D_E : forall b, is_block b -> D (E b) = b.

(** The two loops, block by block: the decryption loop run on what the
    encryption loop wrote recovers the plaintext consumed, and leaves the
    same offset, checksum and length for the last block. *)
Lemma blocks_inverse fuel :
  forall len delta checksum tmpE tmpD P Cv Pv,
    is_block delta -> is_block checksum ->
    length tmpE = BLOCK_SIZE -> length tmpD = BLOCK_SIZE ->
    Forall is_byte P -> length P = len -> length Cv = len -> length Pv = len ->
    (len <= 16 + 16 * fuel)%nat ->
    exists wE deltaE checksumE tmpE' CvE,
      encrypt_blocks E fuel len delta checksum tmpE P Cv =
        (wE, ((len - length wE)%nat, deltaE, checksumE, tmpE', drop (length wE) P, CvE)) /\
      (length wE <= len)%nat /\ (len - length wE <= 16)%nat /\
      is_block deltaE /\ is_block checksumE /\ length tmpE' = BLOCK_SIZE /\
      length CvE = (len - length wE)%nat /\
      forall Crest, length Crest = (len - length wE)%nat ->
        exists tmpD' PvD,
          decrypt_blocks D fuel len delta checksum tmpD (wE ++ Crest) Pv =
            (take (length wE) P,
             ((len - length wE)%nat, deltaE, checksumE, tmpD', Crest, PvD)) /\
          length tmpD' = BLOCK_SIZE /\ length PvD = (len - length wE)%nat.
Proof using E_block D_E.
  induction fuel as [|fuel IH];
    intros len delta checksum tmpE tmpD P Cv Pv Hd Hc HtE HtD HP HlP HlC HlPv Hfuel.
  - exists [], delta, checksum, tmpE, Cv. cbn [encrypt_blocks length drop app take].
    rewrite Nat.sub_0_r. split_ands; try assumption; try reflexivity; try lia.
    intros Crest HCr. exists tmpD, Pv. cbn [decrypt_blocks]. auto.
  - cbn [encrypt_blocks decrypt_blocks].
    destruct (Nat.ltb_spec BLOCK_SIZE len) as [Hbig|Hsmall].
    + (* one turn of each loop *)
      unfold BLOCK_SIZE in Hbig.
      set (delta1 := S2 delta).
      assert (Hd1 : is_block delta1) by (apply S2_is_block; exact Hd).
      rewrite (XOR_block tmpE) by exact HtE.
      set (t1 := xor_block delta1 P).
      assert (Ht1 : is_block t1) by apply xor_block_is_block.
      set (t2 := E t1).
      assert (Ht2 : is_block t2) by (apply E_block; exact Ht1).
      rewrite (XOR_eq Cv) by (unfold BLOCK_SIZE; lia).
      rewrite (XOR_block checksum) by (apply Hc).
      set (checksum1 := xor_block checksum P).
      assert (Hc1 : is_block checksum1) by apply xor_block_is_block.
      assert (Hl16 : forall a b, length (xor_block a b) = 16%nat)
        by (intros; apply xor_block_is_block).
      unfold slice_from.
      rewrite (drop_app_length' (xor_block delta1 t2)) by (symmetry; apply Hl16).
      rewrite (take_app_length' (xor_block delta1 t2)) by (symmetry; apply Hl16).
      destruct (IH (len - BLOCK_SIZE)%nat delta1 checksum1 t2 t1
                  (drop BLOCK_SIZE P) (drop BLOCK_SIZE Cv) (drop BLOCK_SIZE Pv))
        as (w' & deltaE & checksumE & tmpE' & CvE & Henc & Hw & Hr & HdE & HcE & HtE' & HCvE & Hdec);
        try assumption; try apply Ht2; try apply Ht1;
        try (rewrite length_drop; unfold BLOCK_SIZE; lia);
        try (unfold BLOCK_SIZE; lia).
      { apply Forall_drop. exact HP. }
      rewrite Henc.
      exists (xor_block delta1 t2 ++ w'), deltaE, checksumE, tmpE', CvE.
      rewrite length_app, Hl16. unfold BLOCK_SIZE in *.
      rewrite drop_drop.
      replace (len - 16 - length w')%nat with (len - (16 + length w'))%nat by lia.
      split_ands; try assumption; try reflexivity; try lia.
      intros Crest HCr.
      destruct (Hdec Crest) as (tmpD' & PvD & Hdec' & HtD' & HPvD); [lia|].
      exists tmpD', PvD.
      rewrite (XOR_block tmpD) by exact HtD.
      assert (Hcan1 : xor_block delta1 ((xor_block delta1 t2 ++ w') ++ Crest) = t2).
      { rewrite (xor_block_ext delta1 delta1 _ (xor_block delta1 t2)); [| reflexivity |].
        - rewrite xor_block_cancel; [| apply Hd1 | apply Ht2 | destruct Ht2 as [-> _]; reflexivity].
          apply take_ge. destruct Ht2 as [-> _]. reflexivity.
        - intros i Hi. rewrite <- app_assoc. apply at0_app_l. rewrite Hl16. exact Hi. }
      rewrite Hcan1.
      assert (HDt2 : D t2 = t1) by (unfold t2; apply D_E; exact Ht1).
      rewrite HDt2.
      rewrite (XOR_eq Pv) by (unfold BLOCK_SIZE; lia).
      assert (Hcan2 : xor_block delta1 t1 = take 16 P).
      { unfold t1. apply xor_block_cancel; [apply Hd1 | exact HP | unfold BLOCK_SIZE; lia]. }
      rewrite Hcan2. unfold BLOCK_SIZE.
      assert (Hck : xor_block checksum (take 16 P ++ drop 16 Pv) = checksum1).
      { unfold checksum1. apply xor_block_ext; [reflexivity|].
        intros i Hi. unfold BLOCK_SIZE in Hi.
        rewrite at0_app_l by (rewrite length_take; lia).
        apply at0_take. exact Hi. }
      rewrite (XOR_block checksum) by (apply Hc).
      rewrite Hck.
      assert (Hl16' : length (take 16 P) = 16%nat) by (rewrite length_take; lia).
      rewrite <- app_assoc.
      rewrite (drop_app_length' (xor_block delta1 t2)) by (symmetry; apply Hl16).
      rewrite (drop_app_length' (take 16 P)) by (symmetry; exact Hl16').
      rewrite (take_app_length' (take 16 P)) by (symmetry; exact Hl16').
      rewrite Hdec'.
      rewrite take_take_drop.
      replace (len - 16 - length w')%nat with (len - (16 + length w'))%nat by lia.
      split_ands; try assumption; try reflexivity; lia.
    + exists [], delta, checksum, tmpE, Cv. cbn [length drop app take].
      rewrite Nat.sub_0_r. unfold BLOCK_SIZE in Hsmall.
      split_ands; try assumption; try reflexivity; try lia.
      intros Crest HCr. exists tmpD, Pv. auto.
Qed.

Lemma copy_head src tgt n :
  (n <= length src)%nat -> (n <= length tgt)%nat ->
  fst (copy src tgt 0 0 n) = take n src ++ drop n tgt.
Proof.
  intros Hs Ht. unfold copy. cbn [fst].
  rewrite (Nat.min_l n (length src)) by exact Hs.
  rewrite !Nat.sub_0_r, (Nat.min_l n (length tgt)) by exact Ht.
  reflexivity.
Qed.

Lemma copy_tail src tgt r :
  length src = BLOCK_SIZE -> length tgt = BLOCK_SIZE -> (r <= BLOCK_SIZE)%nat ->
  fst (copy src tgt r r BLOCK_SIZE) = take r tgt ++ drop r src.
Proof.
  intros Hs Ht Hr. unfold copy. cbn [fst]. rewrite Hs, Ht.
  replace (Nat.min (Nat.min BLOCK_SIZE BLOCK_SIZE - r) (BLOCK_SIZE - r))
    with (BLOCK_SIZE - r)%nat by lia.
  rewrite (take_ge (drop r src)) by (rewrite length_drop; lia).
  rewrite (drop_ge tgt) by lia. rewrite app_nil_r. reflexivity.
Qed.

(** The padded last block that the decryption rebuilds from the last
    ciphertext bytes is the one the encryption built. *)
Lemma last_block_inverse PE pad r :
  Forall is_byte PE -> length PE = r -> (r <= BLOCK_SIZE)%nat -> is_block pad ->
  xor_block (take r (xor_block pad (PE ++ drop r pad))
               ++ drop r (replicate BLOCK_SIZE 0)) pad
  = PE ++ drop r pad.
Proof.
  intros HPE HlPE Hr [Hlp Hbp]. unfold BLOCK_SIZE in *.
  remember (PE ++ drop r pad) as T eqn:ET.
  assert (HlT : length T = 16%nat)
    by (subst T; rewrite length_app, length_drop; lia).
  assert (HbT : Forall is_byte T)
    by (subst T; apply Forall_app; split; [exact HPE | apply Forall_drop; exact Hbp]).
  rewrite <- (take_ge T 16) at 2 by lia.
  rewrite (take_as_map T 16) by lia.
  unfold xor_block at 1. apply map_seq_ext. intros i Hi.
  assert (Hlx : length (take r (xor_block pad T)) = r).
  { rewrite length_take_le; [reflexivity|].
    destruct (xor_block_is_block pad T) as [-> _]. exact Hr. }
  destruct (Nat.lt_ge_cases i r) as [Hlt|Hge].
  - rewrite at0_app_l by lia. rewrite at0_take by exact Hlt.
    rewrite xor_block_at by exact Hi.
    apply xor_byte_cancel; apply at0_byte; assumption.
  - rewrite at0_app_r by lia. rewrite Hlx, at0_drop, at0_replicate.
    rewrite ET at 1. rewrite at0_app_r by lia. rewrite HlPE, at0_drop.
    replace (r + (i - r))%nat with i by lia.
    apply xor_byte_zero, at0_byte. exact Hbp.
Qed.

(** [ocbDecrypt] on the output of [ocbEncrypt], under the same nonce,
    gives the plaintext and the same tag. *)
Lemma ocb_inverse P Cv Pv nonce :
  Forall is_byte P -> length Cv = length P -> length Pv = length P ->
  is_block nonce ->
  exists C tag,
    ocbEncrypt E alloc P Cv nonce = (C, tag) /\
    length C = length P /\ is_block tag /\
    ocbDecrypt E D alloc C Pv nonce = (P, tag).
Proof using alloc_length E_block D_E.
  intros HP HlC HlPv Hn.
  assert (Hz : ZERO (alloc BLOCK_SIZE) = replicate BLOCK_SIZE 0)
    by (apply ZERO_block, alloc_length).
  assert (Hzb : is_block (replicate BLOCK_SIZE 0)).
  { split; [apply length_replicate|]. apply Forall_replicate. unfold is_byte. lia. }
  destruct (blocks_inverse (length P) (length P) (E nonce) (replicate BLOCK_SIZE 0)
              (alloc BLOCK_SIZE) (alloc BLOCK_SIZE) P Cv Pv)
    as (wE & deltaE & checksumE & tmpE' & CvE & Henc & Hw & Hr & HdE & HcE & HtE' & HCvE & Hdec);
    try assumption; try reflexivity; try apply alloc_length; try lia.
  { apply E_block. exact Hn. }
  unfold ocbEncrypt, ocbDecrypt. rewrite Hz, Henc.
  set (r := (length P - length wE)%nat) in *.
  set (PE := drop (length wE) P) in *.
  assert (HlPE : length PE = r) by (unfold PE, r; apply length_drop).
  assert (HbPE : Forall is_byte PE) by (apply Forall_drop; exact HP).
  cbv zeta.
  rewrite (ZERO_block tmpE') by exact HtE'.
  change (<[(BLOCK_SIZE - 1)%nat := u8 (Z.of_nat r * 8)]> (replicate BLOCK_SIZE 0))
    with (length_block r).
  rewrite (XOR_block (length_block r)) by apply length_block_is_block.
  set (d2 := S2 deltaE).
  assert (Hd2 : is_block d2) by (apply S2_is_block; exact HdE).
  set (x := xor_block (length_block r) d2).
  assert (Hx : is_block x) by apply xor_block_is_block.
  set (pad := E x).
  assert (Hpad : is_block pad) by (apply E_block; exact Hx).
  assert (Hr16 : (r <= BLOCK_SIZE)%nat) by (unfold BLOCK_SIZE; lia).
  assert (Hlx : length x = 16%nat) by apply Hx.
  assert (Hlpad : length pad = 16%nat) by apply Hpad.
  (* the last block of the encryption *)
  rewrite (copy_head PE x r) by lia.
  rewrite (take_ge PE r) by lia.
  rewrite (copy_tail pad (PE ++ drop r x) r);
    [| apply Hpad | rewrite length_app, length_drop; unfold BLOCK_SIZE; lia | exact Hr16].
  rewrite (take_app_length' PE) by (symmetry; exact HlPE).
  set (T := PE ++ drop r pad).
  assert (HlT : length T = BLOCK_SIZE).
  { unfold T. rewrite length_app, length_drop. unfold BLOCK_SIZE. lia. }
  rewrite (XOR_block checksumE) by apply HcE.
  rewrite (XOR_block T) by exact HlT.
  set (checksum2 := xor_block checksumE T).
  set (body := xor_block pad T).
  assert (Hbody : is_block body) by apply xor_block_is_block.
  assert (Hlbody : length body = 16%nat) by apply Hbody.
  rewrite (copy_head body CvE r) by lia.
  rewrite (drop_ge CvE r) by lia. rewrite app_nil_r.
  rewrite (XOR_block body) by apply Hbody.
  set (tag := E (xor_block (S3 d2) checksum2)).
  assert (Htag : is_block tag) by (apply E_block, xor_block_is_block).
  assert (HlCf : length (take r body) = r)
    by (apply length_take_le; lia).
  exists (wE ++ take r body), tag.
  split; [reflexivity|]. split; [rewrite length_app, HlCf; lia|].
  split; [exact Htag|].
  (* the decryption of what was written *)
  destruct (Hdec (take r body) HlCf) as (tmpD' & PvD & Hdec' & HtD' & HPvD).
  replace (length (wE ++ take r body)) with (length P)
    by (rewrite length_app, HlCf; lia).
  rewrite HlPv in *. rewrite Hdec'. fold r. cbv zeta.
  rewrite (ZERO_block tmpD') by exact HtD'.
  change (<[(BLOCK_SIZE - 1)%nat := u8 (Z.of_nat r * 8)]> (replicate BLOCK_SIZE 0))
    with (length_block r).
  rewrite (XOR_block (length_block r)) by apply length_block_is_block.
  fold d2. fold x. fold pad.
  rewrite (ZERO_block x) by apply Hx.
  rewrite (copy_head (take r body) (replicate BLOCK_SIZE 0) r)
    by (rewrite ?length_replicate; lia).
  rewrite (take_ge (take r body) r) by lia.
  rewrite (XOR_block (take r body ++ _))
    by (rewrite length_app, length_drop, length_replicate; lia).
  assert (HT : xor_block (take r body ++ drop r (replicate BLOCK_SIZE 0)) pad = T)
    by (apply last_block_inverse; assumption).
  rewrite HT.
  rewrite (XOR_block checksumE) by apply HcE. fold checksum2.
  rewrite (copy_head T PvD r) by lia.
  rewrite (drop_ge PvD r) by lia. rewrite app_nil_r.
  rewrite (XOR_block T) by exact HlT. fold tag.
  unfold T. rewrite (take_app_length' PE) by (symmetry; exact HlPE).
  unfold PE. rewrite take_drop. reflexivity.
Qed.

End OcbInverse.

(** ** UDP crypto: the round trip *)

Section NonceFacts.
Import JS Crypt.

Lemma increment_is_block n : forall i iv, is_block iv -> is_block (increment n i iv).
Proof.
  induction n as [|n IH]; intros i iv [Hl Hb]; [split; assumption|].
  cbn [increment].
  assert (H1 : is_block (<[i := u8 (at0 iv i + 1)]> iv)).
  { split; [rewrite length_insert; exact Hl|].
    apply Forall_insert; [exact Hb | apply u8_is_byte]. }
  destruct (_ =? 256); [|exact H1].
  apply IH. destruct H1 as [Hl1 Hb1]. split; [rewrite length_insert; exact Hl1|].
  apply Forall_insert; [exact Hb1 | apply u8_is_byte].
Qed.

Lemma increment_S n i iv :
  increment (S n) i iv =
    if at0 iv i + 1 =? 256
    then increment n (S i) (<[i := u8 0]> (<[i := u8 (at0 iv i + 1)]> iv))
    else <[i := u8 (at0 iv i + 1)]> iv.
Proof. reflexivity. Qed.

(** As far as [_decryptIV] goes, the carry loops of [decrypt] are the
    increment loop of [encrypt]: the byte that overflowed already holds 0
    when the reset goes elsewhere. *)
Lemma carry_fst n : forall i d e, (carry n i d e).1 = increment n i (d : list Z).
Proof.
  induction n as [|n IH]; intros i d e; [reflexivity|].
  cbn [carry increment].
  destruct (Z.eqb_spec (at0 d i + 1) 256) as [Hv|Hv]; [|reflexivity].
  rewrite IH, Hv. f_equal.
  rewrite list_insert_insert_eq. reflexivity.
Qed.

Lemma increment_below n : forall i iv j,
  (j < i)%nat -> at0 (increment n i iv) j = at0 iv j.
Proof.
  induction n as [|n IH]; intros i iv j Hj; [reflexivity|].
  cbn [increment]. destruct (_ =? 256).
  - rewrite IH by lia. rewrite !at0_insert_ne by lia. reflexivity.
  - apply at0_insert_ne. lia.
Qed.

(** The packet that follows the receiver's nonce takes the in-order
    branch, and the nonce it is decrypted with is the sender's. *)
Lemma synchronise_in_order c :
  is_block (_decryptIV c) ->
  exists e,
    synchronise c (at0 (increment BLOCK_SIZE 0 (_decryptIV c)) 0) =
      Synced {| s_decryptIV := increment BLOCK_SIZE 0 (_decryptIV c);
                s_encryptIV := e;
                restore := false; s_late := 0; s_lost := 0 |}.
Proof.
  intros [Hl Hb]. unfold synchronise.
  destruct (_decryptIV c) as [|d0 tl] eqn:Hiv; [discriminate Hl|].
  assert (Hd0 : is_byte d0) by (inversion Hb; assumption).
  change (at0 (d0 :: tl) 0) with d0. cbv zeta.
  change BLOCK_SIZE with 16%nat. rewrite !(increment_S 15 0).
  change (at0 (d0 :: tl) 0) with d0. cbn [insert list_insert].
  unfold is_byte in Hd0.
  destruct (Z.eqb_spec (d0 + 1) 256) as [Hv|Hv].
  - assert (d0 = 255) by lia. subst d0.
    rewrite increment_below by lia.
    change (at0 (u8 0 :: tl) 0) with 0.
    change ((255 + 1) .& 255 =? 0) with true.
    change (255 <? 0) with false. change (0 <? 255) with true. cbv iota.
    change (<[0%nat := u8 0]> (255 :: tl)) with (u8 0 :: tl).
    change (16 - 1)%nat with 15%nat.
    pose proof (carry_fst 15 1 (u8 0 :: tl) (_encryptIV c)) as Hc.
    destruct (carry 15 1 (u8 0 :: tl) (_encryptIV c)) as [d e].
    cbn [fst] in Hc. subst d. exists e. reflexivity.
  - rewrite (u8_byte (d0 + 1)) by (unfold is_byte; lia).
    change (at0 (d0 + 1 :: tl) 0) with (d0 + 1).
    change 255 with (2 ^ 8 - 1). rewrite (band_low (d0 + 1) 8) by lia.
    rewrite Z.mod_small by lia. rewrite Z.eqb_refl.
    destruct (Z.ltb_spec d0 (d0 + 1)) as [_|?]; [|lia].
    exists (_encryptIV c).
    change (<[0%nat := u8 (d0 + 1)]> (d0 :: tl)) with (u8 (d0 + 1) :: tl).
    rewrite (u8_byte (d0 + 1)) by (unfold is_byte; lia). reflexivity.
Qed.

(** The four stores that complete the packet. *)
Lemma packet_header (hd C : list Z) a b c d :
  length hd = 4%nat ->
  <[3%nat := d]> (<[2%nat := c]> (<[1%nat := b]> (<[0%nat := a]> (hd ++ C))))
  = a :: b :: c :: d :: C.
Proof.
  intros H. destruct hd as [|h0 [|h1 [|h2 [|h3 [|h4 hd]]]]]; try discriminate H.
  reflexivity.
Qed.

End NonceFacts.

Section RoundTrip.
Import JS Crypt.

Variable aes aes_inv : list Z -> list Z -> list Z.
Variable alloc : nat -> list Z.

(** What is assumed of the outside: an allocation has the size asked
    for; AES maps blocks to blocks, and the decipher undoes the cipher
    under the same key. *)
Hypothesis alloc_length : forall n, length (alloc n) = n.
Hypothesis aes_block :
  forall key b, is_block key -> is_block b -> is_block (aes key b).
Hypothesis aes_inverse :
  forall key b, is_block key -> is_block b -> aes_inv key (aes key b) = b.

(** [C1] A receiver [rx] with the key of the sender [tx], whose
    [_decryptIV] equals the sender's [_encryptIV] before the call,
    decrypts what the sender encrypts to the plaintext, and afterwards
    its [_decryptIV] equals the sender's [_encryptIV]. *)
Theorem crypto_round_trip (tx rx : UdpCrypt) (P : list Z) :
  ready tx -> ready rx -> Forall is_byte P ->
  _key rx = _key tx -> _decryptIV rx = _encryptIV tx ->
  (decrypt aes aes_inv alloc rx (encrypt aes alloc tx P).2).2 = Some P /\
  _decryptIV (decrypt aes aes_inv alloc rx (encrypt aes alloc tx P).2).1
    = _encryptIV (encrypt aes alloc tx P).1.
Proof using alloc_length aes_block aes_inverse.
  intros (Hk & _ & He) _ HP Hkey Hiv.
  set (IV' := increment BLOCK_SIZE 0 (_encryptIV tx)).
  assert (HIV' : is_block IV') by (apply increment_is_block; exact He).
  destruct (ocb_inverse (aes (_key tx)) (aes_inv (_key tx)) alloc alloc_length
              (fun b => aes_block _ b Hk) (fun b => aes_inverse _ b Hk)
              P (drop 4 (alloc (length P + 4))) (alloc (length P)) IV')
    as (C & tag & Henc & HlC & Htag & Hdec);
    try assumption; try (rewrite ?length_drop, alloc_length; lia).
  (* the packet *)
  unfold encrypt. fold IV'. unfold slice_from. rewrite Henc. cbn [fst snd].
  rewrite packet_header by (rewrite length_take, alloc_length; lia).
  rewrite (u8_byte (at0 IV' 0)) by (apply at0_byte, HIV').
  rewrite !(u8_byte (at0 tag _)) by (apply at0_byte, Htag).
  (* the receiver *)
  unfold decrypt. cbn [length Nat.ltb Nat.leb].
  change (at0 (at0 IV' 0 :: _) 0) with (at0 IV' 0).
  destruct (synchronise_in_order rx) as [e Hs]; [rewrite Hiv; exact He|].
  rewrite Hiv in Hs. fold IV' in Hs. rewrite Hs. cbn [s_decryptIV restore].
  unfold slice_from. cbn [drop]. change (drop 0 C) with C. rewrite Hkey.
  replace (S (S (S (S (length C)))) - 4)%nat with (length P) by lia.
  rewrite Hdec.
  assert (Htags : slice tag 0 3 =
                  slice (at0 IV' 0 :: at0 tag 0 :: at0 tag 1 :: at0 tag 2 :: C) 1 4).
  { destruct Htag as [Hlt _].
    destruct tag as [|a0 [|a1 [|a2 rest]]]; try discriminate Hlt. reflexivity. }
  destruct (decide _) as [_|Hne]; [|contradiction].
  cbn [fst snd _decryptIV _encryptIV]. auto.
Qed.

End RoundTrip.

(** ** The stand-in cipher meets what the round trip assumes of AES *)

Section MaskFacts.
Import JS Crypt.

Lemma is_block_check b :
  (length b =? BLOCK_SIZE)%nat && forallb is_byteb b = true -> is_block b.
Proof.
  intros H. apply andb_true_iff in H as [Hl Hb]. split.
  - apply Nat.eqb_eq. exact Hl.
  - apply Forall_forall. intros x Hx. rewrite forallb_forall in Hb.
    specialize (Hb x (proj1 (list_elem_of_In _ _) Hx)).
    unfold is_byteb in Hb. unfold is_byte. lia.
Qed.

Lemma mask_block key b : is_block key -> is_block b -> is_block (mask key b).
Proof.
  intros [Hlk Hbk] [Hlb Hbb]. unfold mask. split.
  - rewrite length_zip_with, Hlk, Hlb. reflexivity.
  - clear Hlk Hlb. revert key Hbk.
    induction Hbb as [|x b Hx Hb IH]; intros key Hbk; [constructor|].
    destruct Hbk as [|k key Hk Hkey]; [constructor|].
    cbn. constructor; [apply lxor_byte; assumption | apply IH; exact Hkey].
Qed.

Lemma mask_inverse key b : is_block key -> is_block b -> mask key (mask key b) = b.
Proof.
  intros [Hlk _] [Hlb _]. unfold mask. rewrite <- Hlb in Hlk. clear Hlb.
  revert key Hlk. induction b as [|x b IH]; intros [|k key] Hl; try discriminate Hl.
  - reflexivity.
  - cbn. rewrite Z.lxor_assoc, Z.lxor_nilpotent, Z.lxor_0_r.
    f_equal. apply IH. cbn in Hl. lia.
Qed.

End MaskFacts.

(** The round trip on concrete data, across a carry out of two nonce bytes. *)
Lemma crypto_round_trip_witness :
  let tx := Samples.sender in
  let rx := Samples.receiver in
  let packet := (Crypt.encrypt Crypt.mask JS.zeroed tx Samples.hello).2 in
  Crypt._decryptIV rx = Crypt._encryptIV tx /\
  packet = [0; 207; 226; 219; 166; 139; 146; 140; 143] /\
  (Crypt.decrypt Crypt.mask Crypt.mask JS.zeroed rx packet).2 = Some Samples.hello /\
  Crypt._decryptIV (Crypt.decrypt Crypt.mask Crypt.mask JS.zeroed rx packet).1
    = Crypt._encryptIV (Crypt.encrypt Crypt.mask JS.zeroed tx Samples.hello).1.
Proof.
  cbv zeta. split; [reflexivity|]. split; [vm_compute; reflexivity|].
  apply (crypto_round_trip Crypt.mask Crypt.mask JS.zeroed
           zeroed_length mask_block mask_inverse Samples.sender Samples.receiver
           Samples.hello).
  - unfold Crypt.ready; split_ands; apply is_block_check; vm_compute; reflexivity.
  - unfold Crypt.ready; split_ands; apply is_block_check; vm_compute; reflexivity.
  - apply Forall_forall. intros x Hx.
    apply list_elem_of_In in Hx. cbn in Hx. unfold JS.is_byte. intuition lia.
  - reflexivity.
  - reflexivity.
Defined.

(** ** UDP crypto: [encrypt] and [decrypt] *)

Section UdpCryptFacts.
Import JS Crypt Samples.

Variable aes aes_inv : list Z -> list Z -> list Z.
Variable alloc : nat -> list Z.

(** Where the synchronisation gives up, the nonce is the one the call
    started with. *)
Lemma synchronise_null c ivbyte d e :
  synchronise c ivbyte = Null d e -> d = _decryptIV c.
Proof.
  unfold synchronise.
  repeat match goal with
         | |- context [if ?b then _ else _] => destruct b
         | |- context [let '(_, _) := ?x in _] => destruct x
         end; intros H; inversion H; reflexivity.
Qed.

(** [C4] A call of [decrypt] that returns [null], for whichever of its
    reasons, leaves [_decryptIV] with the bytes it had before the call
    and [_decryptHistory] as it was. *)
Theorem decrypt_failure_atomic c cipherText :
  (decrypt aes aes_inv alloc c cipherText).2 = None ->
  _decryptIV (decrypt aes aes_inv alloc c cipherText).1 = _decryptIV c /\
  _decryptHistory (decrypt aes aes_inv alloc c cipherText).1 = _decryptHistory c.
Proof.
  unfold decrypt.
  destruct (length cipherText <? 4)%nat; [auto|].
  destruct (synchronise c (at0 cipherText 0)) as [d e|s] eqn:Hs.
  - apply synchronise_null in Hs. subst d. auto.
  - destruct (ocbDecrypt _ _ _ _ _ _) as [plainText tag].
    destruct (decide _); cbn; [discriminate|auto].
Qed.

(** [X30] A call of [decrypt] that returns [null] leaves the counters
    [good], [late] and [lost] as they were. *)
Lemma decrypt_failure_stats c cipherText :
  (decrypt aes aes_inv alloc c cipherText).2 = None ->
  _stats (decrypt aes aes_inv alloc c cipherText).1 = _stats c.
Proof.
  unfold decrypt.
  destruct (length cipherText <? 4)%nat; [auto|].
  destruct (synchronise c (at0 cipherText 0)) as [d e|s].
  - auto.
  - destruct (ocbDecrypt _ _ _ _ _ _) as [plainText tag].
    destruct (decide _); cbn; [discriminate|auto].
Qed.

Lemma borrow_S n i d :
  borrow (S n) i d =
    if at0 d i =? -1
    then borrow n (S i) (<[i := u8 255]> (<[i := u8 (at0 d i - 1)]> d))
    else <[i := u8 (at0 d i - 1)]> d.
Proof. reflexivity. Qed.

(** What the late-across-wraparound branch does to the nonce: the borrow
    loop starts at index 0 and compares the byte it read with -1, so it
    decrements byte 0 once and stops. *)
Lemma borrow_first d :
  is_byte (at0 d 0) ->
  borrow BLOCK_SIZE 0 d = <[0%nat := u8 (at0 d 0 - 1)]> d.
Proof.
  intros Hb. change BLOCK_SIZE with 16%nat. rewrite (borrow_S 15 0).
  destruct (Z.eqb_spec (at0 d 0) (-1)) as [E|_]; [|reflexivity].
  unfold is_byte in Hb. lia.
Qed.

(** [C5] The receiver's nonce is [02 00 .. 00] and the packet carries
    [ivbyte = 0xFF]: late by three, across the wrap.  The branch counts
    [late = 1], [lost = -1] and asks for the restore, but the nonce it
    decrypts with is [FE 00 .. 00]; setting byte 0 to [ivbyte] and
    borrowing from the bytes above gives [FF FF .. FF].  A packet that
    was sent under that nonce is refused. *)
Theorem late_wraparound_nonce_differs :
  synchronise wrapped_receiver 0xFF =
    Synced {| s_decryptIV := 0xFE :: replicate 15 0;
              s_encryptIV := _encryptIV wrapped_receiver;
              restore := true; s_late := 1; s_lost := -1 |} /\
  late_wraparound_nonce (_decryptIV wrapped_receiver) 0xFF = replicate 16 0xFF /\
  _encryptIV (encrypt mask zeroed late_sender hello).1 = replicate 16 0xFF /\
  (decrypt mask mask zeroed wrapped_receiver
     (encrypt mask zeroed late_sender hello).2).2 = None.
Proof. split_ands; vm_compute; reflexivity. Qed.

(** [C10] The receiver's nonce is [FF FF 00 .. 00] and the packet is in
    order ([ivbyte = 0]): the carry out of byte 1 is answered by a store
    of 0 into [_encryptIV[1]], whatever the rest of the packet is and
    whether or not it authenticates. *)
Theorem decrypt_writes_encryptIV (t1 t2 t3 : Z) (body : list Z) :
  _encryptIV carrying_receiver = replicate 16 5 /\
  _encryptIV (decrypt aes aes_inv alloc carrying_receiver
                (0 :: t1 :: t2 :: t3 :: body)).1
    = 5 :: 0 :: replicate 14 5.
Proof.
  split; [reflexivity|].
  unfold decrypt. cbn [length Nat.ltb Nat.leb].
  change (at0 (0 :: t1 :: t2 :: t3 :: body) 0) with 0.
  assert (Hs : synchronise carrying_receiver 0 =
               Synced {| s_decryptIV := 0 :: 0 :: 1 :: replicate 13 0;
                         s_encryptIV := 5 :: 0 :: replicate 14 5;
                         restore := false; s_late := 0; s_lost := 0 |})
    by (vm_compute; reflexivity).
  rewrite Hs.
  destruct (ocbDecrypt _ _ _ _ _ _) as [plainText tag].
  destruct (decide _); reflexivity.
Qed.

End UdpCryptFacts.

(** A failed call on concrete data: the tag bytes of the packet are wrong. *)
Lemma decrypt_failure_atomic_witness :
  let r := Crypt.decrypt Crypt.mask Crypt.mask JS.zeroed Samples.receiver [0; 1; 2; 3; 9; 9] in
  r.2 = None /\
  Crypt._decryptIV r.1 = Crypt._decryptIV Samples.receiver /\
  Crypt._decryptHistory r.1 = Crypt._decryptHistory Samples.receiver.
Proof.
  cbv zeta. split; [vm_compute; reflexivity|].
  apply (decrypt_failure_atomic Crypt.mask Crypt.mask JS.zeroed
           Samples.receiver [0; 1; 2; 3; 9; 9]).
  vm_compute. reflexivity.
Defined.

(** ** UDP crypto: the two slips, on every state *)

Section NonceSlips.
Import JS Crypt.

Variable aes aes_inv : list Z -> list Z -> list Z.
Variable alloc : nat -> list Z.

(** Every packet that is late across the wrap-around and passes the
    history check is decrypted under the receiver's nonce with byte 0
    replaced by [ivbyte - 1]; the bytes above are never borrowed from. *)
Lemma synchronise_late_wraparound c ivbyte :
  is_byte ivbyte ->
  let d := _decryptIV c in
  let d0 := at0 d 0 in
  is_byte d0 -> (0 < length d)%nat ->
  d0 < ivbyte -> 226 < ivbyte - d0 ->
  let nonce := <[0%nat := ivbyte - 1]> d in
  _decryptHistory c !! at0 nonce 0 <> Some (at0 nonce 1) ->
  synchronise c ivbyte =
    Synced {| s_decryptIV := nonce; s_encryptIV := _encryptIV c;
              restore := true; s_late := 1; s_lost := -1 |}.
Proof.
  intros Hiv d d0 Hd0 Hlen Hlt Hdiff nonce Hhist.
  unfold is_byte in Hiv, Hd0.
  assert (Hborrow : borrow BLOCK_SIZE 0 (<[0%nat := u8 ivbyte]> d) = nonce).
  { rewrite borrow_first.
    - rewrite list_insert_insert_eq.
      assert (E : at0 (<[0%nat := u8 ivbyte]> d) 0 = ivbyte).
      { apply at0_lookup. rewrite list_lookup_insert_eq by exact Hlen.
        rewrite u8_byte by exact Hiv. reflexivity. }
      rewrite E. rewrite u8_byte by (unfold is_byte; lia). reflexivity.
    - replace (at0 (<[0%nat := u8 ivbyte]> d) 0) with ivbyte; [exact Hiv|].
      symmetry. apply at0_lookup. rewrite list_lookup_insert_eq by exact Hlen.
      rewrite u8_byte by exact Hiv. reflexivity. }
  unfold synchronise. fold d. fold d0. cbv zeta.
  assert (Hband : (d0 + 1) .& 255 = (d0 + 1) mod 256).
  { change 255 with (2 ^ 8 - 1). rewrite (band_low (d0 + 1) 8) by lia. reflexivity. }
  rewrite Hband.
  destruct (Z.eqb_spec ((d0 + 1) mod 256) ivbyte) as [E|_].
  { exfalso. destruct (Z.eq_dec d0 255) as [->|].
    - change ((255 + 1) mod 256) with 0 in E. lia.
    - rewrite Z.mod_small in E by lia. lia. }
  destruct (Z.ltb_spec 128 (ivbyte - d0)) as [_|?]; [|lia].
  destruct (Z.ltb_spec ivbyte d0) as [?|_]; [lia|]. cbn [andb].
  destruct (Z.ltb_spec d0 ivbyte) as [_|?]; [|lia].
  destruct (Z.ltb_spec (-30) (ivbyte - d0 - 256)) as [_|?]; [|lia].
  destruct (Z.ltb_spec (ivbyte - d0 - 256) 0) as [_|?]; [|lia]. cbn [andb].
  rewrite Hborrow. cbn [s_decryptIV s_encryptIV].
  destruct (decide _) as [Hhit|_]; [contradiction|reflexivity].
Qed.

Lemma carry_S n i d e :
  carry (S n) i d e =
    if at0 d i + 1 =? 256
    then carry n (S i) (<[i := u8 (at0 d i + 1)]> d) (<[i := u8 0]> e)
    else (<[i := u8 (at0 d i + 1)]> d, e).
Proof. reflexivity. Qed.

(** The carry loop stores into [_encryptIV] from its start index on. *)
Lemma carry_snd_below n : forall i d e j,
  (j < i)%nat -> at0 (carry n i d e).2 j = at0 e j.
Proof.
  induction n as [|n IH]; intros i d e j Hj; [reflexivity|].
  rewrite carry_S. destruct (_ =? 256); [|reflexivity].
  rewrite IH by lia. apply at0_insert_ne. lia.
Qed.

(** Every in-order packet that arrives when the two low bytes of the
    receiver's nonce are [FF FF] leaves [_encryptIV[1]] at 0. *)
Lemma decrypt_carry_resets_encryptIV c cipherText :
  (4 <= length cipherText)%nat -> at0 cipherText 0 = 0 ->
  at0 (_decryptIV c) 0 = 255 -> at0 (_decryptIV c) 1 = 255 ->
  (2 <= length (_encryptIV c))%nat ->
  at0 (_encryptIV (decrypt aes aes_inv alloc c cipherText).1) 1 = 0.
Proof.
  intros Hlen Hiv Hd0 Hd1 He. unfold decrypt.
  destruct (Nat.ltb_spec (length cipherText) 4) as [?|_]; [lia|].
  rewrite Hiv.
  assert (Hs : exists s, synchronise c 0 = Synced s /\ at0 (s_encryptIV s) 1 = 0).
  { unfold synchronise. rewrite Hd0. cbv zeta.
    change ((255 + 1) .& 255 =? 0) with true.
    change (255 <? 0) with false. change (0 <? 255) with true. cbv iota.
    change (BLOCK_SIZE - 1)%nat with 15%nat.
    rewrite (carry_S 14 1).
    rewrite (at0_insert_ne (_decryptIV c) 0 1) by lia. rewrite Hd1.
    change (255 + 1 =? 256) with true. cbv iota.
    pose proof (carry_snd_below 14 2
                  (<[1%nat := u8 (255 + 1)]> (<[0%nat := u8 0]> (_decryptIV c)))
                  (<[1%nat := u8 0]> (_encryptIV c)) 1%nat) as Hc.
    destruct (carry 14 2 _ _) as [d' e'].
    eexists; split; [reflexivity|]. cbn [s_encryptIV snd] in *.
    rewrite Hc by lia. apply at0_lookup. apply list_lookup_insert_eq. lia. }
  destruct Hs as (s & -> & Hs).
  destruct (ocbDecrypt _ _ _ _ _ _) as [plainText tag].
  destruct (decide _); exact Hs.
Qed.

End NonceSlips.

(** ** UDP crypto: the two offset updates of OCB2 *)

Section OffsetFacts.
Import JS Crypt.

(** A loop of stores at the indices [0 .. n-1] in turn, each computed
    from entries of the block that the loop has not yet stored to, stores
    what the block held at the start gives. *)
Lemma foldl_in_place (g : list Z -> nat -> Z) n (l : list Z) :
  (forall l' i, (i < n)%nat -> (forall j, (i <= j)%nat -> at0 l' j = at0 l j) ->
                g l' i = g l i) ->
  (n <= length l)%nat ->
  foldl (fun l i => <[i := g l i]> l) l (seq 0 n) = map (g l) (seq 0 n) ++ drop n l.
Proof.
  intros Hg. induction n as [|n IH]; intros H; [reflexivity|].
  rewrite seq_S, foldl_app, IH by (auto; lia). cbn [foldl Nat.add].
  assert (Hsame : g (map (g l) (seq 0 n) ++ drop n l) n = g l n).
  { apply Hg; [lia|]. intros j Hj.
    rewrite at0_app_r by (rewrite length_map, length_seq; lia).
    rewrite length_map, length_seq, at0_drop. f_equal. lia. }
  rewrite Hsame.
  destruct (lookup_lt_is_Some_2 l n) as [x Hx]; [lia|].
  rewrite insert_app_r_alt by (rewrite length_map, length_seq; lia).
  rewrite length_map, length_seq, Nat.sub_diag.
  rewrite (drop_S _ _ _ Hx). cbn [insert list_insert].
  rewrite map_app. cbn. rewrite <- app_assoc. reflexivity.
Qed.

(** [S2] and [S3] byte by byte, in terms of the block they are given. *)
Lemma S2_bytes b :
  length b = BLOCK_SIZE ->
  S2 b =
    map (fun i => u8 (at0 b i << 1 .| at0 b (i + 1) >> 7)) (seq 0 (BLOCK_SIZE - 1))
    ++ [u8 (at0 b (BLOCK_SIZE - 1) << 1 .^ ((at0 b 0 >> 7) * 0x87))].
Proof.
  intros Hl. unfold S2.
  rewrite (foldl_in_place (fun block i => u8 (at0 block i << 1 .| at0 block (i + 1) >> 7)))
    by first [ intros l' i Hi Hsame; rewrite !Hsame by lia; reflexivity
             | unfold BLOCK_SIZE in *; lia ].
  unfold BLOCK_SIZE in *.
  destruct b as [|b0 [|b1 [|b2 [|b3 [|b4 [|b5 [|b6 [|b7 [|b8 [|b9 [|b10 [|b11
    [|b12 [|b13 [|b14 [|b15 [|b16 b]]]]]]]]]]]]]]]]]; try discriminate Hl.
  reflexivity.
Qed.

Lemma S3_bytes b :
  length b = BLOCK_SIZE ->
  S3 b =
    map (fun i => u8 (at0 b i .^ (at0 b i << 1 .| at0 b (i + 1) >> 7)))
      (seq 0 (BLOCK_SIZE - 1))
    ++ [u8 (at0 b (BLOCK_SIZE - 1) .^
              (at0 b (BLOCK_SIZE - 1) << 1 .^ ((at0 b 0 >> 7) * 0x87)))].
Proof.
  intros Hl. unfold S3.
  rewrite (foldl_in_place
             (fun block i => u8 (at0 block i .^ (at0 block i << 1 .| at0 block (i + 1) >> 7))))
    by first [ intros l' i Hi Hsame; rewrite !Hsame by lia; reflexivity
             | unfold BLOCK_SIZE in *; lia ].
  unfold BLOCK_SIZE in *.
  destruct b as [|b0 [|b1 [|b2 [|b3 [|b4 [|b5 [|b6 [|b7 [|b8 [|b9 [|b10 [|b11
    [|b12 [|b13 [|b14 [|b15 [|b16 b]]]]]]]]]]]]]]]]]; try discriminate Hl.
  reflexivity.
Qed.

(** Storing the low eight bits of one operand of [^] first changes
    nothing in the low eight bits of the result. *)
Lemma bxor_u8_r x y :
  0 <= x < 2 ^ 31 -> 0 <= y < 2 ^ 31 -> u8 (x .^ u8 y) = u8 (x .^ y).
Proof.
  intros Hx Hy. unfold bxor, u8.
  assert (0 <= y mod 256 < 256) by (apply Z.mod_pos_bound; lia).
  rewrite !toInt32_small by lia.
  change 256 with (2 ^ 8). rewrite <- !Z.land_ones by lia.
  apply Z.bits_inj'. intros n Hn.
  rewrite !Z.land_spec, !Z.lxor_spec, Z.land_spec.
  destruct (Z.testbit x n), (Z.testbit y n), (Z.testbit (Z.ones 8) n); reflexivity.
Qed.

Lemma lxor_below a b k :
  0 <= k -> 0 <= a < 2 ^ k -> 0 <= b < 2 ^ k -> 0 <= Z.lxor a b < 2 ^ k.
Proof.
  intros Hk Ha Hb. split; [apply Z.lxor_nonneg; lia|].
  destruct (Z.eq_dec a 0) as [->|Hna]; [rewrite Z.lxor_0_l; lia|].
  destruct (Z.eq_dec b 0) as [->|Hnb]; [rewrite Z.lxor_0_r; lia|].
  destruct (Z.eq_dec (Z.lxor a b) 0) as [->|Hne]; [lia|].
  assert (0 <= Z.lxor a b) by (apply Z.lxor_nonneg; lia).
  apply Z.log2_lt_pow2; [lia|].
  eapply Z.le_lt_trans; [apply Z.log2_lxor; lia|].
  apply Z.max_lub_lt; apply Z.log2_lt_pow2; lia.
Qed.

(** The shifted bytes that both functions compute. *)
Lemma shifted_byte x y :
  is_byte x -> is_byte y -> 0 <= x << 1 .| y >> 7 < 2 ^ 31.
Proof.
  unfold is_byte. intros Hx Hy.
  rewrite (shl_mul x 1) by lia. rewrite (sar_div y 7) by lia.
  assert (0 <= y / 2 ^ 7 < 2) by (split; [apply Z.div_pos; lia | apply Z.div_lt_upper_bound; lia]).
  rewrite (bor_add x (y / 2 ^ 7) 1) by lia. lia.
Qed.

Lemma shifted_last x c :
  is_byte x -> is_byte c -> 0 <= x << 1 .^ ((c >> 7) * 0x87) < 2 ^ 31.
Proof.
  unfold is_byte. intros Hx Hc.
  rewrite (shl_mul x 1) by lia. rewrite (sar_div c 7) by lia.
  assert (0 <= c / 2 ^ 7 < 2) by (split; [apply Z.div_pos; lia | apply Z.div_lt_upper_bound; lia]).
  unfold bxor. rewrite !toInt32_small by lia.
  pose proof (lxor_below (x * 2 ^ 1) (c / 2 ^ 7 * 135) 9 ltac:(lia) ltac:(lia) ltac:(lia)).
  lia.
Qed.

(** [X17] [S3] is what the comment above it says: the block XORed with
    its [S2], that is [XOR(block, block, S2(block))]. *)
Theorem S3_is_xor_S2 b : is_block b -> S3 b = xor_block b (S2 b).
Proof.
  intros [Hl Hb]. rewrite S3_bytes by exact Hl.
  unfold xor_block. change BLOCK_SIZE with 16%nat.
  change (seq 0 16) with (seq 0 15 ++ [15%nat]). rewrite map_app.
  f_equal.
  - apply map_seq_ext. intros i Hi.
    rewrite (S2_bytes b Hl). change (BLOCK_SIZE - 1)%nat with 15%nat.
    rewrite at0_app_l by (rewrite length_map, length_seq; exact Hi).
    rewrite (at0_map_seq (fun i => u8 (at0 b i << 1 .| at0 b (i + 1) >> 7))) by exact Hi.
    symmetry. apply bxor_u8_r.
    + pose proof (at0_byte b i Hb) as H. unfold is_byte in H. lia.
    + apply shifted_byte; apply at0_byte; exact Hb.
  - cbn [map]. f_equal.
    rewrite (S2_bytes b Hl). change (BLOCK_SIZE - 1)%nat with 15%nat.
    rewrite at0_app_r by (rewrite length_map, length_seq; lia).
    rewrite length_map, length_seq. change (15 - 15)%nat with 0%nat.
    change (at0 [?x] 0) with x.
    symmetry. apply bxor_u8_r.
    + pose proof (at0_byte b (16 - 1) Hb) as H. unfold is_byte in H. lia.
    + apply shifted_last; apply at0_byte; exact Hb.
Qed.

End OffsetFacts.

(** ** UDP crypto: [S2] as a doubling *)

Section Doubling.
Import JS Crypt.

Lemma be_value_foldl (l : list Z) acc :
  foldl (fun acc x => acc * 256 + x) acc l = acc * 256 ^ Z.of_nat (length l) + be_value l.
Proof.
  unfold be_value. revert acc. induction l as [|x l IH]; intros acc.
  - cbn. lia.
  - cbn [foldl length]. rewrite IH, (IH (0 * 256 + x)).
    rewrite Nat2Z.inj_succ, Z.pow_succ_r by lia. lia.
Qed.

Lemma be_value_cons x (l : list Z) :
  be_value (x :: l) = x * 256 ^ Z.of_nat (length l) + be_value l.
Proof. unfold be_value at 1. cbn [foldl]. rewrite be_value_foldl. lia. Qed.

Lemma be_value_snoc (l : list Z) x : be_value (l ++ [x]) = be_value l * 256 + x.
Proof. unfold be_value. rewrite foldl_app. reflexivity. Qed.

Lemma be_value_bound l :
  Forall is_byte l -> 0 <= be_value l < 256 ^ Z.of_nat (length l).
Proof.
  induction 1 as [|x l Hx Hl IH]; [cbn; lia|].
  rewrite be_value_cons. cbn [length]. rewrite Nat2Z.inj_succ, Z.pow_succ_r by lia.
  unfold is_byte in Hx. nia.
Qed.

(** The bit that a byte takes in is the bit that the doubling of the
    bytes after it carries out. *)
Lemma top_bit l :
  Forall is_byte l ->
  at0 l 0 / 128 = (2 * be_value l) / 256 ^ Z.of_nat (length l).
Proof.
  intros Hl. destruct Hl as [|h l Hh Hl]; [reflexivity|].
  change (at0 (h :: l) 0) with h.
  rewrite be_value_cons. cbn [length]. rewrite Nat2Z.inj_succ, Z.pow_succ_r by lia.
  pose proof (be_value_bound l Hl) as HB.
  set (M := 256 ^ Z.of_nat (length l)) in *. set (B := be_value l) in *.
  unfold is_byte in Hh.
  assert (HM : 0 < M) by (unfold M; apply Z.pow_pos_nonneg; lia).
  pose proof (Z.div_mod h 128 ltac:(lia)) as Hdm.
  pose proof (Z.mod_pos_bound h 128 ltac:(lia)) as Hm.
  set (t := h / 128) in *. set (s := h mod 128) in *.
  assert (Hs : 0 <= s * M <= 127 * M) by nia.
  apply (Z.div_unique _ _ _ (2 * (s * M) + 2 * B)); [lia|].
  rewrite Hdm. ring.
Qed.

Lemma shifted_length l : length (shifted l) = length l.
Proof. induction l as [|x l IH]; cbn; congruence. Qed.

(** Shifting the bytes doubles the number they spell, short of the bit
    that falls off. *)
Lemma be_value_shifted l :
  Forall is_byte l ->
  be_value (shifted l) = (2 * be_value l) mod 256 ^ Z.of_nat (length l).
Proof.
  induction 1 as [|x l Hx Hl IH]; [reflexivity|].
  cbn [shifted]. rewrite !be_value_cons, shifted_length, IH.
  rewrite (top_bit l Hl).
  cbn [length]. rewrite Nat2Z.inj_succ, Z.pow_succ_r by lia.
  pose proof (be_value_bound l Hl) as HB.
  set (M := 256 ^ Z.of_nat (length l)) in *. set (B := be_value l) in *.
  unfold is_byte in Hx.
  assert (HM : 0 < M) by (unfold M; apply Z.pow_pos_nonneg; lia).
  pose proof (Z.div_mod (2 * B) M ltac:(lia)) as Hdm.
  pose proof (Z.mod_pos_bound (2 * B) M HM) as Hm.
  set (t := 2 * B / M) in *. set (m := (2 * B) mod M) in *.
  assert (Ht : 0 <= t < 2) by (unfold t; split;
    [apply Z.div_pos; lia | apply Z.div_lt_upper_bound; lia]).
  pose proof (Z.div_mod (2 * x + t) 256 ltac:(lia)) as Hdm2.
  pose proof (Z.mod_pos_bound (2 * x + t) 256 ltac:(lia)) as Hm2.
  set (q := (2 * x + t) / 256) in *. set (r := (2 * x + t) mod 256) in *.
  assert (Hr : 0 <= r * M <= 255 * M) by nia.
  apply (Z.mod_unique _ _ q); [lia|].
  replace (2 * (x * M + B)) with ((2 * x + t) * M + m) by lia.
  rewrite Hdm2. ring.
Qed.

(** XOR into the last byte is XOR into the number. *)
Lemma be_value_lxor_last front x m :
  0 <= be_value front -> is_byte x -> is_byte m ->
  be_value (front ++ [Z.lxor x m]) = Z.lxor (be_value (front ++ [x])) m.
Proof.
  unfold is_byte. intros HF Hx Hm. rewrite !be_value_snoc.
  set (F := be_value front) in *.
  pose proof (lxor_below x m 8 ltac:(lia) ltac:(lia) ltac:(lia)) as Hxm.
  change 256 with (2 ^ 8).
  rewrite <- (lor_disjoint F x 8), <- (lor_disjoint F (Z.lxor x m) 8) by lia.
  apply Z.bits_inj'. intros n Hn.
  rewrite !Z.lxor_spec, !Z.lor_spec, Z.lxor_spec.
  destruct (Z.lt_ge_cases n 8) as [Hlo|Hhi].
  - rewrite Z.mul_pow2_bits_low by lia. reflexivity.
  - assert (Hx8 : Z.testbit x n = false).
    { rewrite <- (Z.mod_small x (2 ^ 8)) by lia. apply Z.mod_pow2_bits_high. lia. }
    assert (Hm8 : Z.testbit m n = false).
    { rewrite <- (Z.mod_small m (2 ^ 8)) by lia. apply Z.mod_pow2_bits_high. lia. }
    rewrite Hx8, Hm8. destruct (Z.testbit (F * 2 ^ 8) n); reflexivity.
Qed.

(** The bytes that [S2] stores, in numbers. *)
Lemma S2_inner x y :
  is_byte x -> is_byte y -> u8 (x << 1 .| y >> 7) = (2 * x + y / 128) mod 256.
Proof.
  unfold is_byte. intros Hx Hy.
  rewrite (shl_mul x 1) by lia. rewrite (sar_div y 7) by lia.
  assert (0 <= y / 2 ^ 7 < 2) by (split; [apply Z.div_pos; lia | apply Z.div_lt_upper_bound; lia]).
  rewrite (bor_add x (y / 2 ^ 7) 1) by lia.
  unfold u8. f_equal. change (2 ^ 7) with 128. lia.
Qed.

Lemma S2_last x c :
  is_byte x -> is_byte c ->
  u8 (x << 1 .^ ((c >> 7) * 0x87)) =
    Z.lxor ((2 * x + 0 / 128) mod 256) (if 128 <=? c then 0x87 else 0).
Proof.
  unfold is_byte. intros Hx Hc.
  rewrite (shl_mul x 1) by lia. rewrite (sar_div c 7) by lia.
  assert (Hcarry : c / 2 ^ 7 * 135 = if 128 <=? c then 135 else 0).
  { change (2 ^ 7) with 128. destruct (Z.leb_spec 128 c).
    - replace (c / 128) with 1; [reflexivity|].
      apply (Z.div_unique c 128 1 (c - 128)); lia.
    - rewrite Z.div_small by lia. reflexivity. }
  rewrite Hcarry. set (m := if 128 <=? c then 135 else 0).
  assert (Hm : 0 <= m < 256) by (unfold m; destruct (128 <=? c); lia).
  unfold bxor, u8. rewrite !toInt32_small by lia.
  change (0 / 128) with 0. rewrite Z.add_0_r. replace (x * 2 ^ 1) with (2 * x) by lia.
  change 256 with (2 ^ 8). rewrite <- !Z.land_ones by lia.
  apply Z.bits_inj'. intros n Hn.
  rewrite !Z.land_spec, !Z.lxor_spec, Z.land_spec.
  destruct (Z.lt_ge_cases n 8) as [Hlo|Hhi].
  - rewrite Z.ones_spec_low by lia. rewrite !andb_true_r. reflexivity.
  - rewrite Z.ones_spec_high by lia. rewrite !andb_false_r.
    assert (Hm8 : Z.testbit m n = false).
    { rewrite <- (Z.mod_small m (2 ^ 8)) by lia. apply Z.mod_pow2_bits_high. lia. }
    rewrite Hm8. reflexivity.
Qed.

(** [X18] [S2] doubles a block in the field of OCB2: the sixteen bytes,
    read as one number with byte 0 in front, are shifted left by one bit,
    and [0x87] is XORed in when the top bit falls off. *)
Theorem S2_doubles b :
  is_block b ->
  be_value (S2 b) =
    Z.lxor ((2 * be_value b) mod 2 ^ 128) (if 2 ^ 127 <=? be_value b then 0x87 else 0).
Proof.
  intros [Hl Hb].
  pose proof (be_value_shifted b Hb) as Hsh. rewrite Hl in Hsh.
  change (256 ^ Z.of_nat BLOCK_SIZE) with (2 ^ 128) in Hsh. rewrite <- Hsh.
  rewrite (S2_bytes b Hl). unfold BLOCK_SIZE in *.
  destruct b as [|b0 [|b1 [|b2 [|b3 [|b4 [|b5 [|b6 [|b7 [|b8 [|b9 [|b10 [|b11
    [|b12 [|b13 [|b14 [|b15 [|b16 b]]]]]]]]]]]]]]]]]; try discriminate Hl.
  repeat match goal with
         | H : Forall is_byte (_ :: _) |- _ =>
           apply Forall_cons in H; let Hx := fresh "B" in destruct H as [Hx H]
         end.
  assert (Htop : (2 ^ 127 <=? be_value
                    [b0; b1; b2; b3; b4; b5; b6; b7; b8; b9; b10; b11; b12; b13; b14; b15])
                 = (128 <=? b0)).
  { rewrite be_value_cons.
    pose proof (be_value_bound [b1; b2; b3; b4; b5; b6; b7; b8; b9; b10; b11; b12; b13; b14; b15])
      as HB.
    cbn [length] in *. change (256 ^ Z.of_nat 15) with (2 ^ 120) in *.
    specialize (HB ltac:(repeat (apply Forall_cons_2; [assumption|]); apply Forall_nil_2)).
    unfold is_byte in *.
    destruct (Z.leb_spec 128 b0), (Z.leb_spec (2 ^ 127)
      (b0 * 2 ^ 120 +
       be_value [b1; b2; b3; b4; b5; b6; b7; b8; b9; b10; b11; b12; b13; b14; b15]));
      try reflexivity; exfalso; change (2 ^ 127) with (128 * 2 ^ 120) in *; nia. }
  rewrite Htop.
  cbn [map seq Nat.sub Nat.add at0 lookup list_lookup default app shifted].
  change (at0 ?l 0) with (default 0 (l !! 0%nat)). cbn [lookup list_lookup default].
  rewrite !S2_inner, S2_last by assumption.
  change [?a0; ?a1; ?a2; ?a3; ?a4; ?a5; ?a6; ?a7; ?a8; ?a9; ?a10; ?a11; ?a12; ?a13; ?a14; ?a15]
    with ([a0; a1; a2; a3; a4; a5; a6; a7; a8; a9; a10; a11; a12; a13; a14] ++ [a15]).
  apply be_value_lxor_last.
  - apply be_value_bound. repeat constructor; apply Z.mod_pos_bound; lia.
  - apply Z.mod_pos_bound. lia.
  - destruct (128 <=? b0); unfold is_byte; lia.
Qed.

End Doubling.

(** ** UDP crypto: freshly allocated buffers *)

Section FreshBuffers.
Import JS Crypt.

Lemma XOR_length dst a b : length (XOR dst a b) = length dst.
Proof.
  unfold XOR. generalize (seq 0 BLOCK_SIZE). intros idxs. revert dst.
  induction idxs as [|i idxs IH]; intros dst; [reflexivity|].
  cbn [foldl]. rewrite IH. apply length_insert.
Qed.

Lemma copy_length (source target : list Z) ts ss se :
  length (copy source target ts ss se).1 = length target.
Proof.
  unfold copy. cbn [fst]. rewrite !length_app, !length_take, !length_drop. lia.
Qed.

Variable E : list Z -> list Z.

(** One block in, one block out. *)
Hypothesis E_length : forall b, length b = BLOCK_SIZE -> length (E b) = BLOCK_SIZE.

(** Two runs of the block loop that differ only in what the scratch
    block and the output buffer hold at the start write the same bytes
    and end in the same offset, checksum and length. *)
Lemma encrypt_blocks_fresh fuel :
  forall len delta checksum tmp1 tmp2 P Cv1 Cv2,
    length tmp1 = BLOCK_SIZE -> length tmp2 = BLOCK_SIZE ->
    length Cv1 = length Cv2 -> (len <= length Cv1)%nat ->
    exists w len' delta' checksum' P' t1 t2,
      encrypt_blocks E fuel len delta checksum tmp1 P Cv1 =
        (w, (len', delta', checksum', t1, P', drop (length w) Cv1)) /\
      encrypt_blocks E fuel len delta checksum tmp2 P Cv2 =
        (w, (len', delta', checksum', t2, P', drop (length w) Cv2)) /\
      length t1 = BLOCK_SIZE /\ length t2 = BLOCK_SIZE /\
      (length w + len' = len)%nat /\
      ((len <= 16 + 16 * fuel)%nat -> (len' <= 16)%nat).
Proof using E_length.
  induction fuel as [|fuel IH]; intros len delta checksum tmp1 tmp2 P Cv1 Cv2 H1 H2 HC Hlen.
  - exists [], len, delta, checksum, P, tmp1, tmp2. cbn [encrypt_blocks length drop].
    split_ands; auto; lia.
  - cbn [encrypt_blocks].
    destruct (Nat.ltb_spec BLOCK_SIZE len) as [Hbig|Hsmall].
    2:{ exists [], len, delta, checksum, P, tmp1, tmp2. cbn [length drop].
        unfold BLOCK_SIZE in *. split_ands; auto; lia. }
    unfold BLOCK_SIZE in Hbig.
    rewrite (XOR_block tmp1), (XOR_block tmp2) by assumption.
    set (t := E (xor_block (S2 delta) P)).
    assert (Ht : length t = BLOCK_SIZE) by (apply E_length, xor_block_is_block).
    rewrite (XOR_eq Cv1), (XOR_eq Cv2) by (unfold BLOCK_SIZE; lia).
    set (y := xor_block (S2 delta) t).
    assert (Hy : length y = 16%nat) by apply xor_block_is_block.
    unfold slice_from.
    rewrite !(drop_app_length' y) by (symmetry; exact Hy).
    rewrite !(take_app_length' y) by (symmetry; exact Hy).
    destruct (IH (len - BLOCK_SIZE)%nat (S2 delta) (XOR checksum checksum P) t t
                (drop BLOCK_SIZE P) (drop BLOCK_SIZE Cv1) (drop BLOCK_SIZE Cv2))
      as (w & len' & delta' & checksum' & P' & t1 & t2 & R1 & R2 & L1 & L2 & Hw & Hfuel);
      try assumption;
      try (rewrite !length_drop; unfold BLOCK_SIZE; lia).
    rewrite R1, R2.
    exists (y ++ w), len', delta', checksum', P', t1, t2.
    rewrite length_app, Hy, !drop_drop. unfold BLOCK_SIZE in *.
    split_ands; auto; lia.
Qed.

Variable alloc1 alloc2 : nat -> list Z.
Hypothesis alloc1_length : forall n, length (alloc1 n) = n.
Hypothesis alloc2_length : forall n, length (alloc2 n) = n.

(** [ocbEncrypt] reads none of the bytes that [new Buffer] leaves in the
    buffers it allocates, nor any that the output buffer holds: all of
    the output is written, and the tag depends on the input alone. *)
Lemma ocbEncrypt_fresh P Cv1 Cv2 nonce :
  length Cv1 = length P -> length Cv2 = length P ->
  ocbEncrypt E alloc1 P Cv1 nonce = ocbEncrypt E alloc2 P Cv2 nonce /\
  length (ocbEncrypt E alloc1 P Cv1 nonce).1 = length P.
Proof using E_length alloc1_length alloc2_length.
  intros HC1 HC2. unfold ocbEncrypt.
  rewrite !ZERO_block by (first [apply alloc1_length | apply alloc2_length]).
  destruct (encrypt_blocks_fresh (length P) (length P) (E nonce) (replicate BLOCK_SIZE 0)
              (alloc1 BLOCK_SIZE) (alloc2 BLOCK_SIZE) P Cv1 Cv2)
    as (w & len' & delta' & checksum' & P' & t1 & t2 & R1 & R2 & L1 & L2 & Hw & Hfuel);
    try (first [apply alloc1_length | apply alloc2_length]); try lia.
  rewrite R1, R2. specialize (Hfuel ltac:(lia)).
  rewrite (ZERO_block t1), (ZERO_block t2) by assumption.
  set (T := XOR _ _ _).
  match goal with
  | |- context [copy T (drop (length w) Cv1) 0 0 len'] => idtac
  end.
  assert (HT : length T = BLOCK_SIZE).
  { unfold T. rewrite XOR_length, !copy_length, XOR_length, length_insert.
    apply length_replicate. }
  assert (Hview : forall Cv, length Cv = length P ->
            (copy T (drop (length w) Cv) 0 0 len').1 = take len' T).
  { intros Cv HCv. rewrite copy_head;
      [| unfold BLOCK_SIZE in *; lia | rewrite length_drop; lia].
    rewrite drop_ge by (rewrite length_drop; lia). apply app_nil_r. }
  rewrite !Hview by assumption. split; [reflexivity|].
  cbn [fst]. rewrite length_app, length_take. unfold BLOCK_SIZE in *. lia.
Qed.

End FreshBuffers.

(** ** UDP crypto: what [encrypt] returns *)

Section EncryptFacts.
Import JS Crypt.

Variable aes : list Z -> list Z -> list Z.

(** [X19] The packet that [encrypt] returns, and the state it leaves,
    do not depend on what [new Buffer] leaves in the buffers allocated on
    the way: every byte of the packet is written, and none of the
    unspecified bytes is read. *)
Theorem encrypt_fresh_buffers alloc1 alloc2 c plainText :
  (forall b, length b = BLOCK_SIZE -> length (aes (_key c) b) = BLOCK_SIZE) ->
  (forall n, length (alloc1 n) = n) -> (forall n, length (alloc2 n) = n) ->
  encrypt aes alloc1 c plainText = encrypt aes alloc2 c plainText.
Proof.
  intros Haes H1 H2. unfold encrypt.
  destruct (ocbEncrypt_fresh (aes (_key c)) Haes alloc1 alloc2 H1 H2
              plainText (slice_from (alloc1 (length plainText + 4)%nat) 4)
              (slice_from (alloc2 (length plainText + 4)%nat) 4)
              (increment BLOCK_SIZE 0 (_encryptIV c))) as [Heq _];
    try (unfold slice_from; rewrite length_drop; first [rewrite H1 | rewrite H2]; lia).
  rewrite Heq. clear Heq.
  destruct (ocbEncrypt _ _ _ _ _) as [body tag]. cbv beta iota zeta.
  rewrite !packet_header by (rewrite length_take; first [rewrite H1 | rewrite H2]; lia).
  reflexivity.
Qed.

(** [X20] The packet is four bytes longer than the plaintext: the low
    byte of the nonce that [encrypt] has just counted up to, three bytes
    of the tag, and as many bytes of ciphertext as there are of
    plaintext. *)
Theorem encrypt_packet_shape alloc c plainText :
  (forall b, length b = BLOCK_SIZE -> length (aes (_key c) b) = BLOCK_SIZE) ->
  (forall n, length (alloc n) = n) ->
  let r := encrypt aes alloc c plainText in
  length r.2 = (length plainText + 4)%nat /\
  at0 r.2 0 = u8 (at0 (_encryptIV r.1) 0) /\
  _encryptIV r.1 = increment BLOCK_SIZE 0 (_encryptIV c).
Proof.
  intros Haes H. cbv zeta. unfold encrypt.
  destruct (ocbEncrypt_fresh (aes (_key c)) Haes alloc alloc H H
              plainText (slice_from (alloc (length plainText + 4)%nat) 4)
              (slice_from (alloc (length plainText + 4)%nat) 4)
              (increment BLOCK_SIZE 0 (_encryptIV c))) as [_ Hl];
    try (unfold slice_from; rewrite length_drop, H; lia).
  destruct (ocbEncrypt _ _ _ _ _) as [body tag]. cbn [fst] in Hl. cbv beta iota zeta.
  rewrite !packet_header by (rewrite length_take, H; lia).
  cbn [fst snd _encryptIV length]. split; [lia|]. split; reflexivity.
Qed.

End EncryptFacts.

(** ** UDP crypto: the nonce as a counter *)

Section NonceCounter.
Import JS Crypt.

Lemma increment_app n :
  forall j pre suf,
    increment n (length pre + j) (pre ++ suf) = pre ++ increment n j suf.
Proof.
  induction n as [|n IH]; intros j pre suf; [reflexivity|].
  rewrite !increment_S.
  rewrite at0_app_r by lia. replace (length pre + j - length pre)%nat with j by lia.
  rewrite !insert_app_r.
  destruct (_ =? 256); [|reflexivity].
  replace (S (length pre + j)) with (length pre + S j)%nat by lia. apply IH.
Qed.

Lemma increment_cons n x suf :
  increment (S n) 0 (x :: suf) =
    if x + 1 =? 256 then u8 0 :: increment n 0 suf else u8 (x + 1) :: suf.
Proof.
  rewrite increment_S. change (at0 (x :: suf) 0) with x.
  destruct (_ =? 256); [|reflexivity].
  cbn [insert list_insert]. apply (increment_app n 0 [u8 0] suf).
Qed.

Lemma le_value_bound iv :
  Forall is_byte iv -> 0 <= le_value iv < 256 ^ Z.of_nat (length iv).
Proof.
  induction 1 as [|x iv Hx Hiv IH]; [cbn; lia|].
  cbn [le_value length]. rewrite Nat2Z.inj_succ, Z.pow_succ_r by lia.
  unfold is_byte in Hx. lia.
Qed.

(** The loop at the head of [encrypt] adds one to the number that the
    bytes spell, least significant byte first, and wraps at the top. *)
Lemma le_value_increment iv :
  Forall is_byte iv ->
  le_value (increment (length iv) 0 iv) = (le_value iv + 1) mod 256 ^ Z.of_nat (length iv).
Proof.
  induction 1 as [|x iv Hx Hiv IH]; [reflexivity|].
  cbn [length]. rewrite increment_cons. cbn [le_value].
  rewrite Nat2Z.inj_succ, Z.pow_succ_r by lia.
  pose proof (le_value_bound iv Hiv) as HB.
  set (M := 256 ^ Z.of_nat (length iv)) in *.
  unfold is_byte in Hx.
  destruct (Z.eqb_spec (x + 1) 256) as [Hc|Hc].
  - cbn [le_value]. rewrite IH. change (u8 0) with 0.
    replace (x + 256 * le_value iv + 1) with (256 * (le_value iv + 1)) by lia.
    rewrite Z.mul_mod_distr_l by lia. lia.
  - cbn [le_value]. rewrite u8_byte by (unfold is_byte; lia).
    rewrite Z.mod_small by lia. lia.
Qed.

(** [X21] [encrypt] counts the nonce up by one, as a 128-bit number
    with byte 0 the least significant, and starts again from 0 after
    [2^128 - 1]. *)
Theorem encrypt_counts_up aes alloc c plainText :
  is_block (_encryptIV c) ->
  is_block (_encryptIV (encrypt aes alloc c plainText).1) /\
  le_value (_encryptIV (encrypt aes alloc c plainText).1) =
    (le_value (_encryptIV c) + 1) mod 2 ^ 128.
Proof.
  intros Hb. unfold encrypt. destruct (ocbEncrypt _ _ _ _ _) as [body tag].
  cbv beta iota zeta. cbn [fst _encryptIV]. split; [apply increment_is_block; exact Hb|].
  destruct Hb as [Hl Hb]. rewrite <- Hl at 1. rewrite le_value_increment by exact Hb.
  rewrite Hl. reflexivity.
Qed.

End NonceCounter.

(** ** UDP crypto: freshly allocated buffers on the way in *)

Section FreshBuffersIn.
Import JS Crypt.

Lemma XOR_reads dst a b b' :
  (forall i, (i < BLOCK_SIZE)%nat -> at0 b i = at0 b' i) ->
  XOR dst a b = XOR dst a b'.
Proof.
  intros H. unfold XOR.
  assert (Hin : forall i, In i (seq 0 BLOCK_SIZE) -> (i < BLOCK_SIZE)%nat)
    by (intros i Hi; apply in_seq in Hi; lia).
  revert dst Hin. generalize (seq 0 BLOCK_SIZE). intros idxs.
  induction idxs as [|i idxs IH]; intros dst Hin; [reflexivity|].
  cbn [foldl]. rewrite (H i) by (apply Hin; left; reflexivity).
  apply IH. intros j Hj. apply Hin. right. exact Hj.
Qed.

Variable E D : list Z -> list Z.
Hypothesis E_length : forall b, length b = BLOCK_SIZE -> length (E b) = BLOCK_SIZE.
Hypothesis D_length : forall b, length b = BLOCK_SIZE -> length (D b) = BLOCK_SIZE.

Lemma decrypt_blocks_fresh fuel :
  forall len delta checksum tmp1 tmp2 C Pv1 Pv2,
    length tmp1 = BLOCK_SIZE -> length tmp2 = BLOCK_SIZE ->
    length Pv1 = length Pv2 -> (len <= length Pv1)%nat ->
    exists w len' delta' checksum' C' t1 t2,
      decrypt_blocks D fuel len delta checksum tmp1 C Pv1 =
        (w, (len', delta', checksum', t1, C', drop (length w) Pv1)) /\
      decrypt_blocks D fuel len delta checksum tmp2 C Pv2 =
        (w, (len', delta', checksum', t2, C', drop (length w) Pv2)) /\
      length t1 = BLOCK_SIZE /\ length t2 = BLOCK_SIZE /\
      (length w + len' = len)%nat /\
      ((len <= 16 + 16 * fuel)%nat -> (len' <= 16)%nat).
Proof using D_length.
  induction fuel as [|fuel IH]; intros len delta checksum tmp1 tmp2 C Pv1 Pv2 H1 H2 HP Hlen.
  - exists [], len, delta, checksum, C, tmp1, tmp2. cbn [decrypt_blocks length drop].
    split_ands; auto; lia.
  - cbn [decrypt_blocks].
    destruct (Nat.ltb_spec BLOCK_SIZE len) as [Hbig|Hsmall].
    2:{ exists [], len, delta, checksum, C, tmp1, tmp2. cbn [length drop].
        unfold BLOCK_SIZE in *. split_ands; auto; lia. }
    unfold BLOCK_SIZE in Hbig.
    rewrite (XOR_block tmp1), (XOR_block tmp2) by assumption.
    set (t := D (xor_block (S2 delta) C)).
    assert (Ht : length t = BLOCK_SIZE) by (apply D_length, xor_block_is_block).
    rewrite (XOR_eq Pv1), (XOR_eq Pv2) by (unfold BLOCK_SIZE; lia).
    set (y := xor_block (S2 delta) t).
    assert (Hy : length y = 16%nat) by apply xor_block_is_block.
    assert (Hck : forall Pv, XOR checksum checksum (y ++ drop BLOCK_SIZE Pv) =
                             XOR checksum checksum y).
    { intros Pv. apply XOR_reads. intros i Hi. apply at0_app_l.
      rewrite Hy. exact Hi. }
    rewrite !Hck.
    unfold slice_from.
    rewrite !(drop_app_length' y) by (symmetry; exact Hy).
    rewrite !(take_app_length' y) by (symmetry; exact Hy).
    destruct (IH (len - BLOCK_SIZE)%nat (S2 delta) (XOR checksum checksum y) t t
                (drop BLOCK_SIZE C) (drop BLOCK_SIZE Pv1) (drop BLOCK_SIZE Pv2))
      as (w & len' & delta' & checksum' & C' & t1 & t2 & R1 & R2 & L1 & L2 & Hw & Hfuel);
      try assumption;
      try (rewrite !length_drop; unfold BLOCK_SIZE; lia).
    rewrite R1, R2.
    exists (y ++ w), len', delta', checksum', C', t1, t2.
    rewrite length_app, Hy, !drop_drop. unfold BLOCK_SIZE in *.
    split_ands; auto; lia.
Qed.

Variable alloc1 alloc2 : nat -> list Z.
Hypothesis alloc1_length : forall n, length (alloc1 n) = n.
Hypothesis alloc2_length : forall n, length (alloc2 n) = n.

Lemma ocbDecrypt_fresh C Pv1 Pv2 nonce :
  length Pv1 = length Pv2 ->
  ocbDecrypt E D alloc1 C Pv1 nonce = ocbDecrypt E D alloc2 C Pv2 nonce.
Proof using E_length D_length alloc1_length alloc2_length.
  intros HP. unfold ocbDecrypt.
  rewrite !ZERO_block by (first [apply alloc1_length | apply alloc2_length]).
  rewrite <- HP.
  destruct (decrypt_blocks_fresh (length Pv1) (length Pv1) (E nonce) (replicate BLOCK_SIZE 0)
              (alloc1 BLOCK_SIZE) (alloc2 BLOCK_SIZE) C Pv1 Pv2)
    as (w & len' & delta' & checksum' & C' & t1 & t2 & R1 & R2 & L1 & L2 & Hw & Hfuel);
    try (first [apply alloc1_length | apply alloc2_length]); try lia.
  rewrite R1, R2. specialize (Hfuel ltac:(lia)).
  rewrite (ZERO_block t1), (ZERO_block t2) by assumption.
  set (X := XOR (<[(BLOCK_SIZE - 1)%nat := _]> _) _ _).
  assert (HX : length X = BLOCK_SIZE).
  { unfold X. rewrite XOR_length, length_insert. apply length_replicate. }
  rewrite (ZERO_block X) by exact HX.
  set (T := XOR (copy C' _ 0 0 len').1 _ _).
  assert (HT : length T = BLOCK_SIZE).
  { unfold T. rewrite XOR_length, copy_length. apply length_replicate. }
  assert (Hview : forall Pv, length Pv = length Pv1 ->
            (copy T (drop (length w) Pv) 0 0 len').1 = take len' T).
  { intros Pv HPv. rewrite copy_head;
      [| unfold BLOCK_SIZE in *; lia | rewrite length_drop; lia].
    rewrite drop_ge by (rewrite length_drop; lia). apply app_nil_r. }
  rewrite !Hview by (auto; lia). reflexivity.
Qed.

End FreshBuffersIn.

Section DecryptFresh.
Import JS Crypt.

Variable aes aes_inv : list Z -> list Z -> list Z.

(** [X27] What [decrypt] returns, and the state it leaves, do not depend
    on what [new Buffer] leaves in the buffers allocated on the way: the
    plaintext handed back is written in full, and none of the unspecified
    bytes is read, whether the packet is accepted or not. *)
Theorem decrypt_fresh_buffers alloc1 alloc2 c cipherText :
  (forall b, length b = BLOCK_SIZE -> length (aes (_key c) b) = BLOCK_SIZE) ->
  (forall b, length b = BLOCK_SIZE -> length (aes_inv (_key c) b) = BLOCK_SIZE) ->
  (forall n, length (alloc1 n) = n) -> (forall n, length (alloc2 n) = n) ->
  decrypt aes aes_inv alloc1 c cipherText = decrypt aes aes_inv alloc2 c cipherText.
Proof.
  intros HE HD H1 H2. unfold decrypt.
  destruct (_ <? _)%nat; [reflexivity|].
  destruct (synchronise _ _) as [d e|s]; [reflexivity|].
  rewrite (ocbDecrypt_fresh (aes (_key c)) (aes_inv (_key c)) HE HD alloc1 alloc2 H1 H2
             (slice_from cipherText 4) (alloc1 (length cipherText - 4)%nat)
             (alloc2 (length cipherText - 4)%nat) (s_decryptIV s))
    by (rewrite H1, H2; reflexivity).
  reflexivity.
Qed.

End DecryptFresh.

(** ** UDP crypto: packets in transit *)

Section Synchronise.
Import JS Crypt.

Lemma next_byte d0 : is_byte d0 -> (d0 + 1) .& 0xFF = (d0 + 1) mod 256.
Proof.
  unfold is_byte. intros H. change 255 with (2 ^ 8 - 1).
  rewrite (band_low (d0 + 1) 8) by lia. reflexivity.
Qed.

Lemma at0_insert_eq (l : list Z) i x : (i < length l)%nat -> at0 (<[i := x]> l) i = x.
Proof. intros H. apply at0_lookup, list_lookup_insert_eq. exact H. Qed.

(** A packet whose nonce byte is the one the receiver holds is turned
    away before anything is written. *)
Lemma synchronise_same c ivbyte :
  is_byte ivbyte -> at0 (_decryptIV c) 0 = ivbyte ->
  synchronise c ivbyte = Null (_decryptIV c) (_encryptIV c).
Proof.
  intros Hb Hd. unfold synchronise. rewrite Hd. cbv zeta.
  rewrite next_byte by exact Hb. unfold is_byte in Hb.
  destruct (Z.eqb_spec ((ivbyte + 1) mod 256) ivbyte) as [E|_].
  { exfalso. destruct (Z.eq_dec ivbyte 255) as [->|].
    - discriminate E.
    - rewrite Z.mod_small in E by lia. lia. }
  rewrite Z.sub_diag. change (128 <? 0) with false. change (0 <? -128) with false.
  cbv iota. rewrite Z.ltb_irrefl. cbn [andb]. reflexivity.
Qed.


(** A packet behind the receiver by 1 to 29 is decrypted under the
    receiver's nonce with byte 0 replaced; the nonce is to be put back
    afterwards. *)
Lemma synchronise_late c ivbyte :
  is_byte ivbyte -> is_byte (at0 (_decryptIV c) 0) -> (0 < length (_decryptIV c))%nat ->
  ivbyte < at0 (_decryptIV c) 0 -> at0 (_decryptIV c) 0 - ivbyte < 30 ->
  _decryptHistory c !! ivbyte <> Some (at0 (_decryptIV c) 1) ->
  synchronise c ivbyte =
    Synced {| s_decryptIV := <[0%nat := ivbyte]> (_decryptIV c);
              s_encryptIV := _encryptIV c;
              restore := true; s_late := 1; s_lost := -1 |}.
Proof.
  intros Hiv Hd0 Hlen Hlt Hgap Hhist. unfold synchronise.
  set (d := _decryptIV c) in *. set (d0 := at0 d 0) in *. cbv zeta.
  rewrite next_byte by exact Hd0. unfold is_byte in Hiv, Hd0.
  rewrite (u8_byte ivbyte) by exact Hiv.
  destruct (Z.eqb_spec ((d0 + 1) mod 256) ivbyte) as [E|_].
  { exfalso. destruct (Z.eq_dec d0 255) as [E'|].
    - rewrite E' in E. change ((255 + 1) mod 256) with 0 in E. lia.
    - rewrite Z.mod_small in E by lia. lia. }
  destruct (Z.ltb_spec 128 (ivbyte - d0)); [lia|].
  destruct (Z.ltb_spec (ivbyte - d0) (-128)); [lia|].
  destruct (Z.ltb_spec ivbyte d0); [|lia].
  destruct (Z.ltb_spec (-30) (ivbyte - d0)); [|lia].
  destruct (Z.ltb_spec (ivbyte - d0) 0); [|lia]. cbn [andb s_decryptIV].
  rewrite at0_insert_eq by exact Hlen. rewrite at0_insert_ne by lia.
  destruct (decide _) as [Hhit|_]; [contradiction|reflexivity].
Qed.

(** Outside the window, 129 to 226 ahead in the count of byte 0, that is
    30 to 127 behind, a packet is turned away. *)
Lemma synchronise_outside c ivbyte :
  is_byte ivbyte -> is_byte (at0 (_decryptIV c) 0) ->
  129 <= (ivbyte - at0 (_decryptIV c) 0) mod 256 <= 226 ->
  synchronise c ivbyte = Null (_decryptIV c) (_encryptIV c).
Proof.
  intros Hiv Hd0 Hgap. unfold synchronise.
  set (d := _decryptIV c) in *. set (d0 := at0 d 0) in *. cbv zeta.
  rewrite next_byte by exact Hd0. unfold is_byte in Hiv, Hd0.
  assert (Hcases : (d0 < ivbyte /\ 129 <= ivbyte - d0 <= 226) \/
                   (ivbyte < d0 /\ 30 <= d0 - ivbyte <= 127)).
  { destruct (Z.lt_ge_cases ivbyte d0) as [Hlt|Hge].
    - right. split; [exact Hlt|].
      replace (ivbyte - d0) with (ivbyte - d0 + 256 + (-1) * 256) in Hgap by lia.
      rewrite Z.mod_add, Z.mod_small in Hgap by lia. lia.
    - rewrite Z.mod_small in Hgap by lia. left. lia. }
  destruct (Z.eqb_spec ((d0 + 1) mod 256) ivbyte) as [E|_].
  { exfalso. destruct (Z.eq_dec d0 255) as [E'|].
    - rewrite E' in E. change ((255 + 1) mod 256) with 0 in E. lia.
    - rewrite Z.mod_small in E by lia. lia. }
  destruct Hcases as [[Hlt Hg]|[Hlt Hg]].
  - destruct (Z.ltb_spec 128 (ivbyte - d0)); [|lia].
    destruct (Z.ltb_spec ivbyte d0); [lia|]. cbn [andb].
    destruct (Z.ltb_spec (-30) (ivbyte - d0 - 256)); [lia|]. rewrite andb_false_r.
    cbn [andb].
    destruct (Z.ltb_spec 0 (ivbyte - d0 - 256)); [lia|]. rewrite andb_false_r.
    reflexivity.
  - destruct (Z.ltb_spec 128 (ivbyte - d0)); [lia|].
    destruct (Z.ltb_spec (ivbyte - d0) (-128)); [lia|].
    destruct (Z.ltb_spec (-30) (ivbyte - d0)); [lia|]. rewrite !andb_false_r.
    destruct (Z.ltb_spec d0 ivbyte); [lia|]. cbn [andb].
    destruct (Z.ltb_spec 0 (ivbyte - d0)); [lia|]. rewrite andb_false_r.
    reflexivity.
Qed.

End Synchronise.

Section Transit.
Import JS Crypt.

Variable aes aes_inv : list Z -> list Z -> list Z.
Variable alloc : nat -> list Z.

Hypothesis alloc_length : forall n, length (alloc n) = n.
Hypothesis aes_block :
  forall key b, is_block key -> is_block b -> is_block (aes key b).
Hypothesis aes_inverse :
  forall key b, is_block key -> is_block b -> aes_inv key (aes key b) = b.

Local Abbreviation encrypt := (encrypt aes alloc).
Local Abbreviation decrypt := (decrypt aes aes_inv alloc).
Local Abbreviation encrypt_all := (encrypt_all aes alloc).
Local Abbreviation decrypt_all := (decrypt_all aes aes_inv alloc).

(** The state of an object with the nonces and the history replaced. *)
Local Abbreviation with_nonces c d e h st :=
  {| _key := _key c; _decryptIV := d; _encryptIV := e;
     _decryptHistory := h; _stats := st |}.

(** What [encrypt] sends: the packet under the nonce counted up, which
    OCB2 decryption under that nonce opens. *)
Lemma encrypt_packet tx P :
  is_block (_key tx) -> is_block (_encryptIV tx) -> Forall is_byte P ->
  let nonce := increment BLOCK_SIZE 0 (_encryptIV tx) in
  exists C tag,
    encrypt tx P =
      (with_nonces tx (_decryptIV tx) nonce (_decryptHistory tx) (_stats tx),
       at0 nonce 0 :: at0 tag 0 :: at0 tag 1 :: at0 tag 2 :: C) /\
    is_block nonce /\ length C = length P /\ is_block tag /\
    ocbDecrypt (aes (_key tx)) (aes_inv (_key tx)) alloc C (alloc (length P)) nonce
      = (P, tag).
Proof using alloc_length aes_block aes_inverse.
  intros Hk He HP nonce.
  assert (Hn : is_block nonce) by (apply increment_is_block; exact He).
  destruct (ocb_inverse (aes (_key tx)) (aes_inv (_key tx)) alloc alloc_length
              (fun b => aes_block _ b Hk) (fun b => aes_inverse _ b Hk)
              P (drop 4 (alloc (length P + 4))) (alloc (length P)) nonce)
    as (C & tag & Henc & HlC & Htag & Hdec);
    try assumption; try (rewrite ?length_drop, alloc_length; lia).
  exists C, tag. split; [|auto].
  unfold Crypt.encrypt. fold nonce. unfold slice_from. rewrite Henc.
  rewrite packet_header by (rewrite length_take, alloc_length; lia).
  rewrite (u8_byte (at0 nonce 0)) by (apply at0_byte, Hn).
  rewrite !(u8_byte (at0 tag _)) by (apply at0_byte, Htag).
  reflexivity.
Qed.

(** What [decrypt] does with such a packet once the synchronisation has
    settled on the nonce it was sent under. *)
Lemma decrypt_synced rx s P C tag ivbyte :
  is_block tag -> length C = length P ->
  synchronise rx ivbyte = Synced s ->
  ocbDecrypt (aes (_key rx)) (aes_inv (_key rx)) alloc C (alloc (length P)) (s_decryptIV s)
    = (P, tag) ->
  decrypt rx (ivbyte :: at0 tag 0 :: at0 tag 1 :: at0 tag 2 :: C) =
    (with_nonces rx (if restore s then _decryptIV rx else s_decryptIV s) (s_encryptIV s)
       (<[at0 (s_decryptIV s) 0 := at0 (s_decryptIV s) 1]> (_decryptHistory rx))
       {| good := good (_stats rx) + 1;
          late := late (_stats rx) + s_late s;
          lost := lost (_stats rx) + s_lost s |},
     Some P).
Proof.
  intros Htag HlC Hs Hdec. unfold Crypt.decrypt. cbn [length Nat.ltb Nat.leb].
  change (at0 (ivbyte :: _) 0) with ivbyte. rewrite Hs.
  unfold slice_from. cbn [drop]. change (drop 0 C) with C.
  replace (S (S (S (S (length C)))) - 4)%nat with (length P) by lia.
  rewrite Hdec.
  assert (Htags : slice tag 0 3 =
                  slice (ivbyte :: at0 tag 0 :: at0 tag 1 :: at0 tag 2 :: C) 1 4).
  { destruct Htag as [Hlt _].
    destruct tag as [|a0 [|a1 [|a2 rest]]]; try discriminate Hlt. reflexivity. }
  destruct (decide _) as [_|Hne]; [|contradiction]. reflexivity.
Qed.

(** [X22] Packets sent one after the other and received in that order
    are all decrypted to what was sent, across any carry of the nonce;
    each counts as good, none as late or lost, and the receiver's nonce
    ends where the sender's does. *)
Theorem in_order_stream plainTexts :
  forall tx rx,
    is_block (_key tx) -> is_block (_encryptIV tx) ->
    _key rx = _key tx -> _decryptIV rx = _encryptIV tx ->
    Forall (Forall is_byte) plainTexts ->
    let sent := encrypt_all tx plainTexts in
    let received := decrypt_all rx sent.2 in
    received.2 = Some <$> plainTexts /\
    _decryptIV received.1 = _encryptIV sent.1 /\
    good (_stats received.1) = good (_stats rx) + Z.of_nat (length plainTexts) /\
    late (_stats received.1) = late (_stats rx) /\
    lost (_stats received.1) = lost (_stats rx).
Proof using alloc_length aes_block aes_inverse.
  induction plainTexts as [|P Ps IH]; intros tx rx Hk He Hkey Hiv HPs; cbv zeta.
  - cbn. split_ands; auto; lia.
  - apply Forall_cons in HPs as [HP HPs].
    destruct (encrypt_packet tx P Hk He HP) as (C & tag & Henc & Hn & HlC & Htag & Hdec).
    cbv zeta in Henc, Hn, Hdec. set (nonce := increment BLOCK_SIZE 0 (_encryptIV tx)) in *.
    cbn [Crypt.encrypt_all]. rewrite Henc.
    set (tx' := with_nonces tx (_decryptIV tx) nonce (_decryptHistory tx) (_stats tx)).
    destruct (synchronise_in_order rx) as [e Hs]; [rewrite Hiv; exact He|].
    rewrite Hiv in Hs. fold nonce in Hs.
    rewrite <- Hkey in Hdec.
    pose proof (decrypt_synced rx _ P C tag (at0 nonce 0) Htag HlC Hs Hdec) as Hrx.
    cbn [restore s_decryptIV s_encryptIV s_late s_lost] in Hrx.
    set (rx' := with_nonces rx nonce e
                  (<[at0 nonce 0 := at0 nonce 1]> (_decryptHistory rx))
                  {| good := good (_stats rx) + 1; late := late (_stats rx) + 0;
                     lost := lost (_stats rx) + 0 |}) in *.
    specialize (IH tx' rx' Hk Hn Hkey eq_refl HPs). cbv zeta in IH.
    destruct (encrypt_all tx' Ps) as [txn packets] eqn:Etx.
    cbn [snd fst] in IH |- *. cbn [Crypt.decrypt_all]. rewrite Hrx.
    destruct (decrypt_all rx' packets) as [rxn outs] eqn:Erx.
    cbn [snd fst] in IH |- *.
    destruct IH as (Houts & Hd & Hg & Hla & Hlo).
    cbn [_stats good late lost rx'] in Hg, Hla, Hlo.
    rewrite fmap_cons, Houts. split_ands; auto; cbn [length]; lia.
Qed.


(** [X24] A packet that arrives late, from 1 to 29 behind the
    receiver's nonce and short of a wrap of its low byte, is decrypted to
    what was sent.  It counts as good and as late, and takes one back
    from the packets counted as lost; the receiver's nonce stays where it
    was, and the history takes note of the packet. *)
Theorem decrypt_late tx rx P :
  is_block (_key tx) -> is_block (_encryptIV tx) -> Forall is_byte P ->
  _key rx = _key tx -> is_block (_decryptIV rx) ->
  let nonce := increment BLOCK_SIZE 0 (_encryptIV tx) in
  nonce = <[0%nat := at0 nonce 0]> (_decryptIV rx) ->
  at0 (_decryptIV rx) 0 - 30 < at0 nonce 0 < at0 (_decryptIV rx) 0 ->
  _decryptHistory rx !! at0 nonce 0 <> Some (at0 nonce 1) ->
  decrypt rx (encrypt tx P).2 =
    (with_nonces rx (_decryptIV rx) (_encryptIV rx)
       (<[at0 nonce 0 := at0 nonce 1]> (_decryptHistory rx))
       {| good := good (_stats rx) + 1;
          late := late (_stats rx) + 1;
          lost := lost (_stats rx) + -1 |},
     Some P).
Proof using alloc_length aes_block aes_inverse.
  intros Hk He HP Hkey Hd nonce Hn Hgap Hhist.
  destruct (encrypt_packet tx P Hk He HP) as (C & tag & Henc & Hnb & HlC & Htag & Hdec).
  cbv zeta in Henc, Hnb, Hdec. fold nonce in Henc, Hnb, Hdec.
  rewrite Henc. cbn [snd].
  assert (Hd1 : at0 nonce 1 = at0 (_decryptIV rx) 1)
    by (rewrite Hn; apply at0_insert_ne; lia).
  assert (Hs := synchronise_late rx (at0 nonce 0)).
  rewrite <- Hn in Hs.
  rewrite <- Hkey in Hdec.
  rewrite (decrypt_synced rx _ P C tag (at0 nonce 0) Htag HlC
             (Hs ltac:(apply at0_byte, Hnb) ltac:(apply at0_byte, Hd)
                 ltac:(destruct Hd as [-> _]; unfold BLOCK_SIZE; lia)
                 ltac:(lia) ltac:(lia) ltac:(rewrite <- Hd1; exact Hhist))).
  - reflexivity.
  - exact Hdec.
Qed.

End Transit.

Section Refusals.
Import JS Crypt.

Variable aes aes_inv : list Z -> list Z -> list Z.
Variable alloc : nat -> list Z.

Local Abbreviation decrypt := (decrypt aes aes_inv alloc).

Lemma decrypt_null c cipherText :
  synchronise c (at0 cipherText 0) = Null (_decryptIV c) (_encryptIV c) ->
  decrypt c cipherText = (c, None).
Proof.
  intros H. unfold Crypt.decrypt. rewrite H. destruct c.
  destruct (_ <? _)%nat; reflexivity.
Qed.

(** [X25] [decrypt] turns a packet away, and leaves every field of the
    object as it was, when the packet is shorter than its four bytes of
    header, when its nonce byte is the one the receiver already holds, or
    when that byte lies outside the window: 129 to 226 ahead in the count
    of byte 0, which is 30 to 127 behind. *)
Theorem decrypt_refuses c cipherText :
  is_byte (at0 cipherText 0) -> is_byte (at0 (_decryptIV c) 0) ->
  (length cipherText < 4)%nat \/
  at0 cipherText 0 = at0 (_decryptIV c) 0 \/
  129 <= (at0 cipherText 0 - at0 (_decryptIV c) 0) mod 256 <= 226 ->
  decrypt c cipherText = (c, None).
Proof.
  intros Hiv Hd0 [Hshort|[Hsame|Hout]].
  - unfold Crypt.decrypt. destruct (Nat.ltb_spec (length cipherText) 4); [reflexivity|lia].
  - apply decrypt_null, synchronise_same; [exact Hiv|]. symmetry. exact Hsame.
  - apply decrypt_null, synchronise_outside; assumption.
Qed.

(** Where the nonce is to be put back, a second look at the same packet
    runs into the note that the history took of the first. *)
Lemma synchronise_noted c c' ivbyte s :
  synchronise c ivbyte = Synced s -> restore s = true ->
  _decryptIV c' = _decryptIV c -> _encryptIV c' = _encryptIV c ->
  _decryptHistory c' !! at0 (s_decryptIV s) 0 = Some (at0 (s_decryptIV s) 1) ->
  synchronise c' ivbyte = Null (_decryptIV c') (_encryptIV c') /\
  s_encryptIV s = _encryptIV c.
Proof.
  intros Hs Hr Hd He Hh. unfold synchronise in *. rewrite Hd, He.
  set (d := _decryptIV c) in *. set (e := _encryptIV c) in *. cbv zeta in *.
  remember (borrow BLOCK_SIZE 0 (<[0%nat := u8 ivbyte]> d)) as wrapped eqn:Hw. clear Hw.
  destruct (_ =? ivbyte).
  { exfalso. destruct (_ <? _); [injection Hs as <-; discriminate Hr|].
    destruct (_ <? _); [|discriminate Hs].
    destruct (carry _ _ _ _). injection Hs. intros <-. discriminate Hr. }
  set (diff := if 128 <? _ then _ else _) in *.
  destruct ((ivbyte <? at0 d 0) && (-30 <? diff) && (diff <? 0)).
  { match goal with |- context [@decide ?Q ?i] => generalize (@decide Q i) end.
    intros noted. revert Hs. destruct (decide _) as [|_]; intros Hs; [discriminate Hs|]. injection Hs. intros <-.
    destruct noted as [_|Hmiss]; [split; reflexivity|contradiction (Hmiss Hh)]. }
  destruct ((at0 d 0 <? ivbyte) && (-30 <? diff) && (diff <? 0)).
  { match goal with |- context [@decide ?Q ?i] => generalize (@decide Q i) end.
    intros noted. revert Hs. destruct (decide _) as [|_]; intros Hs; [discriminate Hs|]. injection Hs. intros <-.
    destruct noted as [_|Hmiss]; [split; reflexivity|contradiction (Hmiss Hh)]. }
  exfalso.
  destruct ((at0 d 0 <? ivbyte) && (0 <? diff)).
  { revert Hs. destruct (decide _) as [|_]; intros Hs; [discriminate Hs|]. injection Hs. intros <-. discriminate Hr. }
  destruct ((ivbyte <? at0 d 0) && (0 <? diff)); [|discriminate Hs].
  destruct (carry _ _ _ _).
  revert Hs. destruct (decide _) as [|_]; intros Hs; [discriminate Hs|]. injection Hs. intros <-. discriminate Hr.
Qed.

(** Where the nonce moves on, it moves on to the packet's byte, unless
    the packet was taken for one that follows a wrap of byte 0 after
    losses. *)
Lemma synchronise_moves c ivbyte s :
  is_byte ivbyte -> is_byte (at0 (_decryptIV c) 0) -> (0 < length (_decryptIV c))%nat ->
  at0 (_decryptIV c) 0 - ivbyte <= 128 \/ (at0 (_decryptIV c) 0 = 255 /\ ivbyte = 0) ->
  synchronise c ivbyte = Synced s -> restore s = false ->
  at0 (s_decryptIV s) 0 = ivbyte.
Proof.
  intros Hiv Hd0 Hlen Hnear Hs Hr. unfold synchronise in Hs.
  set (d := _decryptIV c) in *. set (e := _encryptIV c) in *. cbv zeta in Hs.
  remember (borrow BLOCK_SIZE 0 (<[0%nat := u8 ivbyte]> d)) as wrapped eqn:Hw. clear Hw.
  assert (Hset : at0 (<[0%nat := u8 ivbyte]> d) 0 = ivbyte).
  { rewrite at0_insert_eq by exact Hlen. apply u8_byte. exact Hiv. }
  rewrite next_byte in Hs by exact Hd0. unfold is_byte in Hiv, Hd0.
  destruct (Z.eqb_spec ((at0 d 0 + 1) mod 256) ivbyte) as [Eord|Nord].
  { destruct (_ <? _); [injection Hs as <-; exact Hset|].
    destruct (_ <? _); [|discriminate Hs].
    pose proof (carry_fst (BLOCK_SIZE - 1) 1 (<[0%nat := u8 ivbyte]> d) e) as Hc.
    destruct (carry _ _ _ _) as [d' e']. cbn [fst] in Hc. injection Hs as <-.
    cbn [s_decryptIV]. rewrite Hc, increment_below by lia. exact Hset. }
  set (diff := if 128 <? _ then _ else _) in *.
  destruct ((ivbyte <? at0 d 0) && (-30 <? diff) && (diff <? 0)).
  { destruct (decide _); [discriminate Hs|]. injection Hs as <-. discriminate Hr. }
  destruct ((at0 d 0 <? ivbyte) && (-30 <? diff) && (diff <? 0)).
  { destruct (decide _); [discriminate Hs|]. injection Hs as <-. discriminate Hr. }
  destruct ((at0 d 0 <? ivbyte) && (0 <? diff)).
  { destruct (decide _); [discriminate Hs|]. injection Hs as <-. exact Hset. }
  destruct (Z.ltb_spec ivbyte (at0 d 0)) as [Hlt|]; [|discriminate Hs].
  destruct (Z.ltb_spec 0 diff) as [Hpos|]; [|discriminate Hs].
  exfalso. unfold diff in Hpos.
  destruct Hnear as [Hnear|[E255 E0]].
  - destruct (Z.ltb_spec 128 (ivbyte - at0 d 0)); [lia|].
    destruct (Z.ltb_spec (ivbyte - at0 d 0) (-128)); lia.
  - apply Nord. rewrite E255, E0. reflexivity.
Qed.

(** [X26] A packet that [decrypt] has just accepted is turned away when
    it arrives a second time, and the second call changes nothing: either
    the receiver's nonce has moved on to the packet's, or the history has
    taken note of it.  The packets left out are those taken for the first
    after a wrap of byte 0 with losses. *)
Theorem replay_refused c cipherText c' plainText :
  is_byte (at0 cipherText 0) -> is_byte (at0 (_decryptIV c) 0) ->
  (0 < length (_decryptIV c))%nat ->
  at0 (_decryptIV c) 0 - at0 cipherText 0 <= 128 \/
    (at0 (_decryptIV c) 0 = 255 /\ at0 cipherText 0 = 0) ->
  decrypt c cipherText = (c', Some plainText) ->
  decrypt c' cipherText = (c', None).
Proof.
  intros Hiv Hd0 Hlen Hnear H. unfold Crypt.decrypt in H.
  destruct (length cipherText <? 4)%nat; [discriminate H|].
  destruct (synchronise c (at0 cipherText 0)) as [d e|s] eqn:Hs; [discriminate H|].
  destruct (ocbDecrypt _ _ _ _ _ _) as [P tag].
  destruct (decide _); [|discriminate H].
  injection H as <- _.
  apply decrypt_null. cbn [_decryptIV _encryptIV].
  destruct (restore s) eqn:Hr.
  - destruct (synchronise_noted c
                {| _key := _key c; _decryptIV := _decryptIV c; _encryptIV := s_encryptIV s;
                   _decryptHistory :=
                     <[at0 (s_decryptIV s) 0 := at0 (s_decryptIV s) 1]> (_decryptHistory c);
                   _stats := {| good := good (_stats c) + 1;
                                late := late (_stats c) + s_late s;
                                lost := lost (_stats c) + s_lost s |} |}
                (at0 cipherText 0) s Hs Hr eq_refl) as [Hnull _].
    + cbn [_encryptIV].
      (* the late branches leave [_encryptIV] alone *)
      clear - Hs Hr. unfold synchronise in Hs. cbv zeta in Hs.
      remember (borrow BLOCK_SIZE 0 _) as wrapped eqn:Hw. clear Hw.
      repeat match type of Hs with
             | context [if ?b then _ else _] => destruct b
             | context [let '(_, _) := ?x in _] => destruct x
             end;
        first [ discriminate Hs
              | injection Hs as <-; first [discriminate Hr | reflexivity] ].
    + cbn [_decryptHistory]. apply lookup_insert_eq.
    + exact Hnull.
  - apply synchronise_same; [exact Hiv|]. cbn [_decryptIV].
    apply (synchronise_moves c); assumption.
Qed.

End Refusals.

(** ** Setting up a [UdpCrypt] *)

Section SetupFacts.
Import JS.

(** Every field that is set holds a block. *)
Local Abbreviation blocks_only :=
  (fun c : Setup.Fields =>
     (forall b, Setup._key c = Some b -> Crypt.is_block b) /\
     (forall b, Setup._decryptIV c = Some b -> Crypt.is_block b) /\
     (forall b, Setup._encryptIV c = Some b -> Crypt.is_block b)).

Lemma sized_block (b : list Z) :
  Forall is_byte b -> (length b =? Crypt.BLOCK_SIZE)%nat = true -> Crypt.is_block b.
Proof. intros Hb Hl. split; [apply Nat.eqb_eq, Hl | exact Hb]. Qed.

Lemma apply_call_blocks c k :
  Setup.answers_in_size k -> Setup.holds_bytes k ->
  blocks_only c -> blocks_only (Setup.apply_call c k).
Proof.
  intros Hsize Hbytes (Hk & Hd & He).
  destruct k as [key|decryptIV|encryptIV|[buf|]];
    cbn [Setup.apply_call Setup.holds_bytes Setup.answers_in_size] in *.
  - unfold Setup.setKey.
    destruct (length key =? Crypt.BLOCK_SIZE)%nat eqn:El; cbn [negb default]; [|auto].
    split_ands; cbn [Setup._key Setup._decryptIV Setup._encryptIV]; auto.
    intros b [= <-]. apply sized_block; assumption.
  - unfold Setup.setDecryptIV.
    destruct (length decryptIV =? Crypt.BLOCK_SIZE)%nat eqn:El; cbn [negb default]; [|auto].
    split_ands; cbn [Setup._key Setup._decryptIV Setup._encryptIV]; auto.
    intros b [= <-]. apply sized_block; assumption.
  - unfold Setup.setEncryptIV.
    destruct (length encryptIV =? Crypt.BLOCK_SIZE)%nat eqn:El; cbn [negb default]; [|auto].
    split_ands; cbn [Setup._key Setup._decryptIV Setup._encryptIV]; auto.
    intros b [= <-]. apply sized_block; assumption.
  - cbn [Setup.generateKey Setup.fields].
    unfold Crypt.BLOCK_SIZE in *. unfold slice, slice_from.
    split_ands; cbn [Setup._key Setup._decryptIV Setup._encryptIV];
      intros b [= <-]; (split;
        [ rewrite ?length_take, ?length_drop; unfold Crypt.BLOCK_SIZE; lia
        | repeat first [apply Forall_take | apply Forall_drop]; exact Hbytes ]).
  - cbn [Setup.generateKey Setup.fields]. auto.
Qed.

Lemma calls_blocks calls :
  forall c,
    Forall Setup.answers_in_size calls -> Forall Setup.holds_bytes calls ->
    blocks_only c -> blocks_only (foldl Setup.apply_call c calls).
Proof.
  induction calls as [|k calls IH]; intros c Hsize Hbytes Hc; [exact Hc|].
  apply Forall_cons in Hsize as [Hk Hsize]. apply Forall_cons in Hbytes as [Hb Hbytes].
  cbn [foldl]. apply IH; [assumption..|]. apply apply_call_blocks; assumption.
Qed.

(** [X28] Whatever calls of the setters and of [generateKey] an object
    has seen, in whatever order and whether they threw or not, once
    [ready()] holds each of the three fields is a buffer of exactly
    [BLOCK_SIZE] bytes: the state that [encrypt] and [decrypt] work on. *)
Theorem ready_after_setup calls :
  Forall Setup.answers_in_size calls -> Forall Setup.holds_bytes calls ->
  Setup.ready (Setup.run calls) = true ->
  exists key decryptIV encryptIV,
    Setup.run calls =
      {| Setup._key := Some key; Setup._decryptIV := Some decryptIV;
         Setup._encryptIV := Some encryptIV |} /\
    Crypt.is_block key /\ Crypt.is_block decryptIV /\ Crypt.is_block encryptIV.
Proof.
  intros Hsize Hbytes Hready.
  assert (Hinv : blocks_only (Setup.run calls)).
  { apply calls_blocks; [assumption..|]. split_ands; intros b H; discriminate H. }
  destruct Hinv as (Hk & Hd & He). unfold Setup.ready in Hready.
  destruct (Setup.run calls) as [[key|] [d|] [e|]]; try discriminate Hready.
  cbn [Setup._key Setup._decryptIV Setup._encryptIV] in *.
  exists key, d, e. auto.
Qed.

End SetupFacts.

(** ** The protocol version *)

Section VersionFacts.
Import JS Index.

(** [X29] [toUInt8] packs the version into one 32-bit number: the low
    16 bits of [major] above the low 8 bits of [minor] above the low 8
    bits of [patch], read as a signed number, so that a [major] from
    [0x8000] on gives a negative result. *)
Theorem toUInt8_packs v :
  0 <= major v < 2 ^ 31 -> 0 <= minor v < 2 ^ 31 -> 0 <= patch v < 2 ^ 31 ->
  toUInt8 v =
    toInt32 ((major v mod 2 ^ 16) * 2 ^ 16 + (minor v mod 2 ^ 8) * 2 ^ 8
             + patch v mod 2 ^ 8).
Proof.
  intros HM Hm Hp. unfold toUInt8.
  change 65535 with (2 ^ 16 - 1). change 255 with (2 ^ 8 - 1).
  rewrite (band_low (major v) 16), (band_low (minor v) 8), (band_low (patch v) 8) by lia.
  pose proof (Z.mod_pos_bound (major v) (2 ^ 16) ltac:(lia)) as HM'.
  pose proof (Z.mod_pos_bound (minor v) (2 ^ 8) ltac:(lia)) as Hm'.
  pose proof (Z.mod_pos_bound (patch v) (2 ^ 8) ltac:(lia)) as Hp'.
  set (M := major v mod 2 ^ 16) in *. set (m := minor v mod 2 ^ 8) in *.
  set (p := patch v mod 2 ^ 8) in *.
  rewrite (shl_mul m 8) by lia.
  assert (Hhigh : exists H, M << 16 = H * 2 ^ 16 /\ - 2 ^ 15 <= H < 2 ^ 15 /\
                            toInt32 (M * 2 ^ 16 + m * 2 ^ 8 + p) = H * 2 ^ 16 + m * 2 ^ 8 + p).
  { unfold shl. rewrite (toInt32_small M) by lia. change (16 mod 32) with 16.
    rewrite Z.shiftl_mul_pow2 by lia.
    destruct (Z.lt_ge_cases M (2 ^ 15)) as [Hlow|Hhigh].
    - exists M. rewrite !toInt32_small by lia. split_ands; lia.
    - exists (M - 2 ^ 16). rewrite !toInt32_high by lia. split_ands; lia. }
  destruct Hhigh as (H & -> & HH & ->).
  unfold bor.
  rewrite (toInt32_small (H * 2 ^ 16)), (toInt32_small (m * 2 ^ 8)), (toInt32_small p) by lia.
  rewrite (lor_disjoint H (m * 2 ^ 8) 16) by lia.
  rewrite toInt32_small by lia.
  replace (H * 2 ^ 16 + m * 2 ^ 8) with ((H * 2 ^ 8 + m) * 2 ^ 8) by lia.
  apply lor_disjoint; lia.
Qed.

End VersionFacts.

(** The version that the library announces, 1.2.16. *)
Lemma toUInt8_packs_witness :
  Index.toUInt8 Index.version = 0x010210 /\
  Index.toUInt8 Index.version =
    JS.toInt32 ((Index.major Index.version mod 2 ^ 16) * 2 ^ 16
                + (Index.minor Index.version mod 2 ^ 8) * 2 ^ 8
                + Index.patch Index.version mod 2 ^ 8).
Proof.
  split; [reflexivity|].
  apply (toUInt8_packs Index.version); cbn; lia.
Defined.

(** ** The properties above on sample inputs *)

(** The control channel: three chunks through an encoder and, cut into
    five pieces, through a decoder. *)
Lemma control_round_trip_witness :
  let Encode :=
    Control.encode_all (list Z) [] Control.raw_encode None JS.zeroed in
  exists packets d outs,
    Encode Samples.control_chunks = Some packets /\
    concat Samples.control_stream_chunks = concat packets /\
    Control.feed (list Z) Control.raw_decode JS.zeroed
      (Control.new_Decoder JS.zeroed) Samples.control_stream_chunks
      = Some (d, outs, false) /\
    length outs = length Samples.control_stream_chunks /\
    Some <$> concat outs =
      Control.arrives (list Z) (list Z) [] Control.raw_decoded_of
        <$> Samples.control_chunks.
Proof.
  cbv zeta. eexists.
  assert (Hreg : Forall (fun c => exists name,
                   Control.cname (list Z) c = Some name /\
                   is_Some (Control.idByName !! name)) Samples.control_chunks).
  { unfold Samples.control_chunks.
    repeat (apply Forall_cons_2;
            [eexists; split; [reflexivity|]; vm_compute; eexists; reflexivity|]).
    apply Forall_nil_2. }
  assert (Henc : Control.encode_all (list Z) [] Control.raw_encode None JS.zeroed
                   Samples.control_chunks
                 = Some [ [0; 0; 0; 0; 0; 0];
                          [0; 1; 0; 0; 0; 4; 0x80; 0x05; 0x01; 0xAA];
                          [0; 3; 0; 0; 0; 0] ])
    by (vm_compute; reflexivity).
  assert (Hcut : concat Samples.control_stream_chunks
                 = concat [ [0; 0; 0; 0; 0; 0];
                            [0; 1; 0; 0; 0; 4; 0x80; 0x05; 0x01; 0xAA];
                            [0; 3; 0; 0; 0; 0] ])
    by reflexivity.
  destruct (control_round_trip (list Z) (list Z) [] Control.raw_encode
              Control.raw_decode Control.raw_decoded_of None JS.zeroed zeroed_length
              (fun name payload data H =>
                 f_equal (fun o => Some (default [] o)) (eq_sym H))
              Samples.control_chunks _ Samples.control_stream_chunks Hreg Henc Hcut)
    as (d & outs & H).
  exists d, outs. split; [exact Henc|]. split; [exact Hcut|]. exact H.
Defined.

(** The tunnelled voice packet of the samples. *)
Lemma control_encoder_frame_witness :
  let c := {| Control.cname := Some "UDPTunnel"%string;
              Control.cpayload := Some (Control.Buf (list Z) [0x80; 0x05; 0x01; 0xAA]) |} in
  let bytes := [0; 1; 0; 0; 0; 4; 0x80; 0x05; 0x01; 0xAA] in
  Control.Encoder_transform (list Z) [] Control.raw_encode None JS.zeroed c
    = Control.Encoded bytes /\
  exists name data,
    Control.cname (list Z) c = Some name /\
    bytes = take 6 bytes ++ data /\ length bytes = (6 + length data)%nat /\
    Control.readUInt32BE bytes 2 = Z.of_nat (length data) /\
    (forall id, Control.idByName !! name = Some id -> Control.readUInt16BE bytes 0 = id) /\
    (name = "UDPTunnel"%string ->
     Control.cpayload (list Z) c = Some (Control.Buf (list Z) data)).
Proof.
  cbv zeta. split; [reflexivity|].
  exact (control_encoder_frame (list Z) [] Control.raw_encode None JS.zeroed zeroed_length
           {| Control.cname := Some "UDPTunnel"%string;
              Control.cpayload := Some (Control.Buf (list Z) [0x80; 0x05; 0x01; 0xAA]) |}
           [0; 1; 0; 0; 0; 4; 0x80; 0x05; 0x01; 0xAA] eq_refl).
Defined.

(** A decoder fed a whole Ping and the start of another frame. *)
Lemma transform_total_witness :
  let d := Control.new_Decoder JS.zeroed in
  let chunk := [0; 3; 0; 0; 0; 1; 7; 0; 9] in
  exists o taken,
    Control.transform (list Z) Control.raw_decode JS.zeroed d chunk = Some o /\
    Control.sound (Control.state (list Z) o) /\
    (length (Control._buffer d) <= length (Control._buffer (Control.state (list Z) o)))%nat /\
    Control.buffered d ++ chunk = taken ++ Control.buffered (Control.state (list Z) o) /\
    (6 * length (Control.pushed (list Z) o) <= length taken)%nat /\
    (Control.error (list Z) o = false ->
     Control.incomplete (Control.buffered (Control.state (list Z) o))).
Proof.
  cbv zeta.
  apply (transform_total (list Z) Control.raw_decode JS.zeroed zeroed_length
           (Control.new_Decoder JS.zeroed) [0; 3; 0; 0; 0; 1; 7; 0; 9]).
  - intros n. apply Forall_replicate. unfold JS.is_byte. lia.
  - unfold Control.sound. cbn. lia.
  - apply Forall_replicate. unfold JS.is_byte. lia.
  - repeat (apply Forall_cons_2; [unfold JS.is_byte; lia|]). apply Forall_nil_2.
Defined.

(** A frame of an unregistered type, and a Ping that arrives behind it. *)
Lemma decode_error_sticks_witness :
  exists o,
    Control.transform (list Z) Control.raw_decode JS.zeroed
      (Control.new_Decoder JS.zeroed) Samples.unregistered_frame = Some o /\
    Control.error (list Z) o = true /\
    Control.transform (list Z) Control.raw_decode JS.zeroed
      (Control.state (list Z) o) [0; 3; 0; 0; 0; 0] =
      Some {| Control.state :=
                Control.append JS.zeroed (Control.state (list Z) o) [0; 3; 0; 0; 0; 0];
              Control.pushed := []; Control.error := true |}.
Proof.
  destruct (Control.transform (list Z) Control.raw_decode JS.zeroed
              (Control.new_Decoder JS.zeroed) Samples.unregistered_frame)
    as [o|] eqn:Ho; [|vm_compute in Ho; discriminate Ho].
  assert (He : Control.error (list Z) o = true).
  { vm_compute in Ho. injection Ho as <-. reflexivity. }
  exists o. split; [reflexivity|]. split; [exact He|].
  apply (decode_error_sticks (list Z) Control.raw_decode JS.zeroed zeroed_length
           (Control.new_Decoder JS.zeroed) Samples.unregistered_frame o
           [0; 3; 0; 0; 0; 0]).
  - unfold Control.sound. cbn. lia.
  - exact Ho.
  - exact He.
Defined.

(** The two offset updates on a block with its top bit set. *)
Lemma S3_is_xor_S2_witness :
  Crypt.is_block Samples.offset_block /\
  Crypt.S3 Samples.offset_block =
    Crypt.xor_block Samples.offset_block (Crypt.S2 Samples.offset_block).
Proof.
  assert (H : Crypt.is_block Samples.offset_block)
    by (apply is_block_check; vm_compute; reflexivity).
  split; [exact H|]. exact (S3_is_xor_S2 Samples.offset_block H).
Defined.

Lemma S2_doubles_witness :
  Crypt.is_block Samples.offset_block /\
  Crypt.be_value (Crypt.S2 Samples.offset_block) =
    Z.lxor ((2 * Crypt.be_value Samples.offset_block) mod 2 ^ 128)
           (if 2 ^ 127 <=? Crypt.be_value Samples.offset_block then 0x87 else 0).
Proof.
  assert (H : Crypt.is_block Samples.offset_block)
    by (apply is_block_check; vm_compute; reflexivity).
  split; [exact H|]. exact (S2_doubles Samples.offset_block H).
Defined.

(** The stand-in cipher returns blocks under the key of the samples. *)
Lemma encrypt_fresh_buffers_witness :
  Crypt.encrypt Crypt.mask JS.zeroed Samples.sender Samples.hello =
  Crypt.encrypt Crypt.mask (fun n => replicate n 0xAA) Samples.sender Samples.hello.
Proof.
  apply (encrypt_fresh_buffers Crypt.mask JS.zeroed (fun n => replicate n 0xAA)
           Samples.sender Samples.hello).
  - intros b Hb. unfold Crypt.mask. rewrite length_zip_with, Hb. reflexivity.
  - exact zeroed_length.
  - intros n. apply length_replicate.
Defined.

Lemma decrypt_fresh_buffers_witness :
  Crypt.decrypt Crypt.mask Crypt.mask JS.zeroed Samples.receiver
    [0; 207; 226; 219; 166; 139; 146; 140; 143] =
  Crypt.decrypt Crypt.mask Crypt.mask (fun n => replicate n 0xAA) Samples.receiver
    [0; 207; 226; 219; 166; 139; 146; 140; 143].
Proof.
  apply (decrypt_fresh_buffers Crypt.mask Crypt.mask JS.zeroed (fun n => replicate n 0xAA)
           Samples.receiver [0; 207; 226; 219; 166; 139; 146; 140; 143]).
  - intros b Hb. unfold Crypt.mask. rewrite length_zip_with, Hb. reflexivity.
  - intros b Hb. unfold Crypt.mask. rewrite length_zip_with, Hb. reflexivity.
  - exact zeroed_length.
  - intros n. apply length_replicate.
Defined.

Lemma encrypt_packet_shape_witness :
  let r := Crypt.encrypt Crypt.mask JS.zeroed Samples.sender Samples.hello in
  length r.2 = (length Samples.hello + 4)%nat /\
  JS.at0 r.2 0 = JS.u8 (JS.at0 (Crypt._encryptIV r.1) 0) /\
  Crypt._encryptIV r.1 =
    Crypt.increment Crypt.BLOCK_SIZE 0 (Crypt._encryptIV Samples.sender).
Proof.
  apply (encrypt_packet_shape Crypt.mask JS.zeroed Samples.sender Samples.hello).
  - intros b Hb. unfold Crypt.mask. rewrite length_zip_with, Hb. reflexivity.
  - exact zeroed_length.
Defined.

(** A nonce one short of its last value. *)
Lemma encrypt_counts_up_witness :
  let c := (Crypt.encrypt Crypt.mask JS.zeroed Samples.late_sender Samples.hello).1 in
  Crypt.le_value (Crypt._encryptIV Samples.late_sender) = 2 ^ 128 - 2 /\
  Crypt.is_block (Crypt._encryptIV c) /\
  Crypt.le_value (Crypt._encryptIV c) =
    (Crypt.le_value (Crypt._encryptIV Samples.late_sender) + 1) mod 2 ^ 128.
Proof.
  cbv zeta. split; [vm_compute; reflexivity|].
  apply (encrypt_counts_up Crypt.mask JS.zeroed Samples.late_sender Samples.hello).
  apply is_block_check. vm_compute. reflexivity.
Defined.

(** Three packets across a carry out of two nonce bytes. *)
Lemma in_order_stream_witness :
  let sent :=
    Crypt.encrypt_all Crypt.mask JS.zeroed Samples.sender [Samples.hello; []; [1; 2; 3]] in
  let received :=
    Crypt.decrypt_all Crypt.mask Crypt.mask JS.zeroed Samples.receiver sent.2 in
  received.2 = Some <$> [Samples.hello; []; [1; 2; 3]] /\
  Crypt._decryptIV received.1 = Crypt._encryptIV sent.1 /\
  Crypt.good (Crypt._stats received.1) = Crypt.good (Crypt._stats Samples.receiver) + Z.of_nat 3 /\
  Crypt.late (Crypt._stats received.1) = Crypt.late (Crypt._stats Samples.receiver) /\
  Crypt.lost (Crypt._stats received.1) = Crypt.lost (Crypt._stats Samples.receiver).
Proof.
  apply (in_order_stream Crypt.mask Crypt.mask JS.zeroed zeroed_length mask_block
           mask_inverse [Samples.hello; []; [1; 2; 3]] Samples.sender Samples.receiver).
  - apply is_block_check. vm_compute. reflexivity.
  - apply is_block_check. vm_compute. reflexivity.
  - reflexivity.
  - reflexivity.
  - repeat (apply Forall_cons_2;
            [repeat (apply Forall_cons_2; [unfold JS.is_byte; lia|]); apply Forall_nil_2|]).
    apply Forall_nil_2.
Defined.


(** A packet three behind the receiver's nonce. *)
Lemma decrypt_late_witness :
  let nonce :=
    Crypt.increment Crypt.BLOCK_SIZE 0 (Crypt._encryptIV Samples.sender_behind) in
  JS.at0 nonce 0 = 37 /\
  Crypt.decrypt Crypt.mask Crypt.mask JS.zeroed Samples.midstream_receiver
    (Crypt.encrypt Crypt.mask JS.zeroed Samples.sender_behind Samples.hello).2 =
  ({| Crypt._key := Crypt._key Samples.midstream_receiver;
      Crypt._decryptIV := Crypt._decryptIV Samples.midstream_receiver;
      Crypt._encryptIV := Crypt._encryptIV Samples.midstream_receiver;
      Crypt._decryptHistory :=
        <[JS.at0 nonce 0 := JS.at0 nonce 1]>
          (Crypt._decryptHistory Samples.midstream_receiver);
      Crypt._stats :=
        {| Crypt.good := Crypt.good (Crypt._stats Samples.midstream_receiver) + 1;
           Crypt.late := Crypt.late (Crypt._stats Samples.midstream_receiver) + 1;
           Crypt.lost := Crypt.lost (Crypt._stats Samples.midstream_receiver) + -1 |} |},
   Some Samples.hello).
Proof.
  cbv zeta. split; [reflexivity|].
  apply (decrypt_late Crypt.mask Crypt.mask JS.zeroed zeroed_length mask_block
           mask_inverse Samples.sender_behind Samples.midstream_receiver Samples.hello).
  - apply is_block_check. vm_compute. reflexivity.
  - apply is_block_check. vm_compute. reflexivity.
  - repeat (apply Forall_cons_2; [unfold JS.is_byte; cbn; lia|]). apply Forall_nil_2.
  - reflexivity.
  - apply is_block_check. vm_compute. reflexivity.
  - reflexivity.
  - vm_compute. split; reflexivity.
  - vm_compute. discriminate.
Defined.

(** A packet 100 behind the receiver's nonce, outside the window. *)
Lemma decrypt_refuses_witness :
  Crypt.decrypt Crypt.mask Crypt.mask JS.zeroed Samples.midstream_receiver
    [196; 1; 2; 3; 4; 5] = (Samples.midstream_receiver, None).
Proof.
  apply (decrypt_refuses Crypt.mask Crypt.mask JS.zeroed Samples.midstream_receiver
           [196; 1; 2; 3; 4; 5]).
  - vm_compute. split; [discriminate|reflexivity].
  - vm_compute. split; [discriminate|reflexivity].
  - right. right. vm_compute. split; discriminate.
Defined.

(** The packet of the round trip, a second time. *)
Lemma replay_refused_witness :
  let packet := [0; 207; 226; 219; 166; 139; 146; 140; 143] in
  let first := Crypt.decrypt Crypt.mask Crypt.mask JS.zeroed Samples.receiver packet in
  first.2 = Some Samples.hello /\
  Crypt.decrypt Crypt.mask Crypt.mask JS.zeroed first.1 packet = (first.1, None).
Proof.
  cbv zeta.
  destruct (Crypt.decrypt Crypt.mask Crypt.mask JS.zeroed Samples.receiver
              [0; 207; 226; 219; 166; 139; 146; 140; 143]) as [c' P] eqn:H.
  assert (HP : P = Some Samples.hello).
  { vm_compute in H. injection H as _ <-. reflexivity. }
  subst P. split; [reflexivity|].
  apply (replay_refused Crypt.mask Crypt.mask JS.zeroed Samples.receiver
           [0; 207; 226; 219; 166; 139; 146; 140; 143] c' Samples.hello).
  - vm_compute. split; [discriminate|reflexivity].
  - vm_compute. split; [discriminate|reflexivity].
  - cbn. lia.
  - right. split; reflexivity.
  - exact H.
Defined.

(** A packet with the wrong tag leaves the counters alone. *)
Lemma decrypt_failure_stats_witness :
  let r := Crypt.decrypt Crypt.mask Crypt.mask JS.zeroed Samples.receiver [0; 1; 2; 3; 9; 9] in
  r.2 = None /\ Crypt._stats r.1 = Crypt._stats Samples.receiver.
Proof.
  cbv zeta.
  assert (H : (Crypt.decrypt Crypt.mask Crypt.mask JS.zeroed Samples.receiver
                 [0; 1; 2; 3; 9; 9]).2 = None) by (vm_compute; reflexivity).
  split; [exact H|].
  exact (decrypt_failure_stats Crypt.mask Crypt.mask JS.zeroed Samples.receiver
           [0; 1; 2; 3; 9; 9] H).
Defined.

(** Five calls, two of which throw. *)
Lemma ready_after_setup_witness :
  Setup.ready (Setup.run Samples.setup_calls) = true /\
  exists key decryptIV encryptIV,
    Setup.run Samples.setup_calls =
      {| Setup._key := Some key; Setup._decryptIV := Some decryptIV;
         Setup._encryptIV := Some encryptIV |} /\
    Crypt.is_block key /\ Crypt.is_block decryptIV /\ Crypt.is_block encryptIV.
Proof.
  split; [reflexivity|].
  apply (ready_after_setup Samples.setup_calls).
  - unfold Samples.setup_calls.
    repeat (apply Forall_cons_2; [exact I|]). apply Forall_nil_2.
  - unfold Samples.setup_calls.
    repeat (apply Forall_cons_2;
            [first [ exact I
                   | apply Forall_replicate; unfold JS.is_byte; lia
                   | repeat (apply Forall_cons_2; [unfold JS.is_byte; lia|]);
                     apply Forall_nil_2 ]|]).
    apply Forall_nil_2.
  - reflexivity.
Defined.
